(** * MeshPhone core: routing, energy ledger, messages, node, onion wrapper

    A shallow embedding of the Python sources under [meshphone/core] and
    [meshphone/crypto/onion.py], and of the topology update of
    [meshphone/mesh_app.py], with the properties of the specification stated
    and settled against it, followed by further properties of the same code.

    Conventions of the embedding.
    - A Python [str] is a [string]; a Python [int] is a [Z] (or a [nat] where
      the source only counts); [bytes] is a [list Byte.byte].
    - A Python [float] is read as an exact rational ([Qc]): the arithmetic of
      the source is kept operation by operation, binary64 rounding error is
      outside the model.  [round(x, 2)] is rounding to two decimals, ties to
      even.
    - A [Dict[str, Set[str]]] is a [gmap string (gset string)]; the order in
      which [for x in s] visits a set is a parameter of the model.
    - A mutated object becomes explicit state passing: a method returns the
      new state of every object it mutates.
    - Clock reads, [uuid4()] and [os.urandom] are inputs of the functions
      that call them. *)

From Stdlib Require Import QArith Qcanon Qround Ascii Lqa.
From Stdlib.Strings Require Byte.
From stdpp Require Import gmap strings fin_maps fin_sets pretty numbers.
From stdpp Require Import list.

#[local] Set Warnings "-clear-no-such-hyp".

(* ===================================================================== *)
(** * Python numerics *)
(* ===================================================================== *)

Module Py.

Local Open Scope Qc_scope.

(** A decimal literal [n / d] of the source, as an exact rational. *)
Definition dec (n : Z) (d : positive) : Qc := Q2Qc (n # d).

(** Nearest integer, ties to even. *)
Definition round_half_even (x : Qc) : Z :=
  let f := Qfloor x in
  let r := x - Qc_of_Z f in
  if decide (r < dec 1 2) then f
  else if decide (dec 1 2 < r) then (f + 1)%Z
  else if Z.even f then f else (f + 1)%Z.

(** [round(x, 2)]. *)
Definition round2 (x : Qc) : Qc := Q2Qc (round_half_even (x * dec 100 1) # 100).

(** [str(n)] of a natural number, as an f-string prints it. *)
Definition str_nat (n : nat) : string := pretty n.

End Py.

(* ===================================================================== *)
(** * routing.py *)
(* ===================================================================== *)

Module Routing.

(** [RouteEntry] and the state of a [Router] (routing.py, lines 11-35). *)
Record RouteEntry := mkRouteEntry {
  destination : string;
  next_hop : string;
  hop_count : Z;
  sequence_number : Z;
  is_active : bool;
}.

Record Router := mkRouter {
  node_id : string;
  routing_table : gmap string RouteEntry;
  router_sequence_number : Z;
  neighbors : gset string;
}.

(** [Router.__init__]. *)
Definition Router_init (node : string) : Router :=
  mkRouter node ∅ 0%Z ∅.

(** [network_graph.get(current, set())]. *)
Definition neighbours (network_graph : gmap string (gset string))
    (current : string) : gset string :=
  default ∅ (network_graph !! current).

(** What one run of the inner [for neighbor in ...] loop ends in: the
    [return path + [neighbor]], or the loop falls through with the updated
    [visited] and [queue]. *)
Inductive scan_result :=
  | Return (route : list string)
  | Continue (visited : gset string) (queue : list (string * list string)).

(** The inner loop of [find_route] (routing.py, lines 71-77), over the
    neighbours in the order the iteration yields them. *)
Fixpoint scan_neighbors (destination : string) (path : list string)
    (nbrs : list string) (visited : gset string)
    (queue : list (string * list string)) : scan_result :=
  match nbrs with
  | [] => Continue visited queue
  | neighbor :: rest =>
      if decide (neighbor = destination) then Return (path ++ [neighbor])
      else if decide (neighbor ∈ visited)
      then scan_neighbors destination path rest visited queue
      else scan_neighbors destination path rest ({[neighbor]} ∪ visited)
             (queue ++ [(neighbor, path ++ [neighbor])])
  end.

(** Result of the [while queue:] loop.  [OutOfFuel] is an artefact of the
    embedding only; [bfs_fuel_enough] shows that [find_route] never meets it. *)
Inductive outcome :=
  | Found (route : list string)
  | NoRoute
  | OutOfFuel.

(** All identities that occur as somebody's neighbour: the only ones the
    search can ever enqueue. *)
Definition mentioned (network_graph : gmap string (gset string)) : gset string :=
  ⋃ (snd <$> map_to_list network_graph).

Section Search.

(** The order in which Python iterates over a set is not specified: it is a
    parameter, constrained only to enumerate the set. *)
Variable iteration : gset string → list string.
Hypothesis iteration_spec : ∀ (s : gset string) (x : string), x ∈ iteration s ↔ x ∈ s.

(** The [while queue:] loop (routing.py, lines 68-77); one unit of fuel per
    dequeued entry. *)
Fixpoint bfs_loop (fuel : nat) (network_graph : gmap string (gset string))
    (destination : string) (visited : gset string)
    (queue : list (string * list string)) : outcome :=
  match queue with
  | [] => NoRoute
  | (current, path) :: queue' =>
      match fuel with
      | O => OutOfFuel
      | S fuel' =>
          match scan_neighbors destination path
                  (iteration (neighbours network_graph current)) visited queue' with
          | Return route => Found route
          | Continue visited' queue'' =>
              bfs_loop fuel' network_graph destination visited' queue''
          end
      end
  end.

(** The search from [self] (routing.py, lines 65-79) as a three-valued result. *)
Definition bfs (fuel : nat) (self destination : string)
    (network_graph : gmap string (gset string)) : outcome :=
  bfs_loop fuel network_graph destination {[self]} [(self, [self])].

(** [Router.find_route] (routing.py, lines 46-79).  Every identity is enqueued
    at most once, so [S (size (mentioned g))] iterations always suffice. *)
Definition find_route (self : Router) (destination : string)
    (network_graph : gmap string (gset string)) : option (list string) :=
  if decide (node_id self = destination) then Some [node_id self]
  else if decide (destination ∉ dom network_graph) then None
  else
    match bfs (S (size (mentioned network_graph))) (node_id self) destination
            network_graph with
    | Found route => Some route
    | NoRoute | OutOfFuel => None
    end.

(** ** Routes of a view *)

(** An identity path of the view: it starts at [src], ends at [dst], and each
    member is a neighbour (in the view) of the one before it. *)
Definition valid_route (g : gmap string (gset string)) (src dst : string)
    (p : list string) : Prop :=
  p !! 0%nat = Some src ∧ list.last p = Some dst ∧
  ∀ (i : nat) (a b : string),
    p !! i = Some a → p !! S i = Some b → b ∈ neighbours g a.

(** The same, built the way the search builds paths: by appending a hop. *)
Inductive walk (g : gmap string (gset string)) (src : string) :
    list string → string → Prop :=
  | walk_start : walk g src [src] src
  | walk_snoc p a b :
      walk g src p a → b ∈ neighbours g a → walk g src (p ++ [b]) b.

Lemma walk_valid g src p dst : walk g src p dst → valid_route g src dst p.
Proof.
  induction 1 as [|p a b Hw (Hh & Hl & Hstep) Hb].
  - repeat split; [done..|]. intros [|i] x y Hx Hy; simplify_eq/=.
  - split_and!.
    + apply lookup_app_l_Some. done.
    + by rewrite last_snoc.
    + intros i x y Hx Hy.
      destruct (decide (S i < length p)%nat) as [Hlt|Hge].
      * rewrite lookup_app_l in Hx by lia. rewrite lookup_app_l in Hy by lia. eauto.
      * assert (S i = length p) as Hi.
        { apply lookup_lt_Some in Hy. rewrite length_app in Hy. simpl in Hy. lia. }
        rewrite lookup_app_l in Hx by lia.
        rewrite Hi, list_lookup_middle in Hy by done. simplify_eq.
        rewrite last_lookup in Hl.
        replace (pred (length p)) with i in Hl by lia. by simplify_eq.
Qed.

Lemma valid_walk g src p dst : valid_route g src dst p → walk g src p dst.
Proof.
  revert dst. induction p as [|b p IH] using rev_ind; intros dst (Hh & Hl & Hstep).
  - done.
  - rewrite last_snoc in Hl. simplify_eq.
    destruct p as [|x p _] using rev_ind.
    + simpl in Hh. simplify_eq. constructor.
    + apply walk_snoc with x.
      * apply IH. split_and!.
        -- rewrite lookup_app_l in Hh; [done|]. rewrite length_app. simpl. lia.
        -- by rewrite last_snoc.
        -- intros i a b Ha Hb. apply (Hstep i).
           ++ apply lookup_app_l_Some. done.
           ++ apply lookup_app_l_Some. done.
      * apply (Hstep (length p)).
        -- rewrite lookup_app_l by (rewrite length_app; simpl; lia).
           by rewrite list_lookup_middle.
        -- by rewrite list_lookup_middle by (rewrite length_app; simpl; lia).
Qed.

Lemma walk_length g src p dst : walk g src p dst → (1 ≤ length p)%nat.
Proof. destruct 1; rewrite ?length_app; simpl; lia. Qed.

Lemma walk_short g src p dst : walk g src p dst → (length p ≤ 1)%nat → dst = src.
Proof.
  destruct 1 as [|p a b Hw _]; [done|]. apply walk_length in Hw.
  rewrite length_app. simpl. lia.
Qed.

(** ** The search invariant *)

Section Invariant.

Variable g : gmap string (gset string).
Variables self dest : string.

(** A queue entry [(n, p)]: [p] is a walk from [self] to [n], [n] has been
    marked visited, and no walk to [n] is shorter than [p]. *)
Definition entry_ok (V : gset string) (e : string * list string) : Prop :=
  walk g self e.2 e.1 ∧ e.1 ∈ V ∧
  ∀ q, walk g self q e.1 → (length (e.2) ≤ length q)%nat.

(** The queue holds paths of length [L] followed by paths of length [S L]. *)
Definition levels (L : nat) (Q : list (string * list string)) : Prop :=
  ∃ Q1 Q2, Q = Q1 ++ Q2 ∧
    Forall (λ e, length (e.2) = L) Q1 ∧ Forall (λ e, length (e.2) = S L) Q2.

(** Every walk of at most [L] members ends in a visited identity. *)
Definition covered (L : nat) (V : gset string) : Prop :=
  ∀ q x, walk g self q x → (length q ≤ L)%nat → x ∈ V.

(** Every visited identity that has left the queue (and is not the one being
    scanned, [c]) has all its neighbours visited. *)
Definition closed_but (V : gset string) (Q : list (string * list string))
    (c : option string) : Prop :=
  ∀ y, y ∈ V → y ∉ Q.*1 → Some y ≠ c → ∀ x, x ∈ neighbours g y → x ∈ V.

Definition scan_inv (L : nat) (c : string) (V : gset string)
    (Q : list (string * list string)) : Prop :=
  self ∈ V ∧ (dest ∉ V) ∧ (1 ≤ L)%nat ∧ Forall (entry_ok V) Q ∧
  levels L Q ∧ covered L V ∧ closed_but V Q (Some c).

Definition loop_inv (V : gset string) (Q : list (string * list string)) : Prop :=
  self ∈ V ∧ (dest ∉ V) ∧ Forall (entry_ok V) Q ∧ (∃ L, levels L Q) ∧
  closed_but V Q None ∧
  match Q with [] => True | (_, p) :: _ => covered (length p) V end.

Lemma entry_ok_mono V V' e : V ⊆ V' → entry_ok V e → entry_ok V' e.
Proof. intros HV (Hw & Hin & Hmin). split_and!; [done|set_solver|done]. Qed.

Lemma loop_inv_init : dest ≠ self → loop_inv {[self]} [(self, [self])].
Proof.
  intros Hne. split_and!.
  - set_solver.
  - set_solver.
  - constructor; [|constructor]. split_and!; simpl.
    + constructor.
    + set_solver.
    + intros q Hq. by eapply walk_length.
  - exists 1%nat, [(self, [self])], []. split_and!; [done| |constructor].
    by repeat constructor.
  - intros y Hy Hq. set_solver.
  - intros q x Hw Hlen. simpl in Hlen.
    apply walk_short in Hw as ->; [set_solver|done].
Qed.

Lemma loop_to_scan V c p Q :
  loop_inv V ((c, p) :: Q) → scan_inv (length p) c V Q ∧ walk g self p c.
Proof.
  intros (Hs & Hd & Hq & (L0 & Q1 & Q2 & HQ & H1 & H2) & Hcl & Hcov).
  apply Forall_cons_1 in Hq as [(Hw & Hc & Hmin) Hq]. simpl in *.
  split; [|done]. split_and!; try done.
  - by eapply walk_length.
  - destruct Q1 as [|e Q1]; simpl in HQ; subst.
    + apply Forall_cons_1 in H2 as [Hp H2]. simpl in Hp.
      exists Q, []. rewrite app_nil_r, Hp. by split_and!.
    + simplify_eq. apply Forall_cons_1 in H1 as [Hp H1]. simpl in Hp. subst L0.
      by exists Q1, Q2.
  - intros y Hy HyQ Hyc x Hx. apply (Hcl y); try done.
    rewrite fmap_cons, not_elem_of_cons. simpl. split; [congruence|done].
Qed.

Lemma scan_inv_push L c p V Q n :
  scan_inv L c V Q → walk g self p c → length p = L →
  n ∈ neighbours g c → n ≠ dest → n ∉ V →
  scan_inv L c ({[n]} ∪ V) (Q ++ [(n, p ++ [n])]).
Proof.
  intros (Hs & Hd & HL & Hq & (Q1 & Q2 & -> & H1 & H2) & Hcov & Hcl) Hw Hp Hn Hnd HnV.
  split_and!; try done.
  - set_solver.
  - set_solver.
  - apply Forall_app. split.
    + revert Hq. apply List.Forall_impl. intros e. apply entry_ok_mono. set_solver.
    + constructor; [|constructor]. split_and!; simpl.
      * by apply walk_snoc with c.
      * set_solver.
      * intros q Hq'. rewrite length_app. simpl.
        destruct (decide (length q ≤ L)%nat) as [Hle|]; [|lia].
        destruct HnV. by apply (Hcov q).
  - exists Q1, (Q2 ++ [(n, p ++ [n])]). split_and!; [by rewrite (assoc app)|done|].
    apply Forall_app. split; [done|]. constructor; [|constructor].
    simpl. rewrite length_app. simpl. lia.
  - intros q x Hq' Hlen. apply elem_of_union_r. by apply (Hcov q).
  - intros y Hy HyQ Hyc x Hx.
    rewrite fmap_app, not_elem_of_app in HyQ. destruct HyQ as [HyQ Hyn].
    simpl in Hyn. rewrite not_elem_of_cons in Hyn. destruct Hyn as [Hyn _].
    apply elem_of_union_r. apply (Hcl y); try done. set_solver.
Qed.

Lemma scan_spec L c p nbrs : ∀ V Q,
  scan_inv L c V Q → walk g self p c → length p = L →
  (∀ x, x ∈ nbrs → x ∈ neighbours g c) →
  match scan_neighbors dest p nbrs V Q with
  | Return r => r = p ++ [dest] ∧ dest ∈ neighbours g c
  | Continue V' Q' =>
      scan_inv L c V' Q' ∧ V ⊆ V' ∧ ∀ x, x ∈ nbrs → x ∈ V'
  end.
Proof.
  induction nbrs as [|n rest IH]; intros V Q Hinv Hw Hp Hsub; simpl.
  - split_and!; [done|done|]. intros x Hx. by apply elem_of_nil in Hx.
  - destruct (decide (n = dest)) as [->|Hnd].
    { split; [done|]. apply Hsub. left. }
    assert (∀ x, x ∈ rest → x ∈ neighbours g c) as Hrest.
    { intros x Hx. apply Hsub. by right. }
    destruct (decide (n ∈ V)) as [HnV|HnV].
    + specialize (IH V Q Hinv Hw Hp Hrest).
      destruct (scan_neighbors dest p rest V Q) as [r|V' Q']; [done|].
      destruct IH as (Hinv' & HVV & Hall). split_and!; [done..|].
      intros x [->|Hx]%elem_of_cons; [set_solver|by apply Hall].
    + assert (scan_inv L c ({[n]} ∪ V) (Q ++ [(n, p ++ [n])])) as Hinv'.
      { apply scan_inv_push; try done. apply Hsub. left. }
      specialize (IH _ _ Hinv' Hw Hp Hrest).
      destruct (scan_neighbors dest p rest _ _) as [r|V' Q']; [done|].
      destruct IH as (Hinv'' & HVV & Hall). split_and!; [done|set_solver|].
      intros x [->|Hx]%elem_of_cons; [set_solver|by apply Hall].
Qed.

Lemma scan_to_loop L c V Q :
  scan_inv L c V Q → (∀ x, x ∈ neighbours g c → x ∈ V) → loop_inv V Q.
Proof.
  intros (Hs & Hd & HL & Hq & (Q1 & Q2 & -> & H1 & H2) & Hcov & Hcl) Hc.
  assert (closed_but V (Q1 ++ Q2) None) as Hcl'.
  { intros y Hy HyQ _ x Hx. destruct (decide (y = c)) as [->|Hyc]; [by apply Hc|].
    apply (Hcl y); try done. congruence. }
  split_and!; try done.
  - by exists L, Q1, Q2.
  - destruct Q1 as [|[c1 p1] Q1]; simpl.
    + destruct Q2 as [|[c2 p2] Q2]; [done|].
      pose proof H2 as H2'. apply Forall_cons_1 in H2' as [Hp2 _]. simpl in Hp2.
      rewrite Hp2. intros q x Hw Hlen.
      destruct Hw as [|q0 y x Hw0 Hxy]; [done|].
      rewrite length_app in Hlen. simpl in Hlen.
      assert (y ∈ V) as HyV by (apply (Hcov q0); [done|lia]).
      apply (Hcl' y); try done.
      intros ([y' py] & Hy' & Hin)%list_elem_of_fmap. simpl in Hy'. subst y'.
      rewrite Forall_forall in Hq, H2.
      pose proof (Hq _ Hin) as (_ & _ & Hmin). pose proof (H2 _ Hin) as Hlen'.
      simpl in *. specialize (Hmin _ Hw0). lia.
    + apply Forall_cons_1 in H1 as [Hp1 _]. simpl in Hp1. by rewrite Hp1.
Qed.

(** Leaving the scan of [c] never lengthens the work left: an identity is
    enqueued only when it was not yet visited. *)
Lemma scan_measure (U : gset string) p nbrs : ∀ V Q,
  (∀ x, x ∈ nbrs → x ∈ U) →
  match scan_neighbors dest p nbrs V Q with
  | Return _ => True
  | Continue V' Q' =>
      (size (U ∖ V') + length Q' = size (U ∖ V) + length Q)%nat
  end.
Proof.
  induction nbrs as [|n rest IH]; intros V Q Hsub; simpl; [done|].
  destruct (decide (n = dest)); [done|].
  assert (∀ x, x ∈ rest → x ∈ U) as Hrest by (intros; apply Hsub; by right).
  destruct (decide (n ∈ V)) as [HnV|HnV]; [by apply IH|].
  specialize (IH ({[n]} ∪ V) (Q ++ [(n, p ++ [n])]) Hrest).
  destruct (scan_neighbors dest p rest _ _) as [r|V' Q']; [done|].
  rewrite IH, length_app. simpl.
  assert (U ∖ V = {[n]} ∪ U ∖ ({[n]} ∪ V)) as Heq.
  { apply set_eq. intros x. rewrite !elem_of_union, !elem_of_difference,
      elem_of_union, elem_of_singleton.
    split; [|intros [->|[? ?]]].
    - intros [? ?]. destruct (decide (x = n)); [by left|right]. naive_solver.
    - split; [apply Hsub; left|done].
    - naive_solver. }
  assert (size (U ∖ V) = S (size (U ∖ ({[n]} ∪ V)))) as ->; [|lia].
  rewrite Heq at 1.
  transitivity (size ({[n]} : gset string) + size (U ∖ ({[n]} ∪ V)))%nat.
  - apply size_union. set_solver.
  - change (S ?k) with (1 + k)%nat. f_equal. apply size_singleton.
Qed.

Lemma neighbours_mentioned c x : x ∈ neighbours g c → x ∈ mentioned g.
Proof.
  unfold neighbours, mentioned. intros Hx.
  destruct (g !! c) as [s|] eqn:Hc; simpl in Hx; [|set_solver].
  apply elem_of_union_list. exists s. split; [|done].
  apply list_elem_of_fmap. exists (c, s). split; [done|].
  by apply elem_of_map_to_list.
Qed.

(** With an empty queue every visited identity is closed, so no walk leaves
    the visited set. *)
Lemma closed_all V q x :
  self ∈ V → closed_but V [] None → walk g self q x → x ∈ V.
Proof.
  intros Hs Hcl Hw. induction Hw as [|q0 y x Hw0 IHw Hxy]; [done|].
  apply (Hcl y); try done. intros Hy. by apply elem_of_nil in Hy.
Qed.

(** The loop, run with enough fuel from a state that satisfies the invariant:
    a route it returns is a shortest walk, [NoRoute] means that no walk
    exists, and the fuel never runs out. *)
Lemma bfs_loop_spec fuel : ∀ V Q,
  loop_inv V Q →
  (size (mentioned g ∖ V) + length Q ≤ fuel)%nat →
  match bfs_loop fuel g dest V Q with
  | Found r =>
      walk g self r dest ∧ ∀ q, walk g self q dest → (length r ≤ length q)%nat
  | NoRoute => ∀ q, ¬ walk g self q dest
  | OutOfFuel => False
  end.
Proof.
  induction fuel as [|fuel IH]; intros V Q Hinv Hfuel.
  - destruct Q as [|[c p] Q]; simpl in *; [|lia].
    destruct Hinv as (Hs & Hd & _ & _ & Hcl & _).
    intros q Hw. apply Hd. by apply (closed_all V q).
  - destruct Q as [|[c p] Q]; simpl in *.
    { destruct Hinv as (Hs & Hd & _ & _ & Hcl & _).
      intros q Hw. apply Hd. by apply (closed_all V q). }
    apply loop_to_scan in Hinv as [Hinv Hw].
    pose proof (scan_spec (length p) c p (iteration (neighbours g c)) V Q
      Hinv Hw eq_refl) as Hscan.
    pose proof (scan_measure (mentioned g) p (iteration (neighbours g c)) V Q) as Hm.
    destruct (scan_neighbors dest p (iteration (neighbours g c)) V Q) as [r|V' Q'].
    + destruct Hscan as [-> Hdc]; [intros x; apply iteration_spec|].
      split; [by apply walk_snoc with c|].
      intros q Hq. rewrite length_app. simpl.
      destruct Hinv as (_ & Hd & _ & _ & _ & Hcov & _).
      destruct (decide (length q ≤ length p)%nat) as [Hle|]; [|lia].
      destruct Hd. by apply (Hcov q).
    + destruct Hscan as (Hinv' & HVV & Hall); [intros x; apply iteration_spec|].
      apply IH.
      * apply scan_to_loop with (length p) c; [done|].
        intros x Hx. apply Hall. by apply iteration_spec.
      * rewrite Hm; [lia|]. intros x Hx%iteration_spec.
        by eapply neighbours_mentioned.
Qed.

(** ** First found wins *)

Lemma scan_hits p nbrs : ∀ V Q,
  dest ∈ nbrs → scan_neighbors dest p nbrs V Q = Return (p ++ [dest]).
Proof.
  induction nbrs as [|n rest IH]; intros V Q Hin; simpl.
  - by apply elem_of_nil in Hin.
  - destruct (decide (n = dest)) as [->|Hne]; [done|].
    apply elem_of_cons in Hin as [?|Hin]; [congruence|].
    destruct (decide (n ∈ V)); by apply IH.
Qed.

Lemma scan_misses p nbrs : ∀ V Q,
  dest ∉ nbrs →
  ∃ V' new, scan_neighbors dest p nbrs V Q = Continue V' (Q ++ new).
Proof.
  induction nbrs as [|n rest IH]; intros V Q Hin; simpl.
  - exists V, []. by rewrite app_nil_r.
  - apply not_elem_of_cons in Hin as [Hne Hin].
    destruct (decide (n = dest)); [congruence|].
    destruct (decide (n ∈ V)); [by apply IH|].
    destruct (IH ({[n]} ∪ V) (Q ++ [(n, p ++ [n])]) Hin) as (V' & new & ->).
    exists V', ((n, p ++ [n]) :: new). by rewrite <-(assoc app).
Qed.

(** The loop returns at the earliest queue entry that has the destination
    among its neighbours, whatever candidates stand behind it. *)
Lemma first_found Qa : ∀ fuel V c p Qb,
  Forall (λ e, dest ∉ neighbours g e.1) Qa →
  dest ∈ neighbours g c →
  (length Qa < fuel)%nat →
  bfs_loop fuel g dest V (Qa ++ (c, p) :: Qb) = Found (p ++ [dest]).
Proof.
  induction Qa as [|[a pa] Qa IH]; intros fuel V c p Qb Hmiss Hhit Hfuel;
    (destruct fuel as [|fuel]; [simpl in Hfuel; lia|]); simpl.
  - rewrite scan_hits; [done|]. by apply iteration_spec.
  - apply Forall_cons_1 in Hmiss as [Ha Hmiss]. simpl in Ha.
    destruct (scan_misses pa (iteration (neighbours g a)) V (Qa ++ (c, p) :: Qb))
      as (V' & new & ->); [by rewrite iteration_spec|].
    rewrite <-(assoc app). simpl. apply IH; [done..|simpl in Hfuel; lia].
Qed.

End Invariant.

(** ** A returned route is never empty *)



(** ** [find_route] *)

(** The three-valued search never runs out of the fuel [find_route] gives it. *)
Lemma bfs_fuel_enough (self dest : string) (g : gmap string (gset string)) :
  dest ≠ self → bfs (S (size (mentioned g))) self dest g ≠ OutOfFuel.
Proof.
  intros Hne Hout.
  pose proof (bfs_loop_spec g self dest (S (size (mentioned g)))
    {[self]} [(self, [self])] (loop_inv_init g self dest Hne)) as Hspec.
  unfold bfs in Hout. rewrite Hout in Hspec. apply Hspec. simpl.
  assert (size (mentioned g ∖ {[self]}) ≤ size (mentioned g))%nat; [|lia].
  apply subseteq_size. set_solver.
Qed.

Lemma find_route_sound (self : Router) (destination : string)
    (g : gmap string (gset string)) (p : list string) :
  find_route self destination g = Some p →
  valid_route g (node_id self) destination p ∧
  ∀ q, valid_route g (node_id self) destination q → (length p ≤ length q)%nat.
Proof.
  unfold find_route. destruct (decide (node_id self = destination)) as [<-|Hne].
  { intros [= <-]. split; [apply walk_valid; constructor|].
    intros q Hq%valid_walk. by eapply walk_length. }
  destruct (decide (destination ∉ dom g)); [done|].
  pose proof (bfs_loop_spec g (node_id self) destination
    (S (size (mentioned g))) {[node_id self]} [(node_id self, [node_id self])]
    (loop_inv_init g _ _ (not_eq_sym Hne))) as Hspec.
  unfold bfs. destruct (bfs_loop _ _ _ _ _) as [r| |]; intros [= <-].
  destruct Hspec as [Hw Hmin].
  - simpl. assert (size (mentioned g ∖ {[node_id self]}) ≤ size (mentioned g))%nat;
      [|lia]. apply subseteq_size. set_solver.
  - split; [by apply walk_valid|]. intros q Hq%valid_walk. by apply Hmin.
Qed.

Lemma find_route_complete (self : Router) (destination : string)
    (g : gmap string (gset string)) (q : list string) :
  destination ≠ node_id self → destination ∈ dom g →
  valid_route g (node_id self) destination q →
  ∃ p, find_route self destination g = Some p.
Proof.
  intros Hne Hdom Hq%valid_walk. unfold find_route.
  destruct (decide (node_id self = destination)); [congruence|].
  destruct (decide (destination ∉ dom g)); [done|].
  pose proof (bfs_loop_spec g (node_id self) destination
    (S (size (mentioned g))) {[node_id self]} [(node_id self, [node_id self])]
    (loop_inv_init g _ _ Hne)) as Hspec.
  unfold bfs. destruct (bfs_loop _ _ _ _ _) as [r| |]; [by eexists| |].
  - destruct (Hspec) with q; [|done].
    simpl. assert (size (mentioned g ∖ {[node_id self]}) ≤ size (mentioned g))%nat;
      [|lia]. apply subseteq_size. set_solver.
  - destruct Hspec.
    simpl. assert (size (mentioned g ∖ {[node_id self]}) ≤ size (mentioned g))%nat;
      [|lia]. apply subseteq_size. set_solver.
Qed.


(** C1.  For every network view and destination, [find_route]
    - returns [[self]] when the destination is this node;
    - returns none when the destination is not a key of the view, or when the
      view has no path from this node to it;
    - otherwise (the destination is known and a path exists) returns a path of
      the view from this node to the destination, and no path of the view
      between the two is shorter;
    - whatever it returns is such a shortest path;
    - first found wins: the search returns through the earliest queue entry
      that has the destination among its neighbours, whatever candidates are
      queued behind it. *)
Theorem find_route_correct (self : Router) (g : gmap string (gset string))
    (destination : string) :
  (destination = node_id self →
     find_route self destination g = Some [node_id self]) ∧
  (destination ≠ node_id self → destination ∉ dom g →
     find_route self destination g = None) ∧
  (destination ≠ node_id self →
     (∀ q, ¬ valid_route g (node_id self) destination q) →
     find_route self destination g = None) ∧
  (destination ≠ node_id self → destination ∈ dom g →
     (∃ q, valid_route g (node_id self) destination q) →
     ∃ p, find_route self destination g = Some p ∧
       valid_route g (node_id self) destination p ∧
       ∀ q, valid_route g (node_id self) destination q →
         (length p ≤ length q)%nat) ∧
  (∀ p, find_route self destination g = Some p →
     valid_route g (node_id self) destination p ∧
     ∀ q, valid_route g (node_id self) destination q →
       (length p ≤ length q)%nat) ∧
  (∀ fuel visited Qa current path Qb,
     Forall (λ e, destination ∉ neighbours g (e.1)) Qa →
     destination ∈ neighbours g current →
     (length Qa < fuel)%nat →
     bfs_loop fuel g destination visited (Qa ++ (current, path) :: Qb)
       = Found (path ++ [destination])).
Proof.
  split_and!.
  - intros ->. unfold find_route. by rewrite decide_True.
  - intros Hne Hdom. unfold find_route.
    rewrite decide_False by congruence. by rewrite decide_True.
  - intros Hne Hnone.
    destruct (find_route self destination g) as [p|] eqn:Hp; [|done].
    apply find_route_sound in Hp as [Hp _]. by destruct (Hnone p).
  - intros Hne Hdom [q Hq].
    destruct (find_route_complete self destination g q Hne Hdom Hq) as [p Hp].
    exists p. split; [done|]. by apply find_route_sound.
  - apply find_route_sound.
  - intros fuel visited Qa current path Qb. apply first_found.
Qed.

End Search.

(** The line view of the three-hop scenario, searched in the order in which
    [elements] lists a set. *)
Definition line_view : gmap string (gset string) :=
  {[ "A" := {[ "B" ]}; "B" := {[ "A"; "C" ]};
     "C" := {[ "B"; "D" ]}; "D" := {[ "C" ]} ]}.

Lemma elements_enumerates (s : gset string) (x : string) : x ∈ elements s ↔ x ∈ s.
Proof. apply elem_of_elements. Qed.

Example find_route_line :
  find_route elements (Router_init "A") "D" line_view = Some ["A"; "B"; "C"; "D"].
Proof. vm_compute. reflexivity. Qed.

Lemma find_route_correct_witness :
  (("D" : string) = node_id (Router_init "A") →
     find_route elements (Router_init "A") "D" line_view = Some [node_id (Router_init "A")]) ∧
  ("D" ≠ node_id (Router_init "A") → "D" ∉ dom line_view →
     find_route elements (Router_init "A") "D" line_view = None) ∧
  ("D" ≠ node_id (Router_init "A") →
     (∀ q, ¬ valid_route line_view (node_id (Router_init "A")) "D" q) →
     find_route elements (Router_init "A") "D" line_view = None) ∧
  ("D" ≠ node_id (Router_init "A") → "D" ∈ dom line_view →
     (∃ q, valid_route line_view (node_id (Router_init "A")) "D" q) →
     ∃ p, find_route elements (Router_init "A") "D" line_view = Some p ∧
       valid_route line_view (node_id (Router_init "A")) "D" p ∧
       ∀ q, valid_route line_view (node_id (Router_init "A")) "D" q →
         (length p ≤ length q)%nat) ∧
  (∀ p, find_route elements (Router_init "A") "D" line_view = Some p →
     valid_route line_view (node_id (Router_init "A")) "D" p ∧
     ∀ q, valid_route line_view (node_id (Router_init "A")) "D" q →
       (length p ≤ length q)%nat) ∧
  (∀ fuel visited Qa current path Qb,
     Forall (λ e, "D" ∉ neighbours line_view (e.1)) Qa →
     "D" ∈ neighbours line_view current →
     (length Qa < fuel)%nat →
     bfs_loop elements fuel line_view "D" visited (Qa ++ (current, path) :: Qb)
       = Found (path ++ ["D"])).
Proof.
  exact (find_route_correct elements elements_enumerates (Router_init "A") line_view "D").
Defined.

End Routing.

(* ===================================================================== *)
(** * energy.py *)
(* ===================================================================== *)

Module Energy.

Local Open Scope Qc_scope.

(** [EnergyTransaction] (energy.py, lines 13-21). *)
Record EnergyTransaction := mkTransaction {
  transaction_id : string;
  timestamp : Qc;
  from_node : string;
  to_node : string;
  amount : Qc;
  reason : string;
  message_id : option string;
}.

(** [EnergyAccount] (energy.py, lines 35-47). *)
Record EnergyAccount := mkAccount {
  node_id : string;
  balance : Qc;
  total_earned : Qc;
  total_spent : Qc;
  messages_sent : Z;
  messages_relayed : Z;
  messages_received : Z;
  transactions : list EnergyTransaction;
  is_plugged_in : bool;
  relay_multiplier : Qc;
}.

(** The defaults of the dataclass fields. *)
Definition default_balance : Qc := Py.dec 1000 1.
Definition default_relay_multiplier : Qc := Py.dec 1 1.

(** The dataclass constructor called with [node_id], [balance],
    [is_plugged_in] and [relay_multiplier]; the other fields take their
    defaults (zero totals and counters, an empty log). *)
Definition EnergyAccount_new (node : string) (initial : Qc) (plugged : bool)
    (multiplier : Qc) : EnergyAccount :=
  mkAccount node initial 0 0 0 0 0 [] plugged multiplier.

(** [EnergyAccount.can_afford]: [self.balance >= amount]. *)
Definition can_afford (self : EnergyAccount) (amt : Qc) : bool :=
  bool_decide (amt ≤ balance self).

(** [f"tx_{len(self.transactions)}"]. *)
Definition tx_id (n : nat) : string := "tx_" +:+ Py.str_nat n.

(** [EnergyAccount.debit] (energy.py, lines 53-78); [now] is the reading of
    [datetime.now().timestamp()].  Returns the boolean and the account after
    the call. *)
Definition debit (self : EnergyAccount) (amt : Qc) (why : string)
    (msg_id : option string) (now : Qc) : bool * EnergyAccount :=
  if negb (can_afford self amt) then (false, self)
  else
    (true,
     mkAccount (node_id self)
       (balance self - amt)
       (total_earned self)
       (total_spent self + amt)
       (if decide (why = "send") then (messages_sent self + 1)%Z
        else messages_sent self)
       (messages_relayed self)
       (messages_received self)
       (transactions self ++
          [mkTransaction (tx_id (length (transactions self))) now
             (node_id self) "network" amt why msg_id])
       (is_plugged_in self)
       (relay_multiplier self)).

(** The amount [credit] books: multiplied by [relay_multiplier] for a relay
    credit of a plugged-in account (energy.py, lines 85-87). *)
Definition credited_amount (self : EnergyAccount) (amt : Qc) (why : string) : Qc :=
  if decide (why = "relay") then
    if is_plugged_in self then amt * relay_multiplier self else amt
  else amt.

(** [EnergyAccount.credit] (energy.py, lines 80-106). *)
Definition credit (self : EnergyAccount) (amt : Qc) (why : string)
    (sender : string) (msg_id : option string) (now : Qc) : EnergyAccount :=
  let amt := credited_amount self amt why in
  mkAccount (node_id self)
    (balance self + amt)
    (total_earned self + amt)
    (total_spent self)
    (messages_sent self)
    (if decide (why = "relay") then (messages_relayed self + 1)%Z
     else messages_relayed self)
    (if decide (why = "relay") then messages_received self
     else if decide (why = "receive") then (messages_received self + 1)%Z
     else messages_received self)
    (transactions self ++
       [mkTransaction (tx_id (length (transactions self))) now
          sender (node_id self) amt why msg_id])
    (is_plugged_in self)
    (relay_multiplier self).

(** [EnergyMarket.create_account] (energy.py, lines 143-154), the account it
    builds: here the relay multiplier follows the plugged-in flag. *)
Definition EnergyMarket_create_account (node : string) (initial : Qc)
    (plugged : bool) : EnergyAccount :=
  EnergyAccount_new node initial plugged
    (if plugged then Py.dec 15 10 else Py.dec 1 1).

(** [EnergyMarket.calculate_relay_reward] (energy.py, lines 173-184). *)
Definition EnergyMarket_calculate_relay_reward (message_cost : Qc)
    (plugged : bool) : Qc :=
  let reward := message_cost * Py.dec 1 10 in
  let reward := if plugged then reward * Py.dec 15 10 else reward in
  Py.round2 reward.

(** ** Sequences of ledger operations *)

Inductive ledger_op :=
  | Debit (amt : Qc) (why : string) (msg_id : option string) (now : Qc)
  | Credit (amt : Qc) (why : string) (sender : string)
      (msg_id : option string) (now : Qc).

Definition apply_op (a : EnergyAccount) (op : ledger_op) : EnergyAccount :=
  match op with
  | Debit amt why msg_id now => (debit a amt why msg_id now).2
  | Credit amt why sender msg_id now => credit a amt why sender msg_id now
  end.

Definition run (ops : list ledger_op) (a : EnergyAccount) : EnergyAccount :=
  foldl apply_op a ops.










(** A send charged to a plugged-in account, then a relay credit. *)
Definition sample_ops : list ledger_op :=
  [ Debit (Py.dec 10083 100) "send" (Some "msg-1") 0;
    Credit (Py.dec 10 1) "relay" "bob" (Some "msg-2") 1 ].


(** The run above, evaluated: 1000 - 100.83 + 10 * 1.5. *)
Example sample_ops_balance :
  Qeq_bool (balance (run sample_ops
      (EnergyAccount_new "alice" (Py.dec 1000 1) true (Py.dec 15 10))))
    (Py.dec 91417 100) = true ∧
  transaction_id <$> transactions (run sample_ops
      (EnergyAccount_new "alice" (Py.dec 1000 1) true (Py.dec 15 10)))
  = ["tx_0"; "tx_1"].
Proof. split; vm_compute; reflexivity. Qed.

End Energy.

(* ===================================================================== *)
(** * The [json] library, as far as message.py uses it *)
(* ===================================================================== *)

Module Json.

(** The values [json.dumps] prints and [json.loads] yields.  An object keeps
    its keys in insertion order, as a Python [dict] does. *)
#[warnings="-register-all"]
Inductive json :=
  | JNull
  | JBool (b : bool)
  | JInt (n : Z)
  | JFloat (x : Qc)
  | JStr (s : string)
  | JArr (items : list json)
  | JObj (fields : list (string * json)).

Definition quote : ascii := ascii_of_nat 34.

Definition hex_digit (n : nat) : ascii :=
  default "0"%char (String.get n "0123456789abcdef").

(** One character of a string as [json.dumps] prints it with the default
    [ensure_ascii=True]. *)
Definition escape_char (c : ascii) : string :=
  let n := nat_of_ascii c in
  if decide (n = 34)%nat then String "\" (String quote "")
  else if decide (n = 92)%nat then "\\"
  else if decide (n = 10)%nat then "\n"
  else if decide (n = 13)%nat then "\r"
  else if decide (n = 9)%nat then "\t"
  else if decide (n = 8)%nat then "\b"
  else if decide (n = 12)%nat then "\f"
  else if decide (n < 32 ∨ 126 < n)%nat
  then "\u00" +:+ String (hex_digit (n / 16)) (String (hex_digit (n mod 16)) "")
  else String c "".

Fixpoint escape (s : string) : string :=
  match s with
  | EmptyString => ""
  | String c s' => escape_char c +:+ escape s'
  end.

Definition dumps_str (s : string) : string :=
  String quote (escape s +:+ String quote "").

Section Dumps.

(** [repr] of a float is the interpreter's; it stays a parameter. *)
Variable float_repr : Qc → string.

(** [json.dumps] with its default separators. *)
Fixpoint dumps (v : json) : string :=
  match v with
  | JNull => "null"
  | JBool b => if b then "true" else "false"
  | JInt n => pretty n
  | JFloat x => float_repr x
  | JStr s => dumps_str s
  | JArr items => "[" +:+ String.concat ", " (map dumps items) +:+ "]"
  | JObj fields =>
      "{" +:+ String.concat ", "
        (map (λ kv, dumps_str (kv.1) +:+ ": " +:+ dumps (kv.2)) fields) +:+ "}"
  end.

End Dumps.

(** [d[key]] and [d.get(key)] on a parsed object: [None] stands for the
    [KeyError] of the first and the [None] of the second. *)
Fixpoint dict_get (key : string) (fields : list (string * json)) : option json :=
  match fields with
  | [] => None
  | (k, v) :: rest => if String.eqb k key then Some v else dict_get key rest
  end.

Definition get (key : string) (d : json) : option json :=
  match d with
  | JObj fields => dict_get key fields
  | _ => None
  end.

(** Reading a value at the type the dataclass field declares. *)
Definition as_str (v : json) : option string :=
  match v with JStr s => Some s | _ => None end.
Definition as_int (v : json) : option Z :=
  match v with JInt n => Some n | _ => None end.
Definition as_num (v : json) : option Qc :=
  match v with JFloat x => Some x | JInt n => Some (Qc_of_Z n) | _ => None end.
Definition as_bool (v : json) : option bool :=
  match v with JBool b => Some b | _ => None end.
Definition as_arr (v : json) : option (list json) :=
  match v with JArr l => Some l | _ => None end.
Definition as_obj (v : json) : option (list (string * json)) :=
  match v with JObj l => Some l | _ => None end.

Lemma mapM_as_str (l : list string) : mapM as_str (JStr <$> l) = Some l.
Proof. induction l as [|x l IH]; [done|]. rewrite fmap_cons. cbn. by rewrite IH. Qed.

Lemma mapM_as_obj (l : list (list (string * json))) :
  mapM as_obj (JObj <$> l) = Some l.
Proof. induction l as [|x l IH]; [done|]. rewrite fmap_cons. cbn. by rewrite IH. Qed.

End Json.

(* ===================================================================== *)
(** * message.py *)
(* ===================================================================== *)

Module Message.

Import Json.
Local Open Scope Qc_scope.

Inductive MessageType :=
  | TEXT | VOICE | FILE | ACK
  | ROUTE_REQUEST | ROUTE_REPLY | ROUTE_ERROR | HEARTBEAT.

Inductive MessagePriority := LOW | NORMAL | HIGH | URGENT.

#[global] Instance MessageType_eq_dec : EqDecision MessageType.
Proof. solve_decision. Defined.

#[global] Instance MessagePriority_eq_dec : EqDecision MessagePriority.
Proof. solve_decision. Defined.

(** [MessageType.value] and [MessageType(value)]. *)
Definition MessageType_value (t : MessageType) : string :=
  match t with
  | TEXT => "text" | VOICE => "voice" | FILE => "file" | ACK => "ack"
  | ROUTE_REQUEST => "route_request" | ROUTE_REPLY => "route_reply"
  | ROUTE_ERROR => "route_error" | HEARTBEAT => "heartbeat"
  end.

Definition MessageType_of_value (s : string) : option MessageType :=
  list_find (λ t, MessageType_value t = s)
    [TEXT; VOICE; FILE; ACK; ROUTE_REQUEST; ROUTE_REPLY; ROUTE_ERROR; HEARTBEAT]
  ≫= λ it, Some (it.2).

(** [MessagePriority.value] and [MessagePriority(value)]. *)
Definition MessagePriority_value (p : MessagePriority) : Z :=
  match p with LOW => 0 | NORMAL => 1 | HIGH => 2 | URGENT => 3 end.

Definition MessagePriority_of_value (n : Z) : option MessagePriority :=
  list_find (λ p, MessagePriority_value p = n) [LOW; NORMAL; HIGH; URGENT]
  ≫= λ it, Some (it.2).

(** [MessageHeader] (message.py, lines 35-48). *)
Record MessageHeader := mkHeader {
  message_id : string;
  sender_id : string;
  recipient_id : string;
  timestamp : Qc;
  message_type : MessageType;
  priority : MessagePriority;
  ttl : Z;
  sequence_number : Z;
}.

(** [MessagePayload] (message.py, lines 76-85): [metadata] is a dict,
    [attachments] a list of dicts. *)
Record MessagePayload := mkPayload {
  content : string;
  content_type : string;
  metadata : list (string * json);
  attachments : list (list (string * json));
}.

(** [OnionLayer] of message.py (lines 109-117). *)
Record OnionLayer := mkOnionLayer {
  next_hop : string;
  layer_encrypted : bool;
  layer_data : option (list Byte.byte);
}.

(** [Message] (message.py, lines 127-138). *)
Record Message := mkMessage {
  header : MessageHeader;
  payload : MessagePayload;
  onion_layers : list OnionLayer;
  hops_taken : list string;
  energy_cost : Qc;
  is_encrypted : bool;
  signature : option string;
}.

(** [MessageHeader.to_dict] and [from_dict] (lines 50-73). *)
Definition MessageHeader_to_dict (h : MessageHeader) : json :=
  JObj [ ("message_id", JStr (message_id h));
         ("sender_id", JStr (sender_id h));
         ("recipient_id", JStr (recipient_id h));
         ("timestamp", JFloat (timestamp h));
         ("message_type", JStr (MessageType_value (message_type h)));
         ("priority", JInt (MessagePriority_value (priority h)));
         ("ttl", JInt (ttl h));
         ("sequence_number", JInt (sequence_number h)) ].

Definition MessageHeader_from_dict (data : json) : option MessageHeader :=
  mid ← (get "message_id" data ≫= as_str);
  sender ← (get "sender_id" data ≫= as_str);
  recipient ← (get "recipient_id" data ≫= as_str);
  ts ← (get "timestamp" data ≫= as_num);
  ty ← ((get "message_type" data ≫= as_str) ≫= MessageType_of_value);
  pr ← ((get "priority" data ≫= as_int) ≫= MessagePriority_of_value);
  tl ← (get "ttl" data ≫= as_int);
  sq ← (get "sequence_number" data ≫= as_int);
  Some (mkHeader mid sender recipient ts ty pr tl sq).

(** [MessagePayload.to_dict] and [from_dict] (lines 87-102). *)
Definition MessagePayload_to_dict (p : MessagePayload) : json :=
  JObj [ ("content", JStr (content p));
         ("content_type", JStr (content_type p));
         ("metadata", JObj (metadata p));
         ("attachments", JArr (JObj <$> attachments p)) ].

Definition MessagePayload_from_dict (data : json) : option MessagePayload :=
  c ← (get "content" data ≫= as_str);
  ct ← match get "content_type" data with
       | None => Some "text/plain"
       | Some v => as_str v
       end;
  md ← match get "metadata" data with
       | None => Some []
       | Some v => as_obj v
       end;
  at' ← match get "attachments" data with
        | None => Some []
        | Some v => as_arr v ≫= mapM as_obj
        end;
  Some (mkPayload c ct md at').

(** [Message.create_text_message] (lines 140-160); [uuid] is the value of
    [uuid.uuid4()], [now] that of [time.time()]. *)
Definition create_text_message (uuid : string) (now : Qc)
    (sender recipient text : string) (prio : MessagePriority) : Message :=
  mkMessage (mkHeader uuid sender recipient now TEXT prio 10 0)
    (mkPayload text "text/plain" [] [])
    [] [] 0 false None.

(** [Message.create_ack] (lines 162-182). *)
Definition create_ack (uuid : string) (now : Qc)
    (original_message_id sender recipient : string) : Message :=
  mkMessage (mkHeader uuid sender recipient now ACK HIGH 5 0)
    (mkPayload original_message_id "application/json"
       [("ack_for", JStr original_message_id)] [])
    [] [] 0 false None.

(** [Message.add_hop] (lines 184-187). *)
Definition add_hop (node : string) (m : Message) : Message :=
  let h := header m in
  mkMessage
    (mkHeader (message_id h) (sender_id h) (recipient_id h) (timestamp h)
       (message_type h) (priority h) (ttl h - 1) (sequence_number h))
    (payload m) (onion_layers m) (hops_taken m ++ [node])
    (energy_cost m) (is_encrypted m) (signature m).

(** [Message.is_expired] and [Message.should_relay] (lines 189-207). *)
Definition is_expired (m : Message) : bool :=
  bool_decide (ttl (header m) ≤ 0)%Z.

Definition should_relay (m : Message) (current_node_id : string) : bool :=
  if is_expired m then false
  else if decide (recipient_id (header m) = current_node_id) then false
  else if decide (current_node_id ∈ hops_taken m) then false
  else true.

Definition priority_factor (p : MessagePriority) : Qc :=
  match p with
  | LOW => Py.dec 5 10
  | NORMAL => Py.dec 1 1
  | HIGH => Py.dec 15 10
  | URGENT => Py.dec 2 1
  end.

Section Wire.

Variable float_repr : Qc → string.

(** [json.loads]: the parser of the library, [None] when it raises. *)
Variable json_loads : string → option json.

(** [MessagePayload.get_size_bytes] (lines 104-106); the printed text is
    ASCII, so its UTF-8 encoding has one byte per character. *)
Definition get_size_bytes (p : MessagePayload) : nat :=
  String.length (dumps float_repr (MessagePayload_to_dict p)).

(** [Message.calculate_energy_cost] (lines 209-234). *)
Definition calculate_energy_cost (m : Message) : Qc :=
  let base_cost := Py.dec 100 1 in
  let size_kb := Qc_of_Z (Z.of_nat (get_size_bytes (payload m))) / Py.dec 1024 1 in
  let size_factor := 1 + size_kb * Py.dec 1 10 in
  let expected_hops := (10 - ttl (header m))%Z in
  let hop_factor := 1 + Qc_of_Z expected_hops * Py.dec 2 10 in
  let total_cost :=
    base_cost * size_factor * priority_factor (priority (header m)) * hop_factor in
  Py.round2 total_cost.

(** [Message.get_relay_reward] (lines 236-239). *)
Definition get_relay_reward (m : Message) : Qc :=
  Py.round2 (calculate_energy_cost m * Py.dec 1 10).

(** The [message_dict] of [to_wire_format] (lines 246-253). *)
Definition message_dict (m : Message) : json :=
  JObj [ ("header", MessageHeader_to_dict (header m));
         ("payload", MessagePayload_to_dict (payload m));
         ("hops_taken", JArr (JStr <$> hops_taken m));
         ("energy_cost", JFloat (energy_cost m));
         ("is_encrypted", JBool (is_encrypted m));
         ("signature", match signature m with
                       | Some sg => JStr sg
                       | None => JNull
                       end) ].

(** [Message.to_wire_format] (lines 241-255): the printed text, which is
    ASCII and so is its own UTF-8 encoding. *)
Definition to_wire_format (m : Message) : string :=
  dumps float_repr (message_dict m).

(** [Message.from_wire_format] (lines 257-272).  [None] stands for any
    exception: a parse error, a missing key, a value that is not of the type
    the dataclass field declares. *)
Definition from_wire_format (data : string) : option Message :=
  d ← json_loads data;
  h ← (get "header" d ≫= MessageHeader_from_dict);
  p ← (get "payload" d ≫= MessagePayload_from_dict);
  hops ← match get "hops_taken" d with
         | None => Some []
         | Some v => as_arr v ≫= mapM as_str
         end;
  cost ← match get "energy_cost" d with
         | None => Some 0
         | Some v => as_num v
         end;
  enc ← match get "is_encrypted" d with
        | None => Some false
        | Some v => as_bool v
        end;
  sg ← match get "signature" d with
       | None | Some JNull => Some None
       | Some v => Some <$> as_str v
       end;
  Some (mkMessage h p [] hops cost enc sg).

End Wire.

(** The message as [from_wire_format] rebuilds it: the constructor's default
    for the field the wire does not carry. *)
Definition without_onion_layers (m : Message) : Message :=
  mkMessage (header m) (payload m) [] (hops_taken m) (energy_cost m)
    (is_encrypted m) (signature m).

(** Messages seen along a delivery path that starts with [m0]: [m0] itself
    and what [add_hop] makes of it at the sender and at each relay. *)
Inductive observed (m0 : Message) : Message → Prop :=
  | observed_created : observed m0 m0
  | observed_hop m node : observed m0 m → observed m0 (add_hop node m).

(** [header.ttl + len(hops_taken)]. *)
Definition ttl_plus_hops (m : Message) : Z :=
  (ttl (header m) + Z.of_nat (length (hops_taken m)))%Z.

(** ** TTL and hops *)

Lemma add_hop_ttl_plus_hops node m : ttl_plus_hops (add_hop node m) = ttl_plus_hops m.
Proof. unfold ttl_plus_hops. simpl. rewrite length_app. simpl. lia. Qed.

Lemma observed_ttl_plus_hops m0 m :
  observed m0 m → ttl_plus_hops m = ttl_plus_hops m0.
Proof.
  induction 1 as [|m node _ IH]; [done|]. by rewrite add_hop_ttl_plus_hops.
Qed.

(** C7, as stated, fails: an acknowledgement is created with TTL 5 and no
    hop, so its sum is 5, not 10. *)
Lemma ack_ttl_plus_hops_is_not_10 :
  observed (create_ack "ack-1" 0 "msg-1" "B" "A")
           (create_ack "ack-1" 0 "msg-1" "B" "A") ∧
  ttl_plus_hops (create_ack "ack-1" 0 "msg-1" "B" "A") ≠ 10%Z.
Proof. split; [constructor|]. unfold ttl_plus_hops. simpl. lia. Qed.

(** C7, amended.  Along a delivery path [header.ttl + len(hops_taken)] keeps
    the value it had at creation, every [add_hop] leaving it unchanged: 10
    for a message built by [create_text_message], 5 for an acknowledgement
    built by [create_ack]; so it never exceeds 10. *)
Theorem ttl_plus_hops_invariant :
  (∀ node m, ttl_plus_hops (add_hop node m) = ttl_plus_hops m) ∧
  (∀ uuid now sender recipient text prio m,
     observed (create_text_message uuid now sender recipient text prio) m →
     ttl_plus_hops m = 10%Z) ∧
  (∀ uuid now original sender recipient m,
     observed (create_ack uuid now original sender recipient) m →
     ttl_plus_hops m = 5%Z) ∧
  (∀ uuid now sender recipient text prio original m,
     observed (create_text_message uuid now sender recipient text prio) m ∨
     observed (create_ack uuid now original sender recipient) m →
     (ttl_plus_hops m ≤ 10)%Z).
Proof.
  split_and!.
  - apply add_hop_ttl_plus_hops.
  - intros uuid now sender recipient text prio m Hm.
    by rewrite (observed_ttl_plus_hops _ _ Hm).
  - intros uuid now original sender recipient m Hm.
    by rewrite (observed_ttl_plus_hops _ _ Hm).
  - intros uuid now sender recipient text prio original m [Hm|Hm];
      rewrite (observed_ttl_plus_hops _ _ Hm); unfold ttl_plus_hops; simpl; lia.
Qed.

(** A text message relayed twice, and an acknowledgement relayed once. *)
Lemma ttl_plus_hops_invariant_witness :
  ttl_plus_hops
    (add_hop "C" (add_hop "B" (add_hop "A"
       (create_text_message "msg-1" 0 "A" "D" "secret" NORMAL)))) = 10%Z ∧
  ttl_plus_hops (add_hop "D" (create_ack "ack-1" 0 "msg-1" "D" "A")) = 5%Z.
Proof.
  split.
  - apply (proj1 (proj2 ttl_plus_hops_invariant)
      "msg-1" 0 "A" "D" "secret" NORMAL). repeat constructor.
  - apply (proj1 (proj2 (proj2 ttl_plus_hops_invariant))
      "ack-1" 0 "msg-1" "D" "A"). repeat constructor.
Defined.

(** ** The wire format *)

Lemma MessageType_value_inv t : MessageType_of_value (MessageType_value t) = Some t.
Proof. by destruct t. Qed.

Lemma MessagePriority_value_inv p :
  MessagePriority_of_value (MessagePriority_value p) = Some p.
Proof. by destruct p. Qed.

#[local] Arguments MessageType_of_value : simpl never.
#[local] Arguments MessagePriority_of_value : simpl never.

Lemma MessageHeader_dict_inv h :
  MessageHeader_from_dict (MessageHeader_to_dict h) = Some h.
Proof.
  destruct h as [mid s r ts ty pr tl sq]. unfold MessageHeader_from_dict. cbn.
  rewrite MessageType_value_inv, MessagePriority_value_inv. reflexivity.
Qed.

Lemma MessagePayload_dict_inv p :
  MessagePayload_from_dict (MessagePayload_to_dict p) = Some p.
Proof.
  destruct p as [c ct md at']. unfold MessagePayload_from_dict. cbn.
  rewrite mapM_as_obj. reflexivity.
Qed.

#[local] Arguments MessageHeader_from_dict : simpl never.
#[local] Arguments MessageHeader_to_dict : simpl never.
#[local] Arguments MessagePayload_from_dict : simpl never.
#[local] Arguments MessagePayload_to_dict : simpl never.

(** What decoding an encoded message yields, given that [json.loads] parses
    the printed text back into the dict that [json.dumps] printed. *)
Lemma from_wire_to_wire float_repr json_loads m :
  json_loads (dumps float_repr (message_dict m)) = Some (message_dict m) →
  from_wire_format json_loads (to_wire_format float_repr m)
  = Some (without_onion_layers m).
Proof.
  intros Hloads. unfold from_wire_format, to_wire_format. rewrite Hloads.
  destruct m as [h p layers hops cost enc sg]. cbn.
  rewrite MessageHeader_dict_inv, MessagePayload_dict_inv. cbn.
  rewrite mapM_as_str. cbn. by destruct sg.
Qed.

(** The keys of the wire dict, in the order in which they are printed. *)
Definition wire_keys (m : Message) : list string :=
  match message_dict m with
  | JObj fields => fields.*1
  | _ => []
  end.

(** C5 (a defect of the code).  The wire dict has no [onion_layers] entry,
    and decoding gives that field its default: the round trip returns the
    message with its onion layers dropped, which differs from the original
    whenever it had any. *)
Theorem wire_roundtrip_drops_onion_layers float_repr json_loads m :
  json_loads (dumps float_repr (message_dict m)) = Some (message_dict m) →
  wire_keys m = ["header"; "payload"; "hops_taken"; "energy_cost";
                 "is_encrypted"; "signature"] ∧
  from_wire_format json_loads (to_wire_format float_repr m)
  = Some (without_onion_layers m) ∧
  (onion_layers m ≠ [] →
   from_wire_format json_loads (to_wire_format float_repr m) ≠ Some m).
Proof.
  intros Hloads. split_and!; [done|by apply from_wire_to_wire|].
  intros Hlayers. rewrite from_wire_to_wire by done.
  intros [= Heq]. apply Hlayers. by rewrite <-Heq.
Qed.

(** A message that carries one onion layer. *)
Definition onion_message : Message :=
  mkMessage (mkHeader "msg-1" "A" "D" 0 TEXT NORMAL 10 0)
    (mkPayload "secret" "text/plain" [] [])
    [mkOnionLayer "B" false None] [] 0 false None.

Definition sample_float_repr (x : Qc) : string := "0.0".

(** A parser that knows the one text it is asked to parse. *)
Definition sample_loads (data : string) : option json :=
  if decide (data = dumps sample_float_repr (message_dict onion_message))
  then Some (message_dict onion_message) else None.

Lemma wire_roundtrip_drops_onion_layers_witness :
  sample_loads (dumps sample_float_repr (message_dict onion_message))
    = Some (message_dict onion_message) ∧
  wire_keys onion_message = ["header"; "payload"; "hops_taken"; "energy_cost";
                             "is_encrypted"; "signature"] ∧
  from_wire_format sample_loads (to_wire_format sample_float_repr onion_message)
  = Some (without_onion_layers onion_message) ∧
  (onion_layers onion_message ≠ [] →
   from_wire_format sample_loads (to_wire_format sample_float_repr onion_message)
   ≠ Some onion_message).
Proof.
  assert (sample_loads (dumps sample_float_repr (message_dict onion_message))
    = Some (message_dict onion_message)) as Hloads.
  { unfold sample_loads. by rewrite decide_True. }
  split; [exact Hloads|].
  exact (wire_roundtrip_drops_onion_layers sample_float_repr sample_loads
           onion_message Hloads).
Defined.

(** With no onion layer to lose, the round trip is the identity. *)
Lemma wire_roundtrip_without_layers float_repr json_loads m :
  json_loads (dumps float_repr (message_dict m)) = Some (message_dict m) →
  onion_layers m = [] →
  from_wire_format json_loads (to_wire_format float_repr m) = Some m.
Proof.
  intros Hloads Hnone. rewrite from_wire_to_wire by done.
  destruct m; simpl in *. by subst.
Qed.

Lemma wire_roundtrip_without_layers_witness :
  sample_loads (dumps sample_float_repr
                  (message_dict (without_onion_layers onion_message)))
    = Some (message_dict (without_onion_layers onion_message)) ∧
  onion_layers (without_onion_layers onion_message) = [] ∧
  from_wire_format sample_loads
    (to_wire_format sample_float_repr (without_onion_layers onion_message))
  = Some (without_onion_layers onion_message).
Proof.
  assert (sample_loads (dumps sample_float_repr
                          (message_dict (without_onion_layers onion_message)))
    = Some (message_dict (without_onion_layers onion_message))) as Hloads.
  { unfold sample_loads. by rewrite decide_True. }
  split; [exact Hloads|]. split; [reflexivity|].
  exact (wire_roundtrip_without_layers sample_float_repr sample_loads
           (without_onion_layers onion_message) Hloads eq_refl).
Defined.

(** [should_relay] holds exactly when the message has TTL left, is addressed
    to somebody else, and has not passed through this node. *)
Lemma should_relay_iff m node :
  should_relay m node = true ↔
  (0 < ttl (header m))%Z ∧ recipient_id (header m) ≠ node ∧ node ∉ hops_taken m.
Proof.
  unfold should_relay, is_expired.
  destruct (bool_decide (ttl (header m) ≤ 0)%Z) eqn:Httl.
  - apply bool_decide_eq_true in Httl. split; [done|]. lia.
  - apply bool_decide_eq_false in Httl.
    repeat case_decide; split; try done; try (intros (? & ? & ?); done).
    intros _. split_and!; [lia|done|done].
Qed.

End Message.

(* ===================================================================== *)
(** * node.py *)
(* ===================================================================== *)

Module Node.

Import Message.
Local Open Scope Qc_scope.

(** [NodeConfig] (node.py, lines 15-24). *)
Record NodeConfig := mkConfig {
  config_node_id : string;
  enable_relay : bool;
  is_plugged_in : bool;
  max_relay_queue : Z;
  initial_energy : Qc;
  ble_range : Qc;
  wifi_range : Qc;
}.

(** [NodeConfig(node_id=..., is_plugged_in=...)]: the other fields at their
    defaults. *)
Definition NodeConfig_default (node : string) (plugged : bool) : NodeConfig :=
  mkConfig node true plugged 100 (Py.dec 1000 1) (Py.dec 100 1) (Py.dec 200 1).

(** The [stats] dict of a node (node.py, lines 54-60). *)
Record Stats := mkStats {
  messages_sent : Z;
  messages_relayed : Z;
  messages_received : Z;
  messages_dropped : Z;
  relay_queue_full : Z;
}.

(** The state of a [MeshNode] (node.py, lines 33-63). *)
Record MeshNode := mkNode {
  config : NodeConfig;
  node_id : string;
  router : Routing.Router;
  energy_account : Energy.EnergyAccount;
  neighbors : gset string;
  network_graph : gmap string (gset string);
  outgoing_queue : list Message;
  relay_queue : list Message;
  received_messages : list Message;
  stats : Stats;
  seen_message_ids : gset string;
}.

(** [MeshNode.__init__] (node.py, lines 33-63).  The account is built with
    [node_id], [balance] and [is_plugged_in] only: [relay_multiplier] keeps
    the dataclass default. *)
Definition MeshNode_init (cfg : NodeConfig) : MeshNode :=
  mkNode cfg (config_node_id cfg)
    (Routing.Router_init (config_node_id cfg))
    (Energy.EnergyAccount_new (config_node_id cfg) (initial_energy cfg)
       (is_plugged_in cfg) Energy.default_relay_multiplier)
    ∅ ∅ [] [] [] (mkStats 0 0 0 0 0) ∅.

(** [Router.update_neighbors] (routing.py, lines 37-44). *)
Definition Router_update_neighbors (r : Routing.Router) (nbrs : gset string)
    : Routing.Router :=
  Routing.mkRouter (Routing.node_id r)
    ((λ e, if decide (Routing.next_hop e ∈ nbrs) then e
           else Routing.mkRouteEntry (Routing.destination e) (Routing.next_hop e)
                  (Routing.hop_count e) (Routing.sequence_number e) false)
       <$> Routing.routing_table r)
    (Routing.router_sequence_number r) nbrs.

(** [MeshNode.update_neighbors] and [update_network_graph] (lines 65-73). *)
Definition update_neighbors (self : MeshNode) (nbrs : gset string) : MeshNode :=
  mkNode (config self) (node_id self)
    (Router_update_neighbors (router self) nbrs)
    (energy_account self) nbrs (network_graph self) (outgoing_queue self)
    (relay_queue self) (received_messages self) (stats self)
    (seen_message_ids self).

Definition update_network_graph (self : MeshNode)
    (graph : gmap string (gset string)) : MeshNode :=
  mkNode (config self) (node_id self) (router self) (energy_account self)
    (neighbors self) graph (outgoing_queue self) (relay_queue self)
    (received_messages self) (stats self) (seen_message_ids self).

(** [msg.energy_cost = energy_cost]. *)
Definition set_energy_cost (m : Message) (cost : Qc) : Message :=
  mkMessage (header m) (payload m) (onion_layers m) (hops_taken m) cost
    (is_encrypted m) (signature m).

(** [self.stats["messages_dropped"] += 1]. *)
Definition count_dropped (self : MeshNode) : MeshNode :=
  mkNode (config self) (node_id self) (router self) (energy_account self)
    (neighbors self) (network_graph self) (outgoing_queue self)
    (relay_queue self) (received_messages self)
    (mkStats (messages_sent (stats self)) (messages_relayed (stats self))
       (messages_received (stats self)) (messages_dropped (stats self) + 1)
       (relay_queue_full (stats self)))
    (seen_message_ids self).

(** [self.stats["relay_queue_full"] += 1]. *)
Definition count_queue_full (self : MeshNode) : MeshNode :=
  mkNode (config self) (node_id self) (router self) (energy_account self)
    (neighbors self) (network_graph self) (outgoing_queue self)
    (relay_queue self) (received_messages self)
    (mkStats (messages_sent (stats self)) (messages_relayed (stats self))
       (messages_received (stats self)) (messages_dropped (stats self))
       (relay_queue_full (stats self) + 1))
    (seen_message_ids self).

(** [self.seen_message_ids.add(...)]. *)
Definition mark_seen (self : MeshNode) (id : string) : MeshNode :=
  mkNode (config self) (node_id self) (router self) (energy_account self)
    (neighbors self) (network_graph self) (outgoing_queue self)
    (relay_queue self) (received_messages self) (stats self)
    ({[id]} ∪ seen_message_ids self).

(** What [send_message] ends in.  The source returns the message, or [None]
    after printing which of the two refusals it was. *)
Inductive refusal := InsufficientEnergy | NoRouteFound.

Inductive send_outcome :=
  | Sent (msg : Message)
  | Refused (why : refusal).

(** The value the Python method returns. *)
Definition returned (o : send_outcome) : option Message :=
  match o with Sent msg => Some msg | Refused _ => None end.

Section Methods.

Variable iteration : gset string → list string.
Variable float_repr : Qc → string.

(** [MeshNode.send_message] (node.py, lines 75-112).  [uuid] is the value of
    [uuid4()], [t_create] the clock read by [create_text_message], [t_debit]
    the one read by [debit]. *)
Definition send_message (uuid : string) (t_create t_debit : Qc)
    (self : MeshNode) (recipient content : string) (prio : MessagePriority)
    : send_outcome * MeshNode :=
  let msg := create_text_message uuid t_create (node_id self) recipient content prio in
  let cost := calculate_energy_cost float_repr msg in
  if negb (Energy.can_afford (energy_account self) cost)
  then (Refused InsufficientEnergy, self)
  else
    match Routing.find_route iteration (router self) recipient (network_graph self) with
    | None | Some [] => (Refused NoRouteFound, self)
    | Some (_ :: _) =>
        let account :=
          (Energy.debit (energy_account self) cost "send"
             (Some (message_id (header msg))) t_debit).2 in
        let msg := add_hop (node_id self) (set_energy_cost msg cost) in
        (Sent msg,
         mkNode (config self) (node_id self) (router self) account
           (neighbors self) (network_graph self)
           (outgoing_queue self ++ [msg])
           (relay_queue self) (received_messages self)
           (mkStats (messages_sent (stats self) + 1)
              (messages_relayed (stats self)) (messages_received (stats self))
              (messages_dropped (stats self)) (relay_queue_full (stats self)))
           (seen_message_ids self))
    end.

(** [MeshNode.receive_message] (node.py, lines 114-167): the boolean it
    returns, the node after the call, and the message object after the call
    (the relay branch mutates it through [add_hop]).  [uuid] and [now] are
    the values [create_ack] or [credit] read. *)
Definition receive_message (uuid : string) (now : Qc) (self : MeshNode)
    (msg : Message) : bool * MeshNode * Message :=
  if decide (message_id (header msg) ∈ seen_message_ids self)
  then (false, count_dropped self, msg)
  else
    let self := mark_seen self (message_id (header msg)) in
    if decide (recipient_id (header msg) = node_id self) then
      let ack := create_ack uuid now (message_id (header msg)) (node_id self)
                   (sender_id (header msg)) in
      (true,
       mkNode (config self) (node_id self) (router self) (energy_account self)
         (neighbors self) (network_graph self)
         (outgoing_queue self ++ [ack])
         (relay_queue self)
         (received_messages self ++ [msg])
         (mkStats (messages_sent (stats self)) (messages_relayed (stats self))
            (messages_received (stats self) + 1)
            (messages_dropped (stats self)) (relay_queue_full (stats self)))
         (seen_message_ids self),
       msg)
    else if negb (enable_relay (config self))
    then (false, count_dropped self, msg)
    else if negb (should_relay msg (node_id self))
    then (false, count_dropped self, msg)
    else if bool_decide (max_relay_queue (config self)
                         ≤ Z.of_nat (length (relay_queue self)))%Z
    then (false, count_dropped (count_queue_full self), msg)
    else
      let msg := add_hop (node_id self) msg in
      let relay_reward := get_relay_reward float_repr msg in
      let account :=
        Energy.credit (energy_account self) relay_reward "relay"
          (sender_id (header msg)) (Some (message_id (header msg))) now in
      (true,
       mkNode (config self) (node_id self) (router self) account
         (neighbors self) (network_graph self) (outgoing_queue self)
         (relay_queue self ++ [msg])
         (received_messages self)
         (mkStats (messages_sent (stats self)) (messages_relayed (stats self) + 1)
            (messages_received (stats self))
            (messages_dropped (stats self)) (relay_queue_full (stats self)))
         (seen_message_ids self),
       msg).

(** Arrivals one after the other: each with the values its call reads. *)
Definition receive_all (arrivals : list (string * Qc * Message))
    (self : MeshNode) : MeshNode :=
  foldl (λ node a, (receive_message (a.1.1) (a.1.2) node (a.2)).1.2) self arrivals.

(** The cost [send_message] computes: that of the message as
    [create_text_message] has just built it. *)
Definition send_cost (uuid : string) (t_create : Qc) (self : MeshNode)
    (recipient content : string) (prio : MessagePriority) : Qc :=
  calculate_energy_cost float_repr
    (create_text_message uuid t_create (node_id self) recipient content prio).




(** ** Sending *)



(** The route is looked up before anything is charged: a sender that can
    pay but has no route is refused and nothing of the node changes. *)
Lemma send_without_route uuid t_create t_debit self recipient content prio :
  Energy.can_afford (energy_account self)
    (send_cost uuid t_create self recipient content prio) = true →
  Routing.find_route iteration (router self) recipient (network_graph self) = None →
  send_message uuid t_create t_debit self recipient content prio
  = (Refused NoRouteFound, self).
Proof.
  intros Hafford Hroute. unfold send_message.
  fold (send_cost uuid t_create self recipient content prio).
  by rewrite Hafford, Hroute.
Qed.

(** ** Receiving *)

Lemma receive_seen uuid now self msg :
  message_id (header msg) ∈ seen_message_ids self →
  receive_message uuid now self msg = (false, count_dropped self, msg).
Proof. intros Hseen. unfold receive_message. by rewrite decide_True. Qed.

Lemma receive_marks_seen uuid now self msg :
  message_id (header msg) ∈ seen_message_ids (receive_message uuid now self msg).1.2.
Proof.
  unfold receive_message.
  repeat (case_decide || case_match); simpl; set_solver.
Qed.

Lemma receive_keeps_seen uuid now self msg id :
  id ∈ seen_message_ids self →
  id ∈ seen_message_ids (receive_message uuid now self msg).1.2.
Proof.
  intros Hid. unfold receive_message.
  repeat (case_decide || case_match); simpl; set_solver.
Qed.

Lemma receive_all_keeps_seen arrivals : ∀ self id,
  id ∈ seen_message_ids self →
  id ∈ seen_message_ids (receive_all arrivals self).
Proof.
  induction arrivals as [|a arrivals IH]; intros self id Hid; simpl; [done|].
  apply IH. by apply receive_keeps_seen.
Qed.

(** C10.  Whatever [receive_message] decides about a message (accept, relay,
    or any of the drops), the message id is in the seen-set when it returns.
    Hence a later arrival with the same id, after any other arrivals, is
    dropped: the call returns [False] and changes neither the outgoing queue,
    the relay queue, the received messages, the energy account nor the
    seen-set, and not the message; only the drop counter moves. *)
Theorem seen_before_any_decision uuid now self msg :
  message_id (header msg) ∈ seen_message_ids (receive_message uuid now self msg).1.2 ∧
  ∀ arrivals uuid' now' msg',
    message_id (header msg') = message_id (header msg) →
    receive_message uuid' now'
      (receive_all arrivals (receive_message uuid now self msg).1.2) msg'
    = (false,
       count_dropped (receive_all arrivals (receive_message uuid now self msg).1.2),
       msg') ∧
    outgoing_queue (count_dropped
        (receive_all arrivals (receive_message uuid now self msg).1.2))
    = outgoing_queue (receive_all arrivals (receive_message uuid now self msg).1.2) ∧
    relay_queue (count_dropped
        (receive_all arrivals (receive_message uuid now self msg).1.2))
    = relay_queue (receive_all arrivals (receive_message uuid now self msg).1.2) ∧
    received_messages (count_dropped
        (receive_all arrivals (receive_message uuid now self msg).1.2))
    = received_messages (receive_all arrivals (receive_message uuid now self msg).1.2) ∧
    energy_account (count_dropped
        (receive_all arrivals (receive_message uuid now self msg).1.2))
    = energy_account (receive_all arrivals (receive_message uuid now self msg).1.2) ∧
    seen_message_ids (count_dropped
        (receive_all arrivals (receive_message uuid now self msg).1.2))
    = seen_message_ids (receive_all arrivals (receive_message uuid now self msg).1.2).
Proof.
  split; [apply receive_marks_seen|].
  intros arrivals uuid' now' msg' Hid. split_and!; try done.
  apply receive_seen. rewrite Hid.
  apply receive_all_keeps_seen, receive_marks_seen.
Qed.

(** A message addressed to this node and not seen before is answered with an
    acknowledgement, whatever its type. *)
Lemma receive_for_self_acks uuid now self msg :
  message_id (header msg) ∉ seen_message_ids self →
  recipient_id (header msg) = node_id self →
  outgoing_queue (receive_message uuid now self msg).1.2
  = outgoing_queue self
    ++ [create_ack uuid now (message_id (header msg)) (node_id self)
          (sender_id (header msg))].
Proof.
  intros Hnew Hme. unfold receive_message.
  rewrite decide_False by done. simpl. by rewrite decide_True.
Qed.

(** A duplicate arrival produces no acknowledgement. *)
Lemma receive_duplicate_no_ack uuid now self msg :
  message_id (header msg) ∈ seen_message_ids self →
  (receive_message uuid now self msg).1.1 = false ∧
  outgoing_queue (receive_message uuid now self msg).1.2 = outgoing_queue self.
Proof. intros Hseen. by rewrite receive_seen. Qed.

(** A node's account is created without a relay multiplier, so it keeps the
    default 1.0 and the plugged-in flag changes nothing: for every message, a
    plugged-in node ends with the same balance as the same node not plugged
    in. *)
Lemma plugged_in_flag_changes_no_credit uuid now node relay capacity initial
    ble wifi msg :
  Energy.balance (energy_account
    (receive_message uuid now
       (MeshNode_init (mkConfig node relay true capacity initial ble wifi)) msg).1.2)
  = Energy.balance (energy_account
    (receive_message uuid now
       (MeshNode_init (mkConfig node relay false capacity initial ble wifi)) msg).1.2).
Proof.
  unfold receive_message, MeshNode_init. simpl.
  repeat (case_decide || case_match); simpl; try done.
  unfold Energy.credit, Energy.credited_amount. simpl.
  by rewrite Qcmult_1_r.
Qed.

End Methods.

(** ** The scenarios of the specification, run on the code *)

(** [repr] of a float, for payloads that hold none. *)
Definition no_float_repr (x : Qc) : string := "".

(** Scenario 1: the view [{A: {B}, B: {A}}]; A starts with 1000. *)
Definition direct_view : gmap string (gset string) :=
  {[ "A" := {[ "B" ]}; "B" := {[ "A" ]} ]}.

Definition alice : MeshNode :=
  update_network_graph
    (update_neighbors (MeshNode_init (NodeConfig_default "A" false)) {[ "B" ]})
    direct_view.

(** Equality and difference of two rationals, decided by evaluation. *)
Lemma Qc_eq_by_eval (x y : Qc) : Qeq_bool x y = true → x = y.
Proof. intros H. apply Qc_is_canon. by apply Qeq_bool_iff. Qed.









(** Scenario 2: the line [A - B - C - D]; A's ["secret"] for D as it leaves
    A, and a relay B, plugged in or not. *)
Definition alice_on_line : MeshNode :=
  update_network_graph
    (update_neighbors (MeshNode_init (NodeConfig_default "A" false)) {[ "B" ]})
    Routing.line_view.

Definition secret_message : Message :=
  add_hop "A"
    (set_energy_cost (create_text_message "msg-1" 0 "A" "D" "secret" NORMAL)
       (send_cost no_float_repr "msg-1" 0 alice_on_line "D" "secret" NORMAL)).

Definition bob (plugged : bool) : MeshNode :=
  update_network_graph
    (update_neighbors (MeshNode_init (NodeConfig_default "B" plugged))
       {[ "A"; "C" ]})
    Routing.line_view.

Example secret_message_sent :
  (send_message elements no_float_repr "msg-1" 0 0 alice_on_line "D" "secret"
     NORMAL).1 = Sent secret_message ∧
  energy_cost secret_message = Py.dec 10084 100.
Proof.
  split; [vm_compute; reflexivity|].
  apply Qc_eq_by_eval. vm_compute. reflexivity.
Qed.

(** C4 (a defect of the code).  A node's account is created without a relay
    multiplier, so for every message a plugged-in node is credited exactly
    what the same node not plugged in is credited.  On the line, B relays A's
    message, whose send cost was 100.84: plugged in or not, B is credited
    14.12, which is not 1.5 times the other credit, and not a tenth of the
    send cost either, the reward being recomputed from the cost formula at
    the TTL the message has at the relay.  The market's own
    [calculate_relay_reward] gives 15.13 and 10.08 for this message. *)
Theorem relay_credit_ignores_plugged_in :
  (∀ float_repr uuid now node relay capacity initial ble wifi msg,
     Energy.balance (energy_account
       (receive_message float_repr uuid now
          (MeshNode_init (mkConfig node relay true capacity initial ble wifi))
          msg).1.2)
     = Energy.balance (energy_account
       (receive_message float_repr uuid now
          (MeshNode_init (mkConfig node relay false capacity initial ble wifi))
          msg).1.2)) ∧
  energy_cost secret_message = Py.dec 10084 100 ∧
  (receive_message no_float_repr "u" 1 (bob true) secret_message).1.1 = true ∧
  Energy.balance (energy_account (bob true)) = Py.dec 1000 1 ∧
  Energy.balance (energy_account
    (receive_message no_float_repr "u" 1 (bob true) secret_message).1.2)
  = Py.dec 101412 100 ∧
  Energy.balance (energy_account
    (receive_message no_float_repr "u" 1 (bob false) secret_message).1.2)
  = Py.dec 101412 100 ∧
  Energy.EnergyMarket_calculate_relay_reward (energy_cost secret_message) true
  = Py.dec 1513 100 ∧
  Energy.EnergyMarket_calculate_relay_reward (energy_cost secret_message) false
  = Py.dec 1008 100.
Proof.
  split; [intros; apply plugged_in_flag_changes_no_credit|].
  split_and!;
    [apply Qc_eq_by_eval; vm_compute; reflexivity
    |vm_compute; reflexivity
    |apply Qc_eq_by_eval; vm_compute; reflexivity..].
Qed.

(** The failing input of C8: B's acknowledgement of A's message arrives at
    A, which answers it with an acknowledgement of its own, addressed to B. *)
Definition bob_ack : Message := create_ack "ack-1" 1 "msg-1" "B" "A".

(** C8 (a defect of the code).  [receive_message] does not look at the type
    of a message: every unseen message addressed to this node, one of type
    [ack] included, is answered with a fresh acknowledgement on the outgoing
    queue.  So A answers B's acknowledgement with an acknowledgement. *)
Theorem ack_is_answered_by_ack :
  (∀ float_repr uuid now self msg,
     message_id (header msg) ∉ seen_message_ids self →
     recipient_id (header msg) = node_id self →
     message_type (header msg) = ACK →
     outgoing_queue (receive_message float_repr uuid now self msg).1.2
     = outgoing_queue self
       ++ [create_ack uuid now (message_id (header msg)) (node_id self)
             (sender_id (header msg))]) ∧
  message_type (header bob_ack) = ACK ∧
  recipient_id (header bob_ack) = node_id alice ∧
  (receive_message no_float_repr "ack-2" 2 alice bob_ack).1.1 = true ∧
  outgoing_queue (receive_message no_float_repr "ack-2" 2 alice bob_ack).1.2
  = [create_ack "ack-2" 2 "ack-1" "A" "B"] ∧
  message_type (header (create_ack "ack-2" 2 "ack-1" "A" "B")) = ACK.
Proof.
  split.
  { intros float_repr uuid now self msg Hnew Hme _.
    by apply receive_for_self_acks. }
  split_and!; [reflexivity..| |reflexivity].
  rewrite receive_for_self_acks; [reflexivity| |reflexivity].
  vm_compute. discriminate.
Qed.

(** The same acknowledgement arriving at A a second time. *)
Lemma receive_duplicate_no_ack_witness :
  message_id (header bob_ack) ∈ seen_message_ids
    (receive_message no_float_repr "ack-2" 2 alice bob_ack).1.2 ∧
  (receive_message no_float_repr "ack-3" (Py.dec 3 1)
     (receive_message no_float_repr "ack-2" 2 alice bob_ack).1.2 bob_ack).1.1
  = false ∧
  outgoing_queue
    (receive_message no_float_repr "ack-3" (Py.dec 3 1)
       (receive_message no_float_repr "ack-2" 2 alice bob_ack).1.2 bob_ack).1.2
  = outgoing_queue (receive_message no_float_repr "ack-2" 2 alice bob_ack).1.2.
Proof.
  assert (message_id (header bob_ack) ∈ seen_message_ids
            (receive_message no_float_repr "ack-2" 2 alice bob_ack).1.2) as Hseen.
  { apply receive_marks_seen. }
  split; [exact Hseen|].
  exact (receive_duplicate_no_ack no_float_repr "ack-3" (Py.dec 3 1)
           (receive_message no_float_repr "ack-2" 2 alice bob_ack).1.2 bob_ack Hseen).
Defined.

(** A send to an identity that the view does not know. *)
Lemma send_without_route_witness :
  Energy.can_afford (energy_account alice)
    (send_cost no_float_repr "msg-1" 0 alice "Z" "hello" NORMAL) = true ∧
  Routing.find_route elements (router alice) "Z" (network_graph alice) = None ∧
  send_message elements no_float_repr "msg-1" 0 0 alice "Z" "hello" NORMAL
  = (Refused NoRouteFound, alice).
Proof.
  assert (Energy.can_afford (energy_account alice)
            (send_cost no_float_repr "msg-1" 0 alice "Z" "hello" NORMAL) = true)
    as Hafford by (vm_compute; reflexivity).
  assert (Routing.find_route elements (router alice) "Z" (network_graph alice) = None)
    as Hroute by (vm_compute; reflexivity).
  split; [exact Hafford|]. split; [exact Hroute|].
  exact (send_without_route elements no_float_repr "msg-1" 0 0 alice "Z" "hello"
           NORMAL Hafford Hroute).
Defined.

(** A message that B drops because relaying is switched off, seen again. *)
Definition bob_no_relay : MeshNode :=
  MeshNode_init (mkConfig "B" false false 100 (Py.dec 1000 1) (Py.dec 100 1)
                   (Py.dec 200 1)).

Lemma seen_before_any_decision_witness :
  (receive_message no_float_repr "u" 1 bob_no_relay secret_message).1.1 = false ∧
  "msg-1" ∈ seen_message_ids
    (receive_message no_float_repr "u" 1 bob_no_relay secret_message).1.2 ∧
  receive_message no_float_repr "u" 2
    (receive_all no_float_repr []
       (receive_message no_float_repr "u" 1 bob_no_relay secret_message).1.2)
    secret_message
  = (false,
     count_dropped
       (receive_all no_float_repr []
          (receive_message no_float_repr "u" 1 bob_no_relay secret_message).1.2),
     secret_message).
Proof.
  split; [vm_compute; reflexivity|]. split.
  - exact (proj1 (seen_before_any_decision no_float_repr "u" 1 bob_no_relay
                    secret_message)).
  - exact (proj1 (proj2 (seen_before_any_decision no_float_repr "u" 1 bob_no_relay
                           secret_message) [] "u" 2 secret_message eq_refl)).
Defined.

End Node.

(* ===================================================================== *)
(** * crypto/onion.py *)
(* ===================================================================== *)

Module Onion.

Import Json.

(** [OnionLayer] and [OnionPacket] of onion.py (lines 17-50). *)
Record OnionLayer := mkLayer {
  encrypted_data : list Byte.byte;
  iv : list Byte.byte;
  mac : list Byte.byte;
}.

Record OnionPacket := mkPacket {
  layers : list OnionLayer;
  final_payload : list Byte.byte;
}.

(** [KeyPair] and the key fields of [KeyManager] (keys.py, lines 18-61). *)
Record KeyPair := mkKeyPair {
  private_key_bytes : list Byte.byte;
  public_key_bytes : list Byte.byte;
  key_type : string;
}.

Record KeyManager := mkKeyManager {
  node_id : string;
  identity_key : option KeyPair;
  signing_key : option KeyPair;
  ephemeral_key : option KeyPair;
  prekeys : gmap Z KeyPair;
  peer_keys : gmap string (list Byte.byte);
}.

#[global] Instance byte_eq_dec : EqDecision Byte.byte := Byte.byte_eq_dec.

(** [s.encode('utf-8')] and [b.decode('utf-8')] for ASCII text, which is
    what [json.dumps] prints and what identities are taken to be. *)
Definition encode (s : string) : list Byte.byte := String.list_byte_of_string s.
Definition decode (b : list Byte.byte) : string := String.string_of_list_byte b.

(** [bytes([n])] for [n] below 256. *)
Definition byte_of (n : nat) : Byte.byte := default Byte.x00 (Byte.of_nat n).

(** The manual PKCS#7 padding of [_encrypt_layer] (lines 110-112). *)
Definition pad (plaintext : list Byte.byte) : list Byte.byte :=
  let padding_length := (16 - length plaintext mod 16)%nat in
  plaintext ++ replicate padding_length (byte_of padding_length).

(** Its removal in [_decrypt_layer] (lines 142-144): [padded[-1]] raises on
    an empty plaintext; [padded[:-n]] is empty when [n] is 0 or exceeds the
    length. *)
Definition unpad (padded : list Byte.byte) : option (list Byte.byte) :=
  match list.last padded with
  | None => None
  | Some b =>
      let padding_length := Byte.to_nat b in
      Some (if decide (padding_length = 0)%nat then []
            else take (length padded - padding_length) padded)
  end.

(** [route[1:-1]] and [route[-1]]. *)
Definition relay_nodes (route : list string) : list string :=
  take (length route - 2) (drop 1 route).

(** The next hop of the relay at index [i] (lines 171-175): the relay after
    it, or [route[-1]] for the last relay. *)
Definition next_hop_at (route : list string) (i : nat) : option string :=
  if decide (i < length (relay_nodes route) - 1)%nat
  then relay_nodes route !! (i + 1)%nat
  else list.last route.

(** The [routing_info] dict (lines 177-180). *)
Definition routing_info (next_hop : string) (hop_number : nat) : json :=
  JObj [("next_hop", JStr next_hop); ("hop_number", JInt (Z.of_nat hop_number))].

Section Crypto.

(** The primitives of the [cryptography] library and of the interpreter. *)
Variable x25519 : list Byte.byte → list Byte.byte → list Byte.byte.
Variable x25519_public : list Byte.byte → list Byte.byte.
Variable hkdf_sha256 :
  list Byte.byte → list Byte.byte → list Byte.byte → list Byte.byte.
Variable aes_cbc_encrypt :
  list Byte.byte → list Byte.byte → list Byte.byte → list Byte.byte.
Variable aes_cbc_decrypt :
  list Byte.byte → list Byte.byte → list Byte.byte → list Byte.byte.
Variable hmac_sha256 : list Byte.byte → list Byte.byte → list Byte.byte.
Variable urandom : nat → list Byte.byte.
Variable float_repr : Qc → string.
Variable json_loads : string → option json.

(** [KeyManager.perform_dh] (keys.py, lines 157-166). *)
Definition perform_dh (our_private their_public : list Byte.byte) : list Byte.byte :=
  x25519 our_private their_public.

(** [OnionRouter._derive_layer_keys] (lines 84-97): [hkdf_sha256 salt info
    secret] is the 64-byte output. *)
Definition _derive_layer_keys (shared_secret : list Byte.byte) (hop_id : string)
    : list Byte.byte * list Byte.byte :=
  let key_material :=
    hkdf_sha256 (encode hop_id) (encode "meshphone_onion_layer") shared_secret in
  (take 32 key_material, drop 32 key_material).

(** [OnionRouter._encrypt_layer] (lines 99-125); [fresh_iv] is the value of
    [os.urandom(16)]. *)
Definition _encrypt_layer (plaintext cipher_key mac_key fresh_iv : list Byte.byte)
    : OnionLayer :=
  let ciphertext := aes_cbc_encrypt cipher_key fresh_iv (pad plaintext) in
  mkLayer ciphertext fresh_iv (hmac_sha256 mac_key (fresh_iv ++ ciphertext)).

(** [OnionRouter._decrypt_layer] (lines 127-146); [None] when it raises. *)
Definition _decrypt_layer (layer : OnionLayer) (cipher_key mac_key : list Byte.byte)
    : option (list Byte.byte) :=
  if decide (hmac_sha256 mac_key (iv layer ++ encrypted_data layer) = mac layer)
  then unpad (aes_cbc_decrypt cipher_key (iv layer) (encrypted_data layer))
  else None.

(** The body of the loop of [create_onion] (lines 169-196) for the relay at
    index [i]; the [i]-th layer takes the [i]-th value of [os.urandom]. *)
Definition layer_for (km : KeyManager) (route : list string)
    (route_keys : gmap string (list Byte.byte)) (i : nat) (relay_id : string)
    : option OnionLayer :=
  next_hop ← next_hop_at route i;
  relay_public_key ← route_keys !! relay_id;
  sender_key ← ephemeral_key km;
  let shared_secret := perform_dh (private_key_bytes sender_key) relay_public_key in
  let keys := _derive_layer_keys shared_secret relay_id in
  Some (_encrypt_layer
          (encode (dumps float_repr (routing_info next_hop (i + 1))))
          (keys.1) (keys.2) (urandom i)).

Fixpoint layers_from (km : KeyManager) (route : list string)
    (route_keys : gmap string (list Byte.byte)) (i : nat) (todo : list string)
    : option (list OnionLayer) :=
  match todo with
  | [] => Some []
  | relay_id :: todo' =>
      layer ← layer_for km route route_keys i relay_id;
      rest ← layers_from km route route_keys (S i) todo';
      Some (layer :: rest)
  end.

(** [OnionRouter.create_onion] (lines 148-199); [None] when it raises (a
    relay without a key in [route_keys], no ephemeral key). *)
Definition create_onion (km : KeyManager) (route : list string)
    (route_keys : gmap string (list Byte.byte)) (payload : list Byte.byte)
    : option OnionPacket :=
  ls ← layers_from km route route_keys 0 (relay_nodes route);
  Some (mkPacket ls payload).

(** [OnionRouter.peel_layer] (lines 201-248); [None] when it raises. *)
Definition peel_layer (km : KeyManager) (packet : OnionPacket)
    (my_node_id : string) (sender_public_key : list Byte.byte)
    : option (option string * OnionPacket) :=
  match layers packet with
  | [] => Some (None, packet)
  | our_layer :: remaining_layers =>
      my_key ← identity_key km;
      let shared_secret := perform_dh (private_key_bytes my_key) sender_public_key in
      let keys := _derive_layer_keys shared_secret my_node_id in
      routing_json ← _decrypt_layer our_layer (keys.1) (keys.2);
      info ← json_loads (decode routing_json);
      next_hop ← (get "next_hop" info ≫= as_str);
      Some (Some next_hop, mkPacket remaining_layers (final_payload packet))
  end.

(** [OnionRouter.extract_payload] (lines 250-257). *)
Definition extract_payload (packet : OnionPacket) : option (list Byte.byte) :=
  match layers packet with
  | [] => Some (final_payload packet)
  | _ :: _ => None
  end.

(** Peeling one layer at each relay in turn: each relay with its own key
    manager, all with the sender's public key.  The result lists, per relay,
    the next hop it learns and the packet it forwards. *)
Fixpoint peel_along (managers : string → KeyManager)
    (sender_public_key : list Byte.byte) (relays : list string)
    (packet : OnionPacket) : option (list (string * OnionPacket)) :=
  match relays with
  | [] => Some []
  | relay :: relays' =>
      step ← peel_layer (managers relay) packet relay sender_public_key;
      next_hop ← step.1;
      rest ← peel_along managers sender_public_key relays' (step.2);
      Some ((next_hop, step.2) :: rest)
  end.

(** The packet the recipient holds: the one the last relay forwarded, or the
    sender's when the route has no relay. *)
Definition delivered (packet : OnionPacket) (trace : list (string * OnionPacket))
    : OnionPacket :=
  default packet (list.last (trace.*2)).

(** ** Padding *)

Lemma padding_length_range (n : nat) :
  (1 ≤ 16 - n mod 16 ≤ 16)%nat.
Proof. pose proof (Nat.mod_upper_bound n 16). lia. Qed.

Lemma byte_of_to_nat (n : nat) : (n ≤ 255)%nat → Byte.to_nat (byte_of n) = n.
Proof.
  intros Hn. unfold byte_of.
  destruct (Byte.of_nat n) as [b|] eqn:Hb; simpl.
  - by apply Byte.to_of_nat.
  - apply Byte.of_nat_None_iff in Hb. lia.
Qed.

Lemma pad_aligned (x : list Byte.byte) : (length (pad x) mod 16 = 0)%nat.
Proof.
  unfold pad. rewrite length_app, length_replicate.
  pose proof (Nat.mod_upper_bound (length x) 16 ltac:(lia)) as Hlt.
  rewrite (Nat.div_mod_eq (length x) 16) at 1.
  replace (16 * (length x / 16) + length x mod 16 + (16 - length x mod 16))%nat
    with (16 + length x / 16 * 16)%nat by lia.
  by rewrite Nat.Div0.mod_add.
Qed.

Lemma last_replicate_snoc (x : list Byte.byte) (k : nat) (b : Byte.byte) :
  list.last (x ++ replicate (S k) b) = Some b.
Proof.
  change (replicate (S k) b) with (b :: replicate k b).
  rewrite replicate_cons_app, (assoc app). apply last_snoc.
Qed.

Lemma unpad_pad (x : list Byte.byte) : unpad (pad x) = Some x.
Proof.
  unfold unpad, pad.
  pose proof (padding_length_range (length x)) as Hrange.
  destruct (16 - length x mod 16)%nat as [|k]; [lia|].
  rewrite last_replicate_snoc.
  rewrite byte_of_to_nat by lia.
  rewrite decide_False by lia. f_equal.
  rewrite take_app_length'; [done|].
  rewrite length_app, length_replicate. lia.
Qed.

(** Removing the padding of a padded plaintext gives the plaintext back, and
    a padded plaintext fills whole AES blocks. *)
Lemma padding_roundtrip (x : list Byte.byte) :
  unpad (pad x) = Some x ∧ (length (pad x) mod 16 = 0)%nat ∧
  (length x < length (pad x) ≤ length x + 16)%nat.
Proof.
  split_and!; [apply unpad_pad|apply pad_aligned|..];
    unfold pad; rewrite length_app, length_replicate;
    pose proof (padding_length_range (length x)); lia.
Qed.

(** ** Wrap, then peel *)

(** X25519 agreement: both sides compute the same secret. *)
Hypothesis x25519_agrees : ∀ a b,
  x25519 a (x25519_public b) = x25519 b (x25519_public a).

(** AES-CBC decryption inverts encryption under the same key and IV, on
    block-aligned plaintexts. *)
Hypothesis aes_cbc_inverse : ∀ key v plaintext,
  (length plaintext mod 16 = 0)%nat →
  aes_cbc_decrypt key v (aes_cbc_encrypt key v plaintext) = plaintext.

Section Route.

Variable km : KeyManager.
Variable managers : string → KeyManager.
Variable route : list string.
Variable route_keys : gmap string (list Byte.byte).
Variable payload : list Byte.byte.
Variable sender_key : KeyPair.

Hypothesis sender_has_key : ephemeral_key km = Some sender_key.
Hypothesis sender_key_pair :
  public_key_bytes sender_key = x25519_public (private_key_bytes sender_key).

(** A relay holds an identity key pair whose public half is the relay's
    entry of [route_keys]. *)
Definition relay_ready (relay : string) : Prop :=
  ∃ k, identity_key (managers relay) = Some k ∧
       public_key_bytes k = x25519_public (private_key_bytes k) ∧
       route_keys !! relay = Some (public_key_bytes k).

(** [json.loads] parses the printed routing record back. *)
Definition parses_back (next_hop : string) (hop_number : nat) : Prop :=
  json_loads (dumps float_repr (routing_info next_hop hop_number))
  = Some (routing_info next_hop hop_number).

Lemma peel_own_layer relay i next_hop layer rest :
  relay_ready relay →
  next_hop_at route i = Some next_hop →
  parses_back next_hop (i + 1) →
  layer_for km route route_keys i relay = Some layer →
  peel_layer (managers relay) (mkPacket (layer :: rest) payload) relay
    (public_key_bytes sender_key)
  = Some (Some next_hop, mkPacket rest payload).
Proof.
  intros (k & Hk & Hpair & Hkey) Hhop Hparse Hlayer.
  unfold layer_for in Hlayer. rewrite Hhop, Hkey, sender_has_key in Hlayer.
  simpl in Hlayer. injection Hlayer as <-.
  unfold peel_layer. simpl. rewrite Hk. simpl.
  unfold perform_dh. rewrite sender_key_pair, Hpair, (x25519_agrees _ (private_key_bytes k)).
  unfold _decrypt_layer, _encrypt_layer. simpl.
  rewrite decide_True by done.
  rewrite aes_cbc_inverse by apply pad_aligned.
  rewrite unpad_pad. simpl.
  unfold decode, encode. rewrite String.string_of_list_byte_of_string.
  unfold parses_back in Hparse. simpl in Hparse. rewrite Hparse. reflexivity.
Qed.

Lemma delivered_cons packet hop packet' trace :
  delivered packet ((hop, packet') :: trace) = delivered packet' trace.
Proof.
  unfold delivered. destruct trace as [|t trace]; [done|].
  rewrite !fmap_cons, last_cons_cons. simpl.
  rewrite last_cons. by destruct (list.last (trace.*2)).
Qed.

Lemma peel_along_layers todo : ∀ i ls,
  layers_from km route route_keys i todo = Some ls →
  (∀ relay, relay ∈ todo → relay_ready relay) →
  (∀ j hop, (j < length todo)%nat → next_hop_at route (i + j) = Some hop →
            parses_back hop (i + j + 1)) →
  ∃ trace,
    peel_along managers (public_key_bytes sender_key) todo (mkPacket ls payload)
      = Some trace ∧
    length trace = length todo ∧
    (∀ j t, trace !! j = Some t →
            next_hop_at route (i + j) = Some (t.1) ∧ final_payload (t.2) = payload) ∧
    delivered (mkPacket ls payload) trace = mkPacket [] payload.
Proof.
  induction todo as [|relay todo IH]; intros i ls Hls Hready Hparse; simpl in *.
  - injection Hls as <-. exists []. split_and!; try done.
  - destruct (layer_for km route route_keys i relay) as [layer|] eqn:Hlayer;
      [|done]. simpl in Hls.
    destruct (layers_from km route route_keys (S i) todo) as [rest|] eqn:Hrest;
      [|done]. simpl in Hls. injection Hls as <-.
    assert (∃ hop, next_hop_at route i = Some hop) as [hop Hhop].
    { unfold layer_for in Hlayer.
      destruct (next_hop_at route i) as [hop|]; [by eexists|done]. }
    rewrite (peel_own_layer relay i hop layer rest); try done; cycle 1.
    { apply Hready. left. }
    { replace i with (i + 0)%nat at 1 by lia. apply Hparse; [lia|].
      by replace (i + 0)%nat with i by lia. }
    simpl.
    destruct (IH (S i) rest Hrest) as (trace & Htrace & Hlen & Hsteps & Hfinal).
    { intros r Hr. apply Hready. by right. }
    { intros j h Hj Hh. replace (S i + j + 1)%nat with (i + S j + 1)%nat by lia.
      apply Hparse; [lia|]. by replace (i + S j)%nat with (S i + j)%nat by lia. }
    rewrite Htrace. simpl. eexists. split_and!; [done|simpl; by rewrite Hlen| |].
    + intros [|j] t Ht; simpl in Ht.
      * injection Ht as <-. simpl. by replace (i + 0)%nat with i by lia.
      * replace (i + S j)%nat with (S i + j)%nat by lia. by apply Hsteps.
    + by rewrite delivered_cons.
Qed.

Lemma layers_from_succeeds todo : ∀ i,
  (∀ relay, relay ∈ todo → relay_ready relay) →
  (∀ j, (j < length todo)%nat → is_Some (next_hop_at route (i + j))) →
  ∃ ls, layers_from km route route_keys i todo = Some ls ∧
        length ls = length todo.
Proof.
  induction todo as [|relay todo IH]; intros i Hready Hhops; simpl.
  - by exists [].
  - destruct (Hready relay) as (k & Hk & Hpair & Hkey); [left|].
    destruct (Hhops 0%nat) as [hop Hhop]; [simpl; lia|].
    replace (i + 0)%nat with i in Hhop by lia.
    unfold layer_for. rewrite Hhop, Hkey, sender_has_key. simpl.
    destruct (IH (S i)) as (ls & -> & Hlen).
    { intros r Hr. apply Hready. by right. }
    { intros j Hj. replace (S i + j)%nat with (i + S j)%nat by lia.
      apply Hhops. simpl. lia. }
    simpl. eexists. split; [done|]. simpl. by rewrite Hlen.
Qed.

End Route.

Lemma relay_nodes_route sender relays recipient :
  relay_nodes (sender :: relays ++ [recipient]) = relays.
Proof.
  unfold relay_nodes. simpl. rewrite length_app. simpl.
  replace (length relays + 1 - 1)%nat with (length relays) by lia.
  apply take_app_length.
Qed.

Lemma next_hop_at_route sender relays recipient j :
  (j < length relays)%nat →
  next_hop_at (sender :: relays ++ [recipient]) j = (relays ++ [recipient]) !! S j.
Proof.
  intros Hj. unfold next_hop_at. rewrite relay_nodes_route.
  destruct (decide (j < length relays - 1)%nat).
  - rewrite lookup_app_l by lia. f_equal. lia.
  - replace (S j) with (length relays) by lia.
    rewrite list_lookup_middle by done.
    change (sender :: relays ++ [recipient]) with ((sender :: relays) ++ [recipient]).
    apply last_snoc.
Qed.

(** C6.  Take a route [sender, relay_1, ..., relay_k, recipient], a sender
    with an ephemeral key pair, relays that each hold an identity key pair,
    [route_keys] mapping each relay to its public key, and any sealed
    payload.  Then [create_onion] builds a packet with one layer per relay
    around the payload; peeling one layer at each relay in route order, with
    the sender's public key, succeeds and reveals in turn relay_2, ...,
    relay_k, recipient; every packet forwarded on the way carries the
    payload unchanged; and the recipient extracts exactly the payload.  The
    library primitives are taken at their contracts: X25519 agreement,
    AES-CBC decryption inverting encryption, and [json.loads] parsing the
    printed routing records back. *)
Theorem onion_wrap_then_peel (km : KeyManager) (managers : string → KeyManager)
    (sender : string) (relays : list string) (recipient : string)
    (route_keys : gmap string (list Byte.byte)) (payload : list Byte.byte)
    (sender_key : KeyPair) :
  ephemeral_key km = Some sender_key →
  public_key_bytes sender_key = x25519_public (private_key_bytes sender_key) →
  (∀ relay, relay ∈ relays → relay_ready managers route_keys relay) →
  (∀ j hop, (relays ++ [recipient]) !! S j = Some hop → parses_back hop (S j)) →
  ∃ packet trace,
    create_onion km (sender :: relays ++ [recipient]) route_keys payload
      = Some packet ∧
    final_payload packet = payload ∧
    length (layers packet) = length relays ∧
    peel_along managers (public_key_bytes sender_key) relays packet = Some trace ∧
    trace.*1 = drop 1 (relays ++ [recipient]) ∧
    Forall (λ t, final_payload (t.2) = payload) trace ∧
    layers (delivered packet trace) = [] ∧
    extract_payload (delivered packet trace) = Some payload.
Proof.
  intros Hkey Hpair Hready Hparse.
  set (route := sender :: relays ++ [recipient]).
  destruct (layers_from_succeeds km managers route route_keys sender_key Hkey
              relays 0%nat Hready) as (ls & Hls & Hlen).
  { intros j Hj. simpl. unfold route. rewrite next_hop_at_route by done.
    apply lookup_lt_is_Some. rewrite length_app. simpl. lia. }
  destruct (peel_along_layers km managers route route_keys payload sender_key
              Hkey Hpair relays 0%nat ls Hls Hready)
    as (trace & Htrace & Htlen & Hsteps & Hfinal).
  { intros j hop Hj Hhop. simpl in *. unfold route in Hhop.
    rewrite next_hop_at_route in Hhop by done.
    replace (j + 1)%nat with (S j) by lia. by apply Hparse. }
  exists (mkPacket ls payload), trace.
  unfold create_onion. subst route. rewrite relay_nodes_route, Hls. simpl.
  split_and!; try done.
  - apply list_eq. intros j. rewrite list_lookup_fmap, lookup_drop.
    destruct (trace !! j) as [t|] eqn:Ht; simpl.
    + destruct (Hsteps j t Ht) as [Hhop _]. simpl in Hhop.
      rewrite next_hop_at_route in Hhop; [done|].
      apply lookup_lt_Some in Ht. lia.
    + symmetry. apply lookup_ge_None. apply lookup_ge_None in Ht.
      rewrite length_app. simpl. lia.
  - apply Forall_lookup. intros j t Ht. by destruct (Hsteps j t Ht).
  - by rewrite Hfinal.
  - by rewrite Hfinal.
Qed.

End Crypto.

(** ** A run with stand-in primitives *)

(** Stand-ins that meet the contracts assumed of the library: a constant
    agreement, a cipher that leaves the plaintext as it is, keyed
    concatenations for HKDF and HMAC, and a parser that knows the two
    routing records of the route [A, B, C, D]. *)
Definition toy_x25519 (private public : list Byte.byte) : list Byte.byte := [].
Definition toy_public (private : list Byte.byte) : list Byte.byte := private.
Definition toy_hkdf (salt info secret : list Byte.byte) : list Byte.byte :=
  salt ++ secret.
Definition toy_cipher (key v text : list Byte.byte) : list Byte.byte := text.
Definition toy_hmac (key data : list Byte.byte) : list Byte.byte := key ++ data.
Definition toy_urandom (call : nat) : list Byte.byte := [].

Definition toy_loads (data : string) : option json :=
  if decide (data = dumps Message.sample_float_repr (routing_info "C" 1))
  then Some (routing_info "C" 1)
  else if decide (data = dumps Message.sample_float_repr (routing_info "D" 2))
  then Some (routing_info "D" 2)
  else None.

Definition toy_key_pair (node : string) : KeyPair :=
  mkKeyPair (encode node) (encode node) "x25519".

Definition toy_manager (node : string) : KeyManager :=
  mkKeyManager node (Some (toy_key_pair node)) None (Some (toy_key_pair node)) ∅ ∅.

Definition toy_route_keys : gmap string (list Byte.byte) :=
  {[ "B" := encode "B"; "C" := encode "C" ]}.

Definition toy_payload : list Byte.byte := encode "sealed".

Example toy_onion_run :
  (create_onion toy_x25519 toy_hkdf toy_cipher toy_hmac toy_urandom
     Message.sample_float_repr (toy_manager "A") ["A"; "B"; "C"; "D"]
     toy_route_keys toy_payload
   ≫= λ packet,
     peel_along toy_x25519 toy_hkdf toy_cipher toy_hmac toy_loads toy_manager
       (public_key_bytes (toy_key_pair "A")) ["B"; "C"] packet)
  ≫= (λ trace, Some (trace.*1, final_payload <$> trace.*2))
  = Some (["C"; "D"], [toy_payload; toy_payload]).
Proof. vm_compute. reflexivity. Qed.

Lemma onion_wrap_then_peel_witness :
  ephemeral_key (toy_manager "A") = Some (toy_key_pair "A") ∧
  (∀ relay, relay ∈ ["B"; "C"] →
     relay_ready toy_public toy_manager toy_route_keys relay) ∧
  ∃ packet trace,
    create_onion toy_x25519 toy_hkdf toy_cipher toy_hmac toy_urandom
      Message.sample_float_repr (toy_manager "A") ("A" :: ["B"; "C"] ++ ["D"])
      toy_route_keys toy_payload = Some packet ∧
    final_payload packet = toy_payload ∧
    length (layers packet) = length ["B"; "C"] ∧
    peel_along toy_x25519 toy_hkdf toy_cipher toy_hmac toy_loads toy_manager
      (public_key_bytes (toy_key_pair "A")) ["B"; "C"] packet = Some trace ∧
    trace.*1 = drop 1 (["B"; "C"] ++ ["D"]) ∧
    Forall (λ t, final_payload (t.2) = toy_payload) trace ∧
    layers (delivered packet trace) = [] ∧
    extract_payload (delivered packet trace) = Some toy_payload.
Proof.
  assert (∀ relay, relay ∈ ["B"; "C"] →
            relay_ready toy_public toy_manager toy_route_keys relay) as Hready.
  { intros relay Hin. exists (toy_key_pair relay).
    split; [reflexivity|]. split; [reflexivity|].
    apply elem_of_cons in Hin as [->|Hin]; [reflexivity|].
    apply elem_of_cons in Hin as [->|Hin]; [reflexivity|].
    by apply elem_of_nil in Hin. }
  split; [reflexivity|]. split; [exact Hready|].
  apply (onion_wrap_then_peel toy_x25519 toy_public toy_hkdf toy_cipher toy_cipher
           toy_hmac toy_urandom Message.sample_float_repr toy_loads).
  - reflexivity.
  - reflexivity.
  - reflexivity.
  - reflexivity.
  - exact Hready.
  - intros [|[|j]] hop Hhop; simpl in Hhop.
    + injection Hhop as <-. reflexivity.
    + injection Hhop as <-. reflexivity.
    + discriminate Hhop.
Defined.

End Onion.

(* ===================================================================== *)
(** * routing.py: the route cache *)
(* ===================================================================== *)

Module RoutingTable.

Import Routing.

(** [path.index(x)]: the first position of [x]; [None] for the [ValueError]. *)
Definition index_of (x : string) (path : list string) : option nat :=
  fst <$> list_find (λ y, y = x) path.

(** [Router.cache_route] (routing.py, lines 81-109). *)
Definition cache_route (self : Router) (dest : string) (path : list string)
    : Router :=
  if decide (length path < 2)%nat then self
  else
    match index_of (node_id self) path with
    | None => self
    | Some my_index =>
        if decide (length path - 1 ≤ my_index)%nat then self
        else
          match path !! (my_index + 1)%nat with
          | None => self
          | Some hop =>
              mkRouter (node_id self)
                (<[dest := mkRouteEntry dest hop
                             (Z.of_nat (length path - my_index - 1))
                             (router_sequence_number self + 1)%Z true]>
                   (routing_table self))
                (router_sequence_number self + 1)%Z
                (neighbors self)
          end
    end.

(** [Router.get_cached_route] (routing.py, lines 111-121). *)
Definition get_cached_route (self : Router) (dest : string) : option string :=
  match routing_table self !! dest with
  | Some route =>
      if is_active route && bool_decide (next_hop route ∈ neighbors self)
      then Some (next_hop route) else None
  | None => None
  end.

(** [Router.invalidate_route] (routing.py, lines 123-126). *)
Definition invalidate_route (self : Router) (dest : string) : Router :=
  mkRouter (node_id self)
    (alter (λ e, mkRouteEntry (destination e) (next_hop e) (hop_count e)
                   (sequence_number e) false) dest (routing_table self))
    (router_sequence_number self) (neighbors self).

(** The calls that change a router, and a router's history from
    [Router.__init__]. *)
Inductive router_op :=
  | CacheRoute (dest : string) (path : list string)
  | UpdateNeighbors (nbrs : gset string)
  | InvalidateRoute (dest : string).

Definition apply_router_op (r : Router) (op : router_op) : Router :=
  match op with
  | CacheRoute dest path => cache_route r dest path
  | UpdateNeighbors nbrs => Node.Router_update_neighbors r nbrs
  | InvalidateRoute dest => invalidate_route r dest
  end.

Definition run_router (ops : list router_op) (r : Router) : Router :=
  foldl apply_router_op r ops.

(** ** Caching and looking up *)

Lemma index_of_Some x path i :
  index_of x path = Some i →
  path !! i = Some x ∧ ∀ j, (j < i)%nat → path !! j ≠ Some x.
Proof.
  unfold index_of. destruct (list_find _ path) as [[k y]|] eqn:Hfind; [|done].
  simpl. intros [= <-]. apply list_find_Some in Hfind as (Hk & -> & Hbefore).
  split; [done|]. intros j Hj Hjx. by apply (Hbefore j x).
Qed.

Lemma index_of_None x path : index_of x path = None → x ∉ path.
Proof.
  unfold index_of. destruct (list_find _ path) as [[k y]|] eqn:Hfind; [done|].
  intros _ Hin. apply list_find_None in Hfind.
  rewrite Forall_forall in Hfind. by apply (Hfind x).
Qed.

Lemma index_of_head x path : path !! 0%nat = Some x → index_of x path = Some 0%nat.
Proof.
  destruct path as [|y path]; [done|]. simpl. intros [= ->].
  unfold index_of. simpl. by rewrite decide_True.
Qed.

(** Caching a path that holds this node before its last member stores the
    member after the node's first occurrence as next hop, the number of
    remaining members as hop count and the next sequence number; the cached
    next hop is then returned exactly when it is a current neighbour. *)
Theorem cache_then_lookup (self : Router) (dest : string) (path : list string)
    (i : nat) (hop : string) :
  index_of (node_id self) path = Some i →
  path !! S i = Some hop →
  routing_table (cache_route self dest path) !! dest
  = Some (mkRouteEntry dest hop (Z.of_nat (length path - i - 1))
            (router_sequence_number self + 1)%Z true) ∧
  router_sequence_number (cache_route self dest path)
  = (router_sequence_number self + 1)%Z ∧
  get_cached_route (cache_route self dest path) dest
  = (if decide (hop ∈ neighbors self) then Some hop else None).
Proof.
  intros Hi Hhop. pose proof (lookup_lt_Some _ _ _ Hhop) as Hlen.
  unfold cache_route. rewrite decide_False by lia. rewrite Hi.
  rewrite decide_False by lia.
  replace (i + 1)%nat with (S i) by lia. rewrite Hhop.
  split_and!; simpl; [by rewrite lookup_insert_eq|done|].
  unfold get_cached_route. simpl. rewrite lookup_insert_eq. simpl.
  destruct (decide (hop ∈ neighbors self)).
  - by rewrite bool_decide_eq_true_2.
  - by rewrite bool_decide_eq_false_2.
Qed.

Lemma cache_then_lookup_witness :
  index_of (node_id (Node.Router_update_neighbors (Router_init "A") {[ "B" ]}))
    ["A"; "B"; "C"; "D"] = Some 0%nat ∧
  ["A"; "B"; "C"; "D"] !! 1%nat = Some "B" ∧
  get_cached_route
    (cache_route (Node.Router_update_neighbors (Router_init "A") {[ "B" ]})
       "D" ["A"; "B"; "C"; "D"]) "D"
  = (if decide ("B" ∈ neighbors
                  (Node.Router_update_neighbors (Router_init "A") {[ "B" ]}))
     then Some "B" else None).
Proof.
  split; [reflexivity|]. split; [reflexivity|].
  exact (proj2 (proj2 (cache_then_lookup
    (Node.Router_update_neighbors (Router_init "A") {[ "B" ]})
    "D" ["A"; "B"; "C"; "D"] 0%nat "B" eq_refl eq_refl))).
Defined.

(** A path that cannot give a next hop leaves the router as it is: a path
    of fewer than two members, a path without this node, a path on which
    this node first occurs as the last member. *)
Theorem cache_route_ignores_useless_path (self : Router) (dest : string)
    (path : list string) :
  ((length path < 2)%nat → cache_route self dest path = self) ∧
  (node_id self ∉ path → cache_route self dest path = self) ∧
  (index_of (node_id self) path = Some (length path - 1)%nat →
   cache_route self dest path = self).
Proof.
  unfold cache_route. split_and!.
  - intros Hlen. by rewrite decide_True.
  - intros Hnot. destruct (decide (length path < 2)%nat); [done|].
    destruct (index_of (node_id self) path) as [i|] eqn:Hi; [|done].
    apply index_of_Some in Hi as [Hi _]. destruct Hnot.
    by eapply list_elem_of_lookup_2.
  - intros Hi. destruct (decide (length path < 2)%nat); [done|].
    rewrite Hi. by rewrite decide_True.
Qed.

(** ** Losing neighbours *)

Lemma update_neighbors_lookup (r : Router) (nbrs : gset string) (d : string) :
  routing_table (Node.Router_update_neighbors r nbrs) !! d
  = (λ e, if decide (next_hop e ∈ nbrs) then e
          else mkRouteEntry (destination e) (next_hop e) (hop_count e)
                 (sequence_number e) false) <$> routing_table r !! d.
Proof. unfold Node.Router_update_neighbors. simpl. by rewrite lookup_fmap. Qed.

(** A cached next hop is only ever returned while it is a neighbour; a
    neighbour update deactivates every route through a lost neighbour and
    activates none; and a route deactivated by the loss of its next hop stays
    unusable when that neighbour comes back. *)
Theorem lost_neighbour_invalidates_route (r : Router) (nbrs nbrs' : gset string)
    (d : string) :
  (∀ hop, get_cached_route r d = Some hop → hop ∈ neighbors r) ∧
  (∀ e, routing_table (Node.Router_update_neighbors r nbrs) !! d = Some e →
        next_hop e ∉ nbrs → is_active e = false) ∧
  (∀ e, routing_table (Node.Router_update_neighbors r nbrs) !! d = Some e →
        is_active e = true →
        ∃ e0, routing_table r !! d = Some e0 ∧ is_active e0 = true ∧
              next_hop e0 = next_hop e) ∧
  (∀ e, routing_table r !! d = Some e → next_hop e ∉ nbrs →
        get_cached_route
          (Node.Router_update_neighbors (Node.Router_update_neighbors r nbrs) nbrs')
          d = None).
Proof.
  split_and!.
  - intros hop. unfold get_cached_route.
    destruct (routing_table r !! d) as [e|]; [|done].
    destruct (is_active e); simpl; [|done].
    destruct (bool_decide (next_hop e ∈ neighbors r)) eqn:Hin; [|done].
    intros [= <-]. by apply bool_decide_eq_true in Hin.
  - intros e. rewrite update_neighbors_lookup.
    destruct (routing_table r !! d) as [e0|]; simpl; [|done].
    destruct (decide (next_hop e0 ∈ nbrs)); intros [= <-]; [done|]. done.
  - intros e. rewrite update_neighbors_lookup.
    destruct (routing_table r !! d) as [e0|]; simpl; [|done].
    destruct (decide (next_hop e0 ∈ nbrs)); intros [= <-]; [|done].
    intros Hact. by exists e0.
  - intros e He Hlost. unfold get_cached_route.
    rewrite !update_neighbors_lookup, He. simpl.
    destruct (decide (next_hop e ∈ nbrs)); [done|]. simpl.
    by destruct (decide (next_hop e ∈ nbrs')).
Qed.

(** Invalidating a destination makes its lookup fail and leaves the lookup
    of every other destination as it was. *)
Theorem invalidate_route_lookup (r : Router) (d d' : string) :
  get_cached_route (invalidate_route r d) d = None ∧
  (d ≠ d' → get_cached_route (invalidate_route r d) d' = get_cached_route r d').
Proof.
  unfold get_cached_route, invalidate_route. simpl. split.
  - rewrite lookup_alter_eq. by destruct (routing_table r !! d).
  - intros Hne. by rewrite lookup_alter_ne.
Qed.

(** ** Sequence numbers *)

(** What every router reached from [Router.__init__] keeps: an entry is
    filed under its own destination, its sequence number lies between 1 and
    the router's counter, its hop count is positive, and two entries never
    share a sequence number. *)
Definition table_ok (r : Router) : Prop :=
  (0 ≤ router_sequence_number r)%Z ∧
  (∀ d e, routing_table r !! d = Some e →
     destination e = d ∧
     (1 ≤ sequence_number e ≤ router_sequence_number r)%Z ∧
     (1 ≤ hop_count e)%Z) ∧
  (∀ d1 d2 e1 e2, routing_table r !! d1 = Some e1 →
     routing_table r !! d2 = Some e2 →
     sequence_number e1 = sequence_number e2 → d1 = d2).

Lemma table_ok_init node : table_ok (Router_init node).
Proof.
  split_and!; simpl; [lia|intros d e He|intros d1 d2 e1 e2 He];
    by rewrite lookup_empty in He.
Qed.

Lemma table_ok_cache r dest path : table_ok r → table_ok (cache_route r dest path).
Proof.
  intros (Hseq & Hentries & Hdistinct). unfold cache_route.
  destruct (decide (length path < 2)%nat); [done|].
  destruct (index_of (node_id r) path) as [i|]; [|done].
  destruct (decide (length path - 1 ≤ i)%nat); [done|].
  destruct (path !! (i + 1)%nat) as [hop|]; [|done].
  split_and!; simpl.
  - lia.
  - intros d e. destruct (decide (dest = d)) as [<-|Hne].
    + rewrite lookup_insert_eq. intros [= <-]. simpl. split_and!; [done|lia..].
    + rewrite lookup_insert_ne by done. intros He.
      destruct (Hentries d e He) as (? & ? & ?). split_and!; [done|lia|lia|done].
  - intros d1 d2 e1 e2.
    destruct (decide (dest = d1)) as [<-|Hne1];
      destruct (decide (dest = d2)) as [<-|Hne2]; try done.
    + rewrite lookup_insert_eq, lookup_insert_ne by done. intros [= <-] He2. simpl.
      destruct (Hentries d2 e2 He2) as (_ & ? & _). lia.
    + rewrite lookup_insert_ne, lookup_insert_eq by done. intros He1 [= <-]. simpl.
      destruct (Hentries d1 e1 He1) as (_ & ? & _). lia.
    + rewrite !lookup_insert_ne by done. apply Hdistinct.
Qed.

Lemma table_ok_update r nbrs : table_ok r → table_ok (Node.Router_update_neighbors r nbrs).
Proof.
  intros (Hseq & Hentries & Hdistinct).
  assert (∀ d e, routing_table (Node.Router_update_neighbors r nbrs) !! d = Some e →
            ∃ e0, routing_table r !! d = Some e0 ∧ destination e = destination e0 ∧
                  sequence_number e = sequence_number e0 ∧
                  hop_count e = hop_count e0) as Hback.
  { intros d e. rewrite update_neighbors_lookup.
    destruct (routing_table r !! d) as [e0|]; simpl; [|done].
    destruct (decide (next_hop e0 ∈ nbrs)); intros [= <-]; by exists e0. }
  split_and!; [done| |].
  - intros d e (e0 & He0 & -> & -> & ->)%Hback. by apply Hentries.
  - intros d1 d2 e1 e2 (e1' & He1 & _ & -> & _)%Hback (e2' & He2 & _ & -> & _)%Hback.
    by apply Hdistinct.
Qed.

Lemma table_ok_invalidate r dest : table_ok r → table_ok (invalidate_route r dest).
Proof.
  intros (Hseq & Hentries & Hdistinct).
  assert (∀ d e, routing_table (invalidate_route r dest) !! d = Some e →
            ∃ e0, routing_table r !! d = Some e0 ∧ destination e = destination e0 ∧
                  sequence_number e = sequence_number e0 ∧
                  hop_count e = hop_count e0) as Hback.
  { intros d e. unfold invalidate_route. simpl.
    destruct (decide (dest = d)) as [->|Hne].
    - rewrite lookup_alter_eq. destruct (routing_table r !! d) as [e0|]; simpl; [|done].
      intros [= <-]. by exists e0.
    - rewrite lookup_alter_ne by done. intros He. by exists e. }
  split_and!; [done| |].
  - intros d e (e0 & He0 & -> & -> & ->)%Hback. by apply Hentries.
  - intros d1 d2 e1 e2 (e1' & He1 & _ & -> & _)%Hback (e2' & He2 & _ & -> & _)%Hback.
    by apply Hdistinct.
Qed.

Lemma table_ok_run ops : ∀ r, table_ok r → table_ok (run_router ops r).
Proof.
  induction ops as [|op ops IH]; intros r Hok; simpl; [done|].
  apply IH. destruct op; simpl;
    [by apply table_ok_cache|by apply table_ok_update|by apply table_ok_invalidate].
Qed.

(** After any sequence of [cache_route], [update_neighbors] and
    [invalidate_route] calls on a new router: every entry is filed under its
    own destination, carries a sequence number between 1 and the router's
    counter and a positive hop count; no two entries share a sequence number;
    and caching one more route gives the new entry a sequence number above
    that of every entry cached before. *)
Theorem sequence_numbers_increase (node : string) (ops : list router_op) :
  (∀ d e, routing_table (run_router ops (Router_init node)) !! d = Some e →
     destination e = d ∧
     (1 ≤ sequence_number e
        ≤ router_sequence_number (run_router ops (Router_init node)))%Z ∧
     (1 ≤ hop_count e)%Z) ∧
  (∀ d1 d2 e1 e2,
     routing_table (run_router ops (Router_init node)) !! d1 = Some e1 →
     routing_table (run_router ops (Router_init node)) !! d2 = Some e2 →
     sequence_number e1 = sequence_number e2 → d1 = d2) ∧
  (∀ dest path d e new,
     routing_table (run_router ops (Router_init node)) !! d = Some e →
     routing_table (cache_route (run_router ops (Router_init node)) dest path)
       !! dest = Some new →
     cache_route (run_router ops (Router_init node)) dest path
       ≠ run_router ops (Router_init node) →
     (sequence_number e < sequence_number new)%Z).
Proof.
  destruct (table_ok_run ops (Router_init node) (table_ok_init node))
    as (Hseq & Hentries & Hdistinct).
  split_and!; [done|done|].
  intros dest path d e new He. unfold cache_route.
  destruct (decide (length path < 2)%nat); [done|].
  destruct (index_of _ path) as [i|]; [|done].
  destruct (decide (length path - 1 ≤ i)%nat); [done|].
  destruct (path !! (i + 1)%nat) as [hop|]; [|done].
  simpl. rewrite lookup_insert_eq. intros [= <-] _. simpl.
  destruct (Hentries d e He) as (_ & ? & _). lia.
Qed.

(** ** Routes found by the search *)

(** Cutting the members between two occurrences of an identity out of a
    path. *)
Definition cut (i j : nat) (p : list string) : list string :=
  take (S i) p ++ drop (S j) p.

Lemma cut_lookup (p : list string) (i j n : nat) :
  (i < j < length p)%nat →
  cut i j p !! n
  = if decide (n < S i)%nat then p !! n else p !! (S j + (n - S i))%nat.
Proof.
  intros Hij. unfold cut. destruct (decide (n < S i)%nat).
  - rewrite lookup_app_l by (rewrite length_take; lia).
    by rewrite lookup_take_lt.
  - rewrite lookup_app_r by (rewrite length_take; lia).
    rewrite length_take, lookup_drop. f_equal. lia.
Qed.

Lemma cut_length (p : list string) (i j : nat) :
  (i < j < length p)%nat → (length (cut i j p) < length p)%nat.
Proof.
  intros Hij. unfold cut. rewrite length_app, length_take, length_drop. lia.
Qed.

Lemma cut_valid g src dst (p : list string) (i j : nat) (x : string) :
  valid_route g src dst p → p !! i = Some x → p !! j = Some x → (i < j)%nat →
  valid_route g src dst (cut i j p).
Proof.
  intros (Hhead & Hlast & Hstep) Hi Hj Hij.
  pose proof (lookup_lt_Some _ _ _ Hj) as Hlen.
  split_and!.
  - rewrite cut_lookup by lia. by rewrite decide_True by lia.
  - rewrite last_lookup in Hlast |- *. rewrite cut_lookup by lia.
    assert (length (cut i j p) = S i + (length p - S j))%nat as ->.
    { unfold cut. rewrite length_app, length_take, length_drop. lia. }
    destruct (decide (S j = length p)) as [Hend|Hmore].
    + rewrite decide_True by lia.
      replace (pred (S i + (length p - S j))) with i by lia.
      replace (pred (length p)) with j in Hlast by lia. congruence.
    + rewrite decide_False by lia. rewrite <- Hlast. f_equal. lia.
  - intros n a b. rewrite !cut_lookup by lia.
    destruct (decide (S n < S i)%nat).
    + rewrite decide_True by lia. apply Hstep.
    + destruct (decide (n < S i)%nat).
      * assert (n = i) as -> by lia. intros Ha Hb.
        replace (S j + (S i - S i))%nat with (S j) in Hb by lia.
        apply (Hstep j); congruence.
      * intros Ha Hb. apply (Hstep (S j + (n - S i))%nat); [done|].
        rewrite <- Hb. f_equal. lia.
Qed.

(** A route [find_route] returns visits no identity twice. *)
Theorem find_route_visits_once (iteration : gset string → list string)
    (self : Router) (destination : string) (g : gmap string (gset string))
    (p : list string) :
  (∀ (s : gset string) (x : string), x ∈ iteration s ↔ x ∈ s) →
  find_route iteration self destination g = Some p →
  NoDup p.
Proof.
  intros Hiter Hp.
  destruct (find_route_sound iteration Hiter self destination g p Hp)
    as [Hvalid Hmin].
  assert (∀ i j x, p !! i = Some x → p !! j = Some x → (i < j)%nat → False)
    as Hcut.
  { intros i j x Hi Hj Hij.
    pose proof (lookup_lt_Some _ _ _ Hj) as Hlen.
    pose proof (Hmin _ (cut_valid g _ _ p i j x Hvalid Hi Hj Hij)) as Hle.
    pose proof (cut_length p i j). lia. }
  apply NoDup_alt. intros i j x Hi Hj.
  destruct (Nat.lt_trichotomy i j) as [Hlt|[->|Hgt]]; [|done|].
  - destruct (Hcut i j x Hi Hj Hlt).
  - destruct (Hcut j i x Hj Hi Hgt).
Qed.

Lemma find_route_visits_once_witness :
  NoDup ["A"; "B"; "C"; "D"].
Proof.
  exact (find_route_visits_once elements (Router_init "A") "D" line_view
           ["A"; "B"; "C"; "D"] elements_enumerates find_route_line).
Defined.

(** Caching the route [find_route] has returned for another node stores the
    second member of the route as next hop, which is a neighbour of this node
    in the view searched, and the number of links of the route as hop count. *)
Theorem found_route_is_cached (iteration : gset string → list string)
    (self : Router) (destination : string) (g : gmap string (gset string))
    (p : list string) :
  (∀ (s : gset string) (x : string), x ∈ iteration s ↔ x ∈ s) →
  find_route iteration self destination g = Some p →
  destination ≠ node_id self →
  ∃ hop, p !! 1%nat = Some hop ∧ hop ∈ neighbours g (node_id self) ∧
    routing_table (cache_route self destination p) !! destination
    = Some (mkRouteEntry destination hop (Z.of_nat (length p) - 1)
              (router_sequence_number self + 1)%Z true).
Proof.
  intros Hiter Hp Hne.
  destruct (find_route_sound iteration Hiter self destination g p Hp)
    as [(Hhead & Hlast & Hstep) _].
  destruct p as [|a [|hop rest]]; [done| |].
  - simpl in Hhead, Hlast. congruence.
  - simpl in Hhead. injection Hhead as ->. exists hop.
    split; [done|]. split; [by apply (Hstep 0%nat)|].
    unfold cache_route. rewrite decide_False by (simpl; lia).
    rewrite (index_of_head (node_id self)) by done.
    rewrite decide_False by (simpl; lia). simpl.
    rewrite lookup_insert_eq. do 2 f_equal. lia.
Qed.

Lemma found_route_is_cached_witness :
  ∃ hop, ["A"; "B"; "C"; "D"] !! 1%nat = Some hop ∧
    hop ∈ neighbours line_view (node_id (Router_init "A")) ∧
    routing_table (cache_route (Router_init "A") "D" ["A"; "B"; "C"; "D"]) !! "D"
    = Some (mkRouteEntry "D" hop (Z.of_nat (length ["A"; "B"; "C"; "D"]) - 1)
              (router_sequence_number (Router_init "A") + 1)%Z true).
Proof.
  apply (found_route_is_cached elements (Router_init "A") "D" line_view
           ["A"; "B"; "C"; "D"] elements_enumerates find_route_line).
  discriminate.
Defined.

End RoutingTable.

(* ===================================================================== *)
(** * energy.py: transaction history and the market *)
(* ===================================================================== *)

Module Market.

Import Energy.

Local Open Scope Qc_scope.

(** Linear arithmetic over the rationals of the embedding. *)
Ltac qc_lra :=
  unfold Py.dec in *;
  repeat match goal with
  | |- @eq Qc _ _ => apply Qc_is_canon
  | H : @eq Qc ?x ?y |- _ => apply (f_equal this) in H; simpl in H
  end;
  unfold Qcle, Qclt, Qcplus, Qcminus, Qcmult, Qcopp, Q2Qc in *; simpl in *;
  rewrite ?Qred_correct in *; lra.

(** [EnergyTransaction.to_dict] (energy.py, lines 23-32). *)
Definition EnergyTransaction_to_dict (tx : EnergyTransaction) : Json.json :=
  Json.JObj
    [ ("transaction_id", Json.JStr (transaction_id tx));
      ("timestamp", Json.JFloat (timestamp tx));
      ("from_node", Json.JStr (from_node tx));
      ("to_node", Json.JStr (to_node tx));
      ("amount", Json.JFloat (amount tx));
      ("reason", Json.JStr (reason tx));
      ("message_id", match message_id tx with
                     | Some id => Json.JStr id
                     | None => Json.JNull
                     end) ].

(** The slice [l[start:]]: a negative [start] counts from the end and is
    clipped at the beginning of the list. *)
Definition slice_from {A : Type} (start : Z) (l : list A) : list A :=
  if decide (start < 0)%Z
  then drop (Z.to_nat (Z.max 0 (Z.of_nat (length l) + start))) l
  else drop (Z.to_nat start) l.

(** [EnergyAccount.get_transaction_history] (energy.py, lines 108-110). *)
Definition get_transaction_history (self : EnergyAccount) (limit : Z)
    : list Json.json :=
  EnergyTransaction_to_dict <$> slice_from (- limit) (transactions self).

(** [EnergyMarket] (energy.py, lines 136-141). *)
Record EnergyMarket := mkMarket {
  accounts : gmap string EnergyAccount;
  base_send_cost : Qc;
  base_relay_reward : Qc;
  spam_penalty : Qc;
  total_energy_in_system : Qc;
}.

(** [EnergyMarket.__init__]. *)
Definition EnergyMarket_init : EnergyMarket :=
  mkMarket ∅ (Py.dec 100 1) (Py.dec 10 1) (Py.dec 50 1) 0.

(** The market with the account object stored under [node] replaced by its
    state after a call that mutated it. *)
Definition set_account (self : EnergyMarket) (node : string)
    (account : EnergyAccount) : EnergyMarket :=
  mkMarket (<[node := account]> (accounts self)) (base_send_cost self)
    (base_relay_reward self) (spam_penalty self) (total_energy_in_system self).

(** [EnergyMarket.create_account] (energy.py, lines 143-154). *)
Definition create_account (self : EnergyMarket) (node : string) (initial : Qc)
    (plugged : bool) : EnergyAccount * EnergyMarket :=
  let account := EnergyMarket_create_account node initial plugged in
  (account,
   mkMarket (<[node := account]> (accounts self)) (base_send_cost self)
     (base_relay_reward self) (spam_penalty self)
     (total_energy_in_system self + initial)).

(** [EnergyMarket.get_account] (energy.py, lines 156-158). *)
Definition get_account (self : EnergyMarket) (node : string)
    : option EnergyAccount :=
  accounts self !! node.

(** [[0.5, 1.0, 1.5, 2.0][priority]]: a negative index counts from the end,
    [None] is the [IndexError]. *)
Definition priority_factor_at (priority : Z) : option Qc :=
  let factors := [Py.dec 5 10; Py.dec 1 1; Py.dec 15 10; Py.dec 2 1] in
  if decide (0 ≤ priority)%Z then factors !! Z.to_nat priority
  else if decide (-4 ≤ priority)%Z then factors !! Z.to_nat (priority + 4)
  else None.

(** [EnergyMarket.calculate_send_cost] (energy.py, lines 160-171). *)
Definition calculate_send_cost (self : EnergyMarket) (message_size_kb : Qc)
    (priority num_hops : Z) : option Qc :=
  let size_factor := 1 + message_size_kb * Py.dec 1 10 in
  match priority_factor_at priority with
  | None => None
  | Some priority_factor =>
      let hop_factor := 1 + Qc_of_Z num_hops * Py.dec 2 10 in
      let cost := base_send_cost self * size_factor * priority_factor * hop_factor in
      Some (Py.round2 cost)
  end.

(** [EnergyMarket.process_message_send] (energy.py, lines 186-199): the
    boolean and the market after the call; [None] when the cost calculation
    raises. *)
Definition process_message_send (self : EnergyMarket) (sender_id msg_id : string)
    (message_size_kb : Qc) (priority num_hops : Z) (now : Qc)
    : option (bool * EnergyMarket) :=
  match get_account self sender_id with
  | None => Some (false, self)
  | Some sender =>
      match calculate_send_cost self message_size_kb priority num_hops with
      | None => None
      | Some cost =>
          let r := debit sender cost "send" (Some msg_id) now in
          Some (r.1, set_account self sender_id (r.2))
      end
  end.

(** [EnergyMarket.process_relay] (energy.py, lines 201-209). *)
Definition process_relay (self : EnergyMarket) (relay_node_id msg_id : string)
    (message_cost : Qc) (now : Qc) : EnergyMarket :=
  match get_account self relay_node_id with
  | None => self
  | Some relay_node =>
      let reward :=
        EnergyMarket_calculate_relay_reward message_cost (is_plugged_in relay_node) in
      set_account self relay_node_id
        (credit relay_node reward "relay" "network" (Some msg_id) now)
  end.

(** The [recent_sends] of [detect_spam]. *)
Definition recent_sends (account : EnergyAccount) (recent_time : Qc)
    : list EnergyTransaction :=
  filter (λ tx, reason tx = "send" ∧ recent_time ≤ timestamp tx)
    (transactions account).

(** [EnergyMarket.detect_spam] (energy.py, lines 211-227). *)
Definition detect_spam (self : EnergyMarket) (node : string)
    (time_window_seconds max_messages : Z) (now : Qc) : bool :=
  match get_account self node with
  | None => false
  | Some account =>
      let recent_time := now - Qc_of_Z time_window_seconds in
      bool_decide (max_messages < Z.of_nat (length (recent_sends account recent_time)))%Z
  end.

(** [EnergyMarket.apply_spam_penalty] (energy.py, lines 229-233). *)
Definition apply_spam_penalty (self : EnergyMarket) (node : string) (now : Qc)
    : EnergyMarket :=
  match get_account self node with
  | None => self
  | Some account =>
      set_account self node (debit account (spam_penalty self) "penalty" None now).2
  end.

(** The body of the loop of [rebalance_energy] (energy.py, lines 278-285). *)
Definition rebalance_account (target_balance : Qc) (now : Qc)
    (account : EnergyAccount) : EnergyAccount :=
  if decide (balance account < target_balance * Py.dec 5 10) then
    let bonus := (target_balance * Py.dec 5 10 - balance account) * Py.dec 1 10 in
    credit account bonus "rebalance" "network" None now
  else if decide (target_balance * Py.dec 2 1 < balance account) then
    let tax := (balance account - target_balance * Py.dec 2 1) * Py.dec 5 100 in
    (debit account tax "rebalance" None now).2
  else account.

(** [EnergyMarket.rebalance_energy] (energy.py, lines 272-285); [clock] gives
    the time read while the account stored under a key is processed. *)
Definition rebalance_energy (self : EnergyMarket) (target_balance : Qc)
    (clock : string → Qc) : EnergyMarket :=
  mkMarket
    (map_imap (λ node account,
       Some (rebalance_account target_balance (clock node) account))
       (accounts self))
    (base_send_cost self) (base_relay_reward self) (spam_penalty self)
    (total_energy_in_system self).

(** The calls that change a market, and a market's history from
    [EnergyMarket()].  A [process_message_send] that raises changes nothing:
    the history goes on from the same market when the caller catches the
    exception. *)
Inductive market_op :=
  | CreateAccount (node : string) (initial : Qc) (plugged : bool)
  | ProcessMessageSend (sender_id msg_id : string) (message_size_kb : Qc)
      (priority num_hops : Z) (now : Qc)
  | ProcessRelay (relay_node_id msg_id : string) (message_cost : Qc) (now : Qc)
  | ApplySpamPenalty (node : string) (now : Qc)
  | RebalanceEnergy (target_balance : Qc) (clock : string → Qc).

Definition apply_market_op (m : EnergyMarket) (op : market_op) : EnergyMarket :=
  match op with
  | CreateAccount node initial plugged => (create_account m node initial plugged).2
  | ProcessMessageSend sender_id msg_id size priority hops now =>
      match process_message_send m sender_id msg_id size priority hops now with
      | Some r => r.2
      | None => m
      end
  | ProcessRelay node msg_id cost now => process_relay m node msg_id cost now
  | ApplySpamPenalty node now => apply_spam_penalty m node now
  | RebalanceEnergy target clock => rebalance_energy m target clock
  end.

Definition run_market (ops : list market_op) (m : EnergyMarket) : EnergyMarket :=
  foldl apply_market_op m ops.

(** ** The transaction history *)

(** [get_transaction_history(limit)]: a positive limit gives the last
    [limit] transactions (all of them when the log is shorter), in log order;
    limit 0 gives the whole log, not an empty list; a negative limit [-k]
    gives the log without its first [k] transactions.  The history is never
    longer than the log. *)
Theorem transaction_history_limit (self : EnergyAccount) (limit : Z) :
  ((0 < limit)%Z →
     get_transaction_history self limit
     = EnergyTransaction_to_dict
         <$> drop (length (transactions self) - Z.to_nat limit) (transactions self) ∧
     length (get_transaction_history self limit)
     = (Z.to_nat limit `min` length (transactions self))%nat) ∧
  (limit = 0%Z →
     get_transaction_history self limit
     = EnergyTransaction_to_dict <$> transactions self) ∧
  ((limit < 0)%Z →
     get_transaction_history self limit
     = EnergyTransaction_to_dict <$> drop (Z.to_nat (- limit)) (transactions self)) ∧
  (length (get_transaction_history self limit) ≤ length (transactions self))%nat.
Proof.
  unfold get_transaction_history, slice_from. split_and!.
  - intros Hpos. rewrite decide_True by lia.
    replace (Z.to_nat (Z.max 0 (Z.of_nat (length (transactions self)) + - limit)))
      with (length (transactions self) - Z.to_nat limit)%nat by lia.
    split; [done|]. rewrite length_fmap, length_drop. lia.
  - intros ->. by rewrite decide_False by lia.
  - intros Hneg. by rewrite decide_False by lia.
  - rewrite length_fmap. destruct (decide _); rewrite length_drop; lia.
Qed.

(** ** Rounding keeps the sign *)

Lemma round_half_even_nonneg (x : Qc) : 0 ≤ x → (0 ≤ Py.round_half_even x)%Z.
Proof.
  intros Hx. unfold Py.round_half_even.
  assert (0 ≤ Qfloor x)%Z as Hfloor.
  { change 0%Z with (Qfloor 0). by apply Qfloor_resp_le. }
  repeat case_decide; try destruct (Z.even _); lia.
Qed.

Lemma round2_nonneg (x : Qc) : 0 ≤ x → 0 ≤ Py.round2 x.
Proof.
  intros Hx. unfold Py.round2.
  assert (0 ≤ x * Py.dec 100 1) as Hscaled by qc_lra.
  apply round_half_even_nonneg in Hscaled.
  set (z := Py.round_half_even _) in *.
  unfold Qcle, Q2Qc. cbn [this]. rewrite !Qred_correct.
  unfold Qle. simpl. lia.
Qed.

(** ** What the market keeps for every account *)

(** The number of logged transactions with a given reason. *)
Definition logged (why : string) (a : EnergyAccount) : Z :=
  Z.of_nat (length (filter (λ tx, reason tx = why) (transactions a))).

Definition account_ok (node : string) (a : EnergyAccount) : Prop :=
  node_id a = node ∧
  relay_multiplier a = (if is_plugged_in a then Py.dec 15 10 else Py.dec 1 1) ∧
  messages_sent a = logged "send" a ∧
  messages_relayed a = logged "relay" a ∧
  messages_received a = 0%Z.

Definition market_ok (m : EnergyMarket) : Prop :=
  ∀ node a, accounts m !! node = Some a → account_ok node a.

Lemma logged_snoc why (a : EnergyAccount) log tx :
  Z.of_nat (length (filter (λ tx, reason tx = why) (log ++ [tx])))
  = (Z.of_nat (length (filter (λ tx, reason tx = why) log))
     + (if decide (reason tx = why) then 1 else 0))%Z.
Proof.
  rewrite filter_app, length_app, filter_cons, filter_nil.
  destruct (decide (reason tx = why)); simpl; lia.
Qed.

Lemma account_ok_debit node a amt why msg_id now :
  why ≠ "relay" → account_ok node a → account_ok node (debit a amt why msg_id now).2.
Proof.
  intros Hwhy (Hid & Hmul & Hsent & Hrelayed & Hreceived). unfold debit.
  destruct (negb (can_afford a amt)); [done|].
  split_and!; simpl; [done|done| | |done].
  - unfold logged. simpl. rewrite (logged_snoc "send" a). simpl.
    rewrite Hsent. unfold logged. destruct (decide (why = "send")); lia.
  - unfold logged. simpl. rewrite (logged_snoc "relay" a). simpl.
    rewrite Hrelayed. unfold logged. rewrite decide_False by done. lia.
Qed.

Lemma account_ok_credit node a amt why sender msg_id now :
  why ≠ "send" → why ≠ "receive" → account_ok node a →
  account_ok node (credit a amt why sender msg_id now).
Proof.
  intros Hsend Hreceive (Hid & Hmul & Hsent & Hrelayed & Hreceived). unfold credit.
  split_and!; simpl; [done|done| | |].
  - unfold logged. simpl. rewrite (logged_snoc "send" a). simpl.
    rewrite Hsent. unfold logged. rewrite decide_False by done. lia.
  - unfold logged. simpl. rewrite (logged_snoc "relay" a). simpl.
    rewrite Hrelayed. unfold logged. destruct (decide (why = "relay")); lia.
  - destruct (decide (why = "relay")); [done|]. by rewrite decide_False.
Qed.

Lemma account_ok_rebalance node target now a :
  account_ok node a → account_ok node (rebalance_account target now a).
Proof.
  intros Hok. unfold rebalance_account. repeat case_decide; [| |done].
  - by apply account_ok_credit.
  - by apply account_ok_debit.
Qed.

Lemma market_ok_set m node a :
  market_ok m → account_ok node a → market_ok (set_account m node a).
Proof.
  intros Hm Ha node' a'. simpl. destruct (decide (node = node')) as [<-|Hne].
  - rewrite lookup_insert_eq. by intros [= <-].
  - rewrite lookup_insert_ne by done. apply Hm.
Qed.

Lemma market_ok_op m op : market_ok m → market_ok (apply_market_op m op).
Proof.
  intros Hm. destruct op as [node initial plugged|sender msg size prio hops now
    |node msg cost now|node now|target clock]; simpl.
  - apply (market_ok_set m node); [done|]. by destruct plugged.
  - unfold process_message_send, get_account.
    destruct (accounts m !! sender) as [a|] eqn:Ha; [|done].
    destruct (calculate_send_cost m size prio hops) as [cost|]; [|done]. simpl.
    apply market_ok_set; [done|]. apply account_ok_debit; [done|by apply Hm].
  - unfold process_relay, get_account.
    destruct (accounts m !! node) as [a|] eqn:Ha; [|done].
    apply market_ok_set; [done|]. apply account_ok_credit; [done..|by apply Hm].
  - unfold apply_spam_penalty, get_account.
    destruct (accounts m !! node) as [a|] eqn:Ha; [|done].
    apply market_ok_set; [done|]. apply account_ok_debit; [done|by apply Hm].
  - intros node a. simpl. rewrite map_lookup_imap.
    destruct (accounts m !! node) as [a0|] eqn:Ha; simpl; [|done].
    intros [= <-]. apply account_ok_rebalance. by apply Hm.
Qed.

Lemma market_ok_run ops : ∀ m, market_ok m → market_ok (run_market ops m).
Proof.
  induction ops as [|op ops IH]; intros m Hm; simpl; [done|].
  apply IH. by apply market_ok_op.
Qed.

Lemma market_ok_init : market_ok EnergyMarket_init.
Proof. intros node a. simpl. by rewrite lookup_empty. Qed.

Lemma recent_sends_are_sends (a : EnergyAccount) (recent_time : Qc) :
  (Z.of_nat (length (recent_sends a recent_time)) ≤ logged "send" a)%Z.
Proof.
  unfold recent_sends, logged. induction (transactions a) as [|tx log IH]; [done|].
  rewrite !filter_cons.
  destruct (decide (reason tx = "send" ∧ _)) as [[Hsend _]|Hnot].
  - rewrite decide_True by done. simpl. lia.
  - destruct (decide (reason tx = "send")); simpl; lia.
Qed.

(** After any history of a market that started empty, every account is
    stored under its own identity, its relay multiplier is 1.5 when it is
    plugged in and 1 otherwise, [messages_sent] is the number of logged
    transactions with reason "send", [messages_relayed] the number with
    reason "relay", and [messages_received] is 0.  [detect_spam] only flags
    an account that has made more than [max_messages] successful sends. *)
Theorem market_counters_follow_log (ops : list market_op) (node : string)
    (a : EnergyAccount) :
  accounts (run_market ops EnergyMarket_init) !! node = Some a →
  node_id a = node ∧
  relay_multiplier a = (if is_plugged_in a then Py.dec 15 10 else Py.dec 1 1) ∧
  messages_sent a = logged "send" a ∧
  messages_relayed a = logged "relay" a ∧
  messages_received a = 0%Z ∧
  ∀ window max_messages now,
    detect_spam (run_market ops EnergyMarket_init) node window max_messages now = true →
    (max_messages < messages_sent a)%Z.
Proof.
  intros Ha.
  destruct (market_ok_run ops _ market_ok_init node a Ha)
    as (Hid & Hmul & Hsent & Hrelayed & Hreceived).
  split_and!; try done.
  intros window max_messages now. unfold detect_spam, get_account. rewrite Ha.
  intros Hspam%bool_decide_eq_true.
  pose proof (recent_sends_are_sends a (now - Qc_of_Z window)). lia.
Qed.

(** The demo of the module (energy.py, lines 295-318): three accounts, Bob
    plugged in; Alice sends one message, Bob and Carol relay it. *)
Definition demo_history : list market_op :=
  [ CreateAccount "Alice" default_balance false;
    CreateAccount "Bob" default_balance true;
    CreateAccount "Carol" default_balance false;
    ProcessMessageSend "Alice" "msg_1" 1 1 2 0;
    ProcessRelay "Bob" "msg_1" (Py.dec 100 1) 1;
    ProcessRelay "Carol" "msg_1" (Py.dec 100 1) 2 ].

Definition demo_market : EnergyMarket := run_market demo_history EnergyMarket_init.

Definition demo_account (node : string) : EnergyAccount :=
  default (EnergyAccount_new node 0 false 0) (accounts demo_market !! node).

Lemma demo_account_lookup (node : string) :
  node ∈ ["Alice"; "Bob"; "Carol"] →
  accounts (run_market demo_history EnergyMarket_init) !! node
  = Some (demo_account node).
Proof.
  intros Hnode. unfold demo_account, demo_market.
  repeat (apply elem_of_cons in Hnode as [->|Hnode]; [vm_compute; reflexivity|]).
  by apply elem_of_nil in Hnode.
Qed.

Lemma demo_bob_lookup :
  accounts (run_market demo_history EnergyMarket_init) !! "Bob"
  = Some (demo_account "Bob").
Proof. apply demo_account_lookup. set_solver. Qed.

Lemma market_counters_follow_log_witness :
  node_id (demo_account "Bob") = "Bob" ∧
  messages_relayed (demo_account "Bob") = logged "relay" (demo_account "Bob").
Proof.
  pose proof (market_counters_follow_log demo_history "Bob" (demo_account "Bob")
                demo_bob_lookup) as (Hid & _ & _ & Hrelayed & _).
  exact (conj Hid Hrelayed).
Defined.

(** ** Balances *)

Definition op_nonneg (op : market_op) : Prop :=
  match op with
  | CreateAccount _ initial _ => 0 ≤ initial
  | ProcessRelay _ _ message_cost _ => 0 ≤ message_cost
  | _ => True
  end.

Definition balances_ok (m : EnergyMarket) : Prop :=
  ∀ node a, accounts m !! node = Some a → 0 ≤ balance a.

Lemma debit_balance a amt why msg_id now :
  0 ≤ balance a → 0 ≤ balance (debit a amt why msg_id now).2.
Proof.
  intros Hbal. unfold debit, can_afford.
  destruct (bool_decide (amt ≤ balance a)) eqn:Hafford; simpl; [|done].
  apply bool_decide_eq_true in Hafford. qc_lra.
Qed.

Lemma credit_balance a amt why sender msg_id now :
  0 ≤ balance a → 0 ≤ credited_amount a amt why →
  0 ≤ balance (credit a amt why sender msg_id now).
Proof.
  intros Hbal Hamt. unfold credit. simpl.
  set (c := credited_amount a amt why) in *. qc_lra.
Qed.

Lemma relay_reward_nonneg (message_cost : Qc) (plugged : bool) :
  0 ≤ message_cost → 0 ≤ EnergyMarket_calculate_relay_reward message_cost plugged.
Proof.
  intros Hcost. unfold EnergyMarket_calculate_relay_reward.
  apply round2_nonneg. destruct plugged; qc_lra.
Qed.

Lemma rebalance_balance target now a :
  0 ≤ balance a → 0 ≤ balance (rebalance_account target now a).
Proof.
  intros Hbal. unfold rebalance_account.
  destruct (decide (balance a < target * Py.dec 5 10)) as [Hlow|_].
  - apply credit_balance; [done|]. unfold credited_amount.
    rewrite decide_False by done. qc_lra.
  - destruct (decide (target * Py.dec 2 1 < balance a)); [|done].
    by apply debit_balance.
Qed.

Lemma balances_ok_set m node a :
  balances_ok m → 0 ≤ balance a → balances_ok (set_account m node a).
Proof.
  intros Hm Ha node' a'. simpl. destruct (decide (node = node')) as [<-|Hne].
  - rewrite lookup_insert_eq. by intros [= <-].
  - rewrite lookup_insert_ne by done. apply Hm.
Qed.

Lemma balances_ok_op m op :
  market_ok m → balances_ok m → op_nonneg op → balances_ok (apply_market_op m op).
Proof.
  intros Hok Hm Hop. destruct op as [node initial plugged|sender msg size prio hops now
    |node msg cost now|node now|target clock]; simpl in *.
  - by apply (balances_ok_set m node).
  - unfold process_message_send, get_account.
    destruct (accounts m !! sender) as [a|] eqn:Ha; [|done].
    destruct (calculate_send_cost m size prio hops) as [cost|]; [|done]. simpl.
    apply balances_ok_set; [done|]. apply debit_balance. by eapply Hm.
  - unfold process_relay, get_account.
    destruct (accounts m !! node) as [a|] eqn:Ha; [|done].
    apply balances_ok_set; [done|]. apply credit_balance; [by eapply Hm|].
    pose proof (relay_reward_nonneg cost (is_plugged_in a) Hop) as Hreward.
    destruct (Hok node a Ha) as (_ & Hmul & _).
    unfold credited_amount. rewrite decide_True by done.
    set (reward := EnergyMarket_calculate_relay_reward _ _) in *.
    destruct (is_plugged_in a); [|done]. rewrite Hmul. qc_lra.
  - unfold apply_spam_penalty, get_account.
    destruct (accounts m !! node) as [a|] eqn:Ha; [|done].
    apply balances_ok_set; [done|]. apply debit_balance. by eapply Hm.
  - intros node a. simpl. rewrite map_lookup_imap.
    destruct (accounts m !! node) as [a0|] eqn:Ha; simpl; [|done].
    intros [= <-]. apply rebalance_balance. by eapply Hm.
Qed.

Lemma balances_ok_run ops : ∀ m,
  market_ok m → balances_ok m → Forall op_nonneg ops →
  balances_ok (run_market ops m).
Proof.
  induction ops as [|op ops IH]; intros m Hok Hm Hops; simpl; [done|].
  apply Forall_cons_1 in Hops as [Hop Hops].
  apply IH; [by apply market_ok_op|by apply balances_ok_op|done].
Qed.

(** When no account is created with a negative balance and no relay is
    processed for a negative message cost, no history of a market takes any
    balance below zero: sends, penalties and the rebalancing tax are refused
    when the balance does not cover them. *)
Theorem balances_never_negative (ops : list market_op) (node : string)
    (a : EnergyAccount) :
  Forall op_nonneg ops →
  accounts (run_market ops EnergyMarket_init) !! node = Some a →
  0 ≤ balance a.
Proof.
  intros Hops Ha.
  apply (balances_ok_run ops EnergyMarket_init market_ok_init) with node;
    [|done..].
  intros node' a'. simpl. by rewrite lookup_empty.
Qed.

Lemma demo_history_nonneg : Forall op_nonneg demo_history.
Proof. repeat constructor; by vm_compute. Qed.

Lemma balances_never_negative_witness : 0 ≤ balance (demo_account "Bob").
Proof.
  exact (balances_never_negative demo_history "Bob" (demo_account "Bob")
           demo_history_nonneg demo_bob_lookup).
Defined.

(** ** Relay rewards *)



(** The relay of the demo: plugged-in Bob earns 22.5 for a message that cost
    100, Carol earns 10. *)
Example demo_relay_earnings :
  Qeq_bool (total_earned (demo_account "Bob")) (Py.dec 225 10) = true ∧
  Qeq_bool (total_earned (demo_account "Carol")) (Py.dec 10 1) = true.
Proof. split; vm_compute; reflexivity. Qed.

(** ** Rebalancing *)




(** ** Prices *)

Lemma priority_factor_at_value (p : Message.MessagePriority) :
  priority_factor_at (Message.MessagePriority_value p)
  = Some (Message.priority_factor p).
Proof. by destruct p. Qed.

(** The market and the message price a send alike: for every message,
    [calculate_send_cost] at the payload size in KB, the number of its
    priority and [10 - ttl] hops is [Message.calculate_energy_cost]. *)
Theorem market_price_is_message_price (float_repr : Qc → string)
    (m : Message.Message) :
  calculate_send_cost EnergyMarket_init
    (Qc_of_Z (Z.of_nat (Message.get_size_bytes float_repr (Message.payload m)))
     / Py.dec 1024 1)
    (Message.MessagePriority_value (Message.priority (Message.header m)))
    (10 - Message.ttl (Message.header m))
  = Some (Message.calculate_energy_cost float_repr m).
Proof.
  unfold calculate_send_cost, Message.calculate_energy_cost.
  by rewrite priority_factor_at_value.
Qed.

Lemma priority_factor_at_None (priority : Z) :
  priority_factor_at priority = None ↔ (priority < -4 ∨ 3 < priority)%Z.
Proof.
  unfold priority_factor_at. destruct (decide (0 ≤ priority)%Z).
  - rewrite lookup_ge_None. simpl. lia.
  - destruct (decide (-4 ≤ priority)%Z); [|split; [intros _; lia|done]].
    rewrite lookup_ge_None. simpl. lia.
Qed.

(** The priority of [calculate_send_cost] is a list index: the call raises
    exactly for a priority below -4 or above 3, and a priority from -4 to -1
    is priced as the priority four above it (-1 as URGENT).
    [process_message_send] returns [False] for an unknown sender whatever the
    priority, and raises for a known sender with such a priority, before
    anything is charged. *)
Theorem send_cost_priority_is_an_index (m : EnergyMarket) (size_kb : Qc)
    (priority num_hops : Z) :
  (calculate_send_cost m size_kb priority num_hops = None
   ↔ (priority < -4 ∨ 3 < priority)%Z) ∧
  ((-4 ≤ priority < 0)%Z →
   calculate_send_cost m size_kb priority num_hops
   = calculate_send_cost m size_kb (priority + 4) num_hops) ∧
  (∀ sender msg_id now, accounts m !! sender = None →
     process_message_send m sender msg_id size_kb priority num_hops now
     = Some (false, m)) ∧
  (∀ sender msg_id now, is_Some (accounts m !! sender) →
     (priority < -4 ∨ 3 < priority)%Z →
     process_message_send m sender msg_id size_kb priority num_hops now = None).
Proof.
  assert (calculate_send_cost m size_kb priority num_hops = None
          ↔ (priority < -4 ∨ 3 < priority)%Z) as Hnone.
  { rewrite <- priority_factor_at_None. unfold calculate_send_cost.
    by destruct (priority_factor_at priority). }
  split_and!; [done| | |].
  - intros Hneg. unfold calculate_send_cost, priority_factor_at.
    rewrite decide_False by lia. rewrite decide_True by lia.
    by rewrite (decide_True (P := (0 ≤ priority + 4)%Z)) by lia.
  - intros sender msg_id now Hsender.
    unfold process_message_send, get_account. by rewrite Hsender.
  - intros sender msg_id now [a Ha] Hrange.
    unfold process_message_send, get_account. rewrite Ha.
    by rewrite (proj2 Hnone Hrange).
Qed.

(** ** Spam *)

Lemma recent_sends_snoc_other (a : EnergyAccount) tx recent_time log :
  reason tx ≠ "send" →
  filter (λ tx, reason tx = "send" ∧ recent_time ≤ timestamp tx) (log ++ [tx])
  = filter (λ tx, reason tx = "send" ∧ recent_time ≤ timestamp tx) log.
Proof.
  intros Hwhy. rewrite filter_app, filter_cons, filter_nil.
  rewrite decide_False by (by intros [? _]). by rewrite app_nil_r.
Qed.

(** [apply_spam_penalty] on an existing account: when the balance covers the
    penalty it is taken from the balance and logged with reason "penalty";
    when it does not, the call changes nothing and reports nothing.  Either
    way the send counter and the verdict of [detect_spam] stay as they
    were. *)
Theorem spam_penalty_effect (m : EnergyMarket) (node : string) (now : Qc)
    (a : EnergyAccount) :
  accounts m !! node = Some a →
  (spam_penalty m ≤ balance a →
     ∃ a', accounts (apply_spam_penalty m node now) !! node = Some a' ∧
       balance a' = balance a - spam_penalty m ∧
       total_spent a' = total_spent a + spam_penalty m ∧
       messages_sent a' = messages_sent a ∧
       reason <$> transactions a' = (reason <$> transactions a) ++ ["penalty"]) ∧
  (balance a < spam_penalty m → apply_spam_penalty m node now = m) ∧
  (∀ window max_messages t,
     detect_spam (apply_spam_penalty m node now) node window max_messages t
     = detect_spam m node window max_messages t).
Proof.
  intros Ha. unfold apply_spam_penalty, get_account. rewrite Ha. split_and!.
  - intros Hafford. eexists. split; [simpl; by rewrite lookup_insert_eq|].
    unfold debit, can_afford. rewrite bool_decide_eq_true_2 by done. simpl.
    split_and!; [done..|]. by rewrite fmap_app.
  - intros Hpoor. unfold debit, can_afford.
    rewrite bool_decide_eq_false_2 by (by apply Qclt_not_le). simpl.
    unfold set_account. rewrite insert_id by done. by destruct m.
  - intros window max_messages t. unfold detect_spam, get_account. simpl.
    rewrite lookup_insert_eq, Ha. unfold debit.
    destruct (negb (can_afford a (spam_penalty m))); [done|]. simpl.
    unfold recent_sends. simpl. by rewrite (recent_sends_snoc_other a).
Qed.

Lemma spam_penalty_effect_witness :
  apply_spam_penalty
    (run_market [CreateAccount "Dave" (Py.dec 20 1) false] EnergyMarket_init)
    "Dave" 0
  = run_market [CreateAccount "Dave" (Py.dec 20 1) false] EnergyMarket_init.
Proof.
  assert (accounts (run_market [CreateAccount "Dave" (Py.dec 20 1) false]
                      EnergyMarket_init) !! "Dave"
          = Some (EnergyMarket_create_account "Dave" (Py.dec 20 1) false)) as Hdave
    by (vm_compute; reflexivity).
  assert (balance (EnergyMarket_create_account "Dave" (Py.dec 20 1) false)
          < spam_penalty (run_market [CreateAccount "Dave" (Py.dec 20 1) false]
                            EnergyMarket_init)) as Hpoor
    by (by vm_compute).
  exact (proj1 (proj2 (spam_penalty_effect _ "Dave" 0 _ Hdave)) Hpoor).
Defined.

(** ** The energy total *)

(** The balances handed to [create_account] in a history, added up in the
    order of the calls. *)
Definition created_energy (start : Qc) (ops : list market_op) : Qc :=
  foldl (λ total op,
    match op with
    | CreateAccount _ initial _ => total + initial
    | _ => total
    end) start ops.

Lemma total_energy_run ops : ∀ m,
  total_energy_in_system (run_market ops m)
  = created_energy (total_energy_in_system m) ops ∧
  base_send_cost (run_market ops m) = base_send_cost m ∧
  spam_penalty (run_market ops m) = spam_penalty m.
Proof.
  induction ops as [|op ops IH]; intros m; [done|].
  simpl. destruct (IH (apply_market_op m op)) as (-> & -> & ->).
  destruct op as [node initial plugged|sender msg size prio hops now
    |node msg cost now|node now|target clock]; simpl; [done| | | |done].
  - unfold process_message_send.
    destruct (get_account m sender); [|done].
    by destruct (calculate_send_cost m size prio hops).
  - unfold process_relay. by destruct (get_account m node).
  - unfold apply_spam_penalty. by destruct (get_account m node).
Qed.

(** [total_energy_in_system] after any history of a market is the sum of the
    balances passed to [create_account], those of accounts replaced by a
    later [create_account] of the same identity included: no send, relay,
    penalty or rebalancing changes it.  The base send cost stays 100 and the
    spam penalty 50. *)
Theorem total_energy_counts_creations_only (ops : list market_op) :
  total_energy_in_system (run_market ops EnergyMarket_init) = created_energy 0 ops ∧
  base_send_cost (run_market ops EnergyMarket_init) = Py.dec 100 1 ∧
  spam_penalty (run_market ops EnergyMarket_init) = Py.dec 50 1.
Proof. apply (total_energy_run ops EnergyMarket_init). Qed.

End Market.

(* ===================================================================== *)
(** * node.py: the relay queue and the life of a node *)
(* ===================================================================== *)

Module Relay.

Import Message Node.

(** [self.relay_queue = ...] and the stats and account untouched. *)
Definition set_relay_queue (self : MeshNode) (queue : list Message) : MeshNode :=
  mkNode (config self) (node_id self) (router self) (energy_account self)
    (neighbors self) (network_graph self) (outgoing_queue self)
    queue (received_messages self) (stats self) (seen_message_ids self).

(** [route and len(route) > 1]. *)
Definition usable (route : option (list string)) : bool :=
  match route with
  | Some r => bool_decide (1 < length r)%nat
  | None => false
  end.

Section Queue.

Variable iteration : gset string → list string.
Variable float_repr : Qc → string.

(** The comparison [list.remove] makes between a member and its argument:
    the same object, or [==] of the dataclass, which compares the headers
    and with them the message ids. *)
Variable message_eq : Message → Message → bool.

(** [list.remove(x)]: the list without its first member equal to [x];
    [None] is the [ValueError] when there is none. *)
Fixpoint list_remove (x : Message) (l : list Message) : option (list Message) :=
  match l with
  | [] => None
  | y :: l' =>
      if message_eq y x then Some l'
      else list_remove x l' ≫= λ r, Some (y :: r)
  end.

(** The loop of [process_relay_queue] (node.py, lines 175-186) over the copy
    of the queue taken when it starts. *)
Fixpoint relay_loop (pending messages_to_forward : list Message)
    (self : MeshNode) : option (list Message * MeshNode) :=
  match pending with
  | [] => Some (messages_to_forward, self)
  | msg :: rest =>
      let route :=
        Routing.find_route iteration (router self) (recipient_id (header msg))
          (network_graph self) in
      if usable route then
        list_remove msg (relay_queue self) ≫= λ queue,
          relay_loop rest (messages_to_forward ++ [msg]) (set_relay_queue self queue)
      else if is_expired msg then
        list_remove msg (relay_queue self) ≫= λ queue,
          relay_loop rest messages_to_forward
            (count_dropped (set_relay_queue self queue))
      else relay_loop rest messages_to_forward self
  end.

(** [MeshNode.process_relay_queue] (node.py, lines 169-188): the list it
    returns and the node after the call. *)
Definition process_relay_queue (self : MeshNode)
    : option (list Message * MeshNode) :=
  relay_loop (relay_queue self) [] self.

(** The calls on a node.  A message handed to [receive_message] is the
    node's own from then on: nobody else mutates the object while the node
    holds it. *)
Inductive node_op :=
  | UpdateNeighbors (nbrs : gset string)
  | UpdateNetworkGraph (graph : gmap string (gset string))
  | SendMessage (uuid : string) (t_create t_debit : Qc)
      (recipient content : string) (prio : MessagePriority)
  | ReceiveMessage (uuid : string) (now : Qc) (msg : Message)
  | ProcessRelayQueue.

Definition apply_node_op (self : MeshNode) (op : node_op) : option MeshNode :=
  match op with
  | UpdateNeighbors nbrs => Some (update_neighbors self nbrs)
  | UpdateNetworkGraph graph => Some (update_network_graph self graph)
  | SendMessage uuid t_create t_debit recipient content prio =>
      Some (send_message iteration float_repr uuid t_create t_debit self
              recipient content prio).2
  | ReceiveMessage uuid now msg =>
      Some (receive_message float_repr uuid now self msg).1.2
  | ProcessRelayQueue => snd <$> process_relay_queue self
  end.

(** A history of calls; [None] when one of them raises. *)
Fixpoint run_node (ops : list node_op) (self : MeshNode) : option MeshNode :=
  match ops with
  | [] => Some self
  | op :: ops' => apply_node_op self op ≫= run_node ops'
  end.

End Queue.

(** ** What [process_relay_queue] does to the queue *)

(** The identities of the messages of a queue. *)
Definition queue_ids (queue : list Message) : list string :=
  (λ m, message_id (header m)) <$> queue.

(** The node with its relay queue replaced and [n] more drops counted. *)
Definition relay_outcome (self : MeshNode) (queue : list Message) (n : Z)
    : MeshNode :=
  mkNode (config self) (node_id self) (router self) (energy_account self)
    (neighbors self) (network_graph self) (outgoing_queue self)
    queue (received_messages self)
    (mkStats (messages_sent (stats self)) (messages_relayed (stats self))
       (messages_received (stats self)) (messages_dropped (stats self) + n)
       (relay_queue_full (stats self)))
    (seen_message_ids self).

Lemma relay_outcome_id (self : MeshNode) :
  relay_outcome self (relay_queue self) 0 = self.
Proof.
  destruct self as [? ? ? ? ? ? ? ? ? [] ?]. unfold relay_outcome. simpl.
  by rewrite Z.add_0_r.
Qed.

Lemma relay_outcome_queue self queue n queue' :
  set_relay_queue (relay_outcome self queue n) queue' = relay_outcome self queue' n.
Proof. done. Qed.

Lemma relay_outcome_drop self queue n queue' :
  count_dropped (set_relay_queue (relay_outcome self queue n) queue')
  = relay_outcome self queue' (n + 1).
Proof. unfold relay_outcome, count_dropped. simpl. do 2 f_equal. lia. Qed.

Section QueueFacts.

Variable iteration : gset string → list string.
Variable message_eq : Message → Message → bool.

(** Whether the loop finds a usable route for a message: it asks the router
    and the view, which the loop does not change. *)
Definition forwardable (self : MeshNode) (msg : Message) : bool :=
  usable (Routing.find_route iteration (router self) (recipient_id (header msg))
            (network_graph self)).

Hypothesis message_eq_refl : ∀ m, message_eq m m = true.
Hypothesis message_eq_id : ∀ a b,
  message_eq a b = true → message_id (header a) = message_id (header b).

Lemma list_remove_middle (kept : list Message) (msg : Message) (rest : list Message) :
  message_id (header msg) ∉ queue_ids kept →
  list_remove message_eq msg (kept ++ msg :: rest) = Some (kept ++ rest).
Proof.
  induction kept as [|y kept IH]; intros Hfresh; simpl.
  - by rewrite message_eq_refl.
  - unfold queue_ids in Hfresh. rewrite fmap_cons, not_elem_of_cons in Hfresh.
    destruct Hfresh as [Hy Hfresh].
    destruct (message_eq y msg) eqn:Heq.
    + apply message_eq_id in Heq. congruence.
    + by rewrite (IH Hfresh).
Qed.

Lemma relay_loop_spec (self : MeshNode) (pending : list Message) :
  ∀ (kept forward : list Message) (n : Z),
  NoDup (queue_ids (kept ++ pending)) →
  relay_loop iteration message_eq pending forward
    (relay_outcome self (kept ++ pending) n)
  = Some
      (forward ++ filter (λ m, forwardable self m = true) pending,
       relay_outcome self
         (kept ++ filter (λ m, forwardable self m = false ∧ is_expired m = false)
                    pending)
         (n + Z.of_nat (length
                 (filter (λ m, forwardable self m = false ∧ is_expired m = true)
                    pending)))).
Proof.
  induction pending as [|msg rest IH]; intros kept forward n Hids.
  { simpl. by rewrite !app_nil_r, Z.add_0_r. }
  assert (message_id (header msg) ∉ queue_ids kept) as Hfresh.
  { unfold queue_ids in *. rewrite fmap_app, fmap_cons in Hids.
    apply NoDup_app in Hids as (_ & Hdisj & _). intros Hin.
    apply (Hdisj _ Hin). by left. }
  assert (NoDup (queue_ids (kept ++ rest))) as Hids'.
  { unfold queue_ids in *. rewrite fmap_app, fmap_cons in Hids.
    rewrite fmap_app. apply NoDup_app in Hids as (Hk & Hdisj & Hr).
    apply NoDup_cons in Hr as [_ Hr]. apply NoDup_app. split_and!; [done| |done].
    intros x Hx Hx'. apply (Hdisj x Hx). by right. }
  assert (NoDup (queue_ids ((kept ++ [msg]) ++ rest))) as Hids''.
  { by rewrite <- app_assoc. }
  cbn [relay_loop].
  change (usable _) with (forwardable self msg).
  rewrite !filter_cons.
  destruct (forwardable self msg) eqn:Hroute.
  - cbn [relay_queue relay_outcome]. rewrite (list_remove_middle kept msg rest Hfresh).
    cbn [mbind option_bind]. rewrite relay_outcome_queue.
    rewrite (IH kept (forward ++ [msg]) n Hids').
    rewrite decide_True by done.
    rewrite decide_False by (by intros [? _]).
    rewrite decide_False by (by intros [? _]).
    by rewrite <- app_assoc.
  - rewrite decide_False by done.
    destruct (is_expired msg) eqn:Hexpired.
    + cbn [relay_queue relay_outcome].
      rewrite (list_remove_middle kept msg rest Hfresh).
      cbn [mbind option_bind]. rewrite relay_outcome_drop.
      rewrite (IH kept forward (n + 1)%Z Hids').
      rewrite decide_False by (by intros [_ ?]).
      rewrite decide_True by done.
      do 3 f_equal. rewrite length_cons. lia.
    + replace (kept ++ msg :: rest) with ((kept ++ [msg]) ++ rest)
        by (by rewrite <- app_assoc).
      rewrite (IH (kept ++ [msg]) forward n Hids'').
      rewrite decide_True by done.
      rewrite decide_False by (by intros [_ ?]).
      by rewrite <- app_assoc.
Qed.

(** When the messages of the relay queue have pairwise different ids,
    [process_relay_queue] does not raise; it returns, in queue order, the
    messages for whose recipient [find_route] gives a route of more than one
    node, whether they are expired or not; it leaves in the queue, in order,
    the messages without such a route that are not expired; it counts one
    drop for every message without a route that is expired; and it changes
    nothing else of the node. *)
Theorem process_relay_queue_sorts_queue (self : MeshNode) :
  NoDup (queue_ids (relay_queue self)) →
  process_relay_queue iteration message_eq self
  = Some
      (filter (λ m, forwardable self m = true) (relay_queue self),
       relay_outcome self
         (filter (λ m, forwardable self m = false ∧ is_expired m = false)
            (relay_queue self))
         (Z.of_nat (length
            (filter (λ m, forwardable self m = false ∧ is_expired m = true)
               (relay_queue self))))).
Proof.
  intros Hids. unfold process_relay_queue.
  pose proof (relay_loop_spec self (relay_queue self) [] [] 0 Hids) as Hloop.
  cbn [app] in Hloop. rewrite relay_outcome_id, Z.add_0_l in Hloop. exact Hloop.
Qed.

End QueueFacts.

(** ** What a node keeps through its life *)

(** What [process_relay_queue] may change: the relay queue, which can only
    lose members, and the drop counter, which can only grow. *)
Definition queue_step (self self' : MeshNode) : Prop :=
  config self' = config self ∧ node_id self' = node_id self ∧
  router self' = router self ∧ energy_account self' = energy_account self ∧
  neighbors self' = neighbors self ∧ network_graph self' = network_graph self ∧
  outgoing_queue self' = outgoing_queue self ∧
  received_messages self' = received_messages self ∧
  seen_message_ids self' = seen_message_ids self ∧
  messages_sent (stats self') = messages_sent (stats self) ∧
  messages_relayed (stats self') = messages_relayed (stats self) ∧
  messages_received (stats self') = messages_received (stats self) ∧
  relay_queue_full (stats self') = relay_queue_full (stats self) ∧
  (messages_dropped (stats self) ≤ messages_dropped (stats self'))%Z ∧
  relay_queue self' `sublist_of` relay_queue self.

Lemma queue_step_refl self : queue_step self self.
Proof. unfold queue_step. by split_and!. Qed.

Lemma queue_step_trans a b c : queue_step a b → queue_step b c → queue_step a c.
Proof.
  unfold queue_step. intros Hab Hbc. destruct_and!.
  split_and!; try congruence; [lia|by etrans].
Qed.

Section History.

Variable iteration : gset string → list string.
Variable float_repr : Qc → string.
Variable message_eq : Message → Message → bool.

Lemma list_remove_sublist (x : Message) (l r : list Message) :
  list_remove message_eq x l = Some r → r `sublist_of` l.
Proof.
  revert r. induction l as [|y l IH]; intros r; simpl; [done|].
  destruct (message_eq y x).
  - intros [= <-]. by apply sublist_cons.
  - destruct (list_remove message_eq x l) as [r'|]; simpl; [|done].
    intros [= <-]. apply sublist_skip. by apply IH.
Qed.

Lemma relay_loop_step (pending : list Message) :
  ∀ forward self out self',
  relay_loop iteration message_eq pending forward self = Some (out, self') →
  queue_step self self'.
Proof.
  induction pending as [|msg rest IH]; intros forward self out self'; simpl.
  { intros [= _ <-]. apply queue_step_refl. }
  destruct (usable _).
  - destruct (list_remove message_eq msg (relay_queue self)) as [queue|] eqn:Hrm;
      simpl; [|done].
    intros Hloop%IH. eapply queue_step_trans; [|exact Hloop].
    unfold queue_step. simpl. split_and!; try done.
    by eapply list_remove_sublist.
  - destruct (is_expired msg); [|by apply IH].
    destruct (list_remove message_eq msg (relay_queue self)) as [queue|] eqn:Hrm;
      simpl; [|done].
    intros Hloop%IH. eapply queue_step_trans; [|exact Hloop].
    unfold queue_step. simpl. split_and!; try done; [lia|].
    by eapply list_remove_sublist.
Qed.

(** The relay queue of a node. *)
Definition queue_ok (self : MeshNode) : Prop :=
  NoDup (queue_ids (relay_queue self)) ∧
  (Z.of_nat (length (relay_queue self))
   ≤ Z.max 0 (max_relay_queue (config self)))%Z ∧
  ∀ m, m ∈ relay_queue self →
    message_id (header m) ∈ seen_message_ids self ∧
    node_id self ∈ hops_taken m ∧
    recipient_id (header m) ≠ node_id self ∧
    (0 ≤ ttl (header m))%Z.

(** The counters of a node, its account and its other lists. *)
Definition counters_ok (self : MeshNode) : Prop :=
  messages_sent (stats self) = Energy.messages_sent (energy_account self) ∧
  messages_relayed (stats self) = Energy.messages_relayed (energy_account self) ∧
  messages_received (stats self) = Z.of_nat (length (received_messages self)) ∧
  Energy.messages_received (energy_account self) = 0%Z ∧
  (0 ≤ relay_queue_full (stats self) ≤ messages_dropped (stats self))%Z ∧
  (∀ m, m ∈ received_messages self →
     recipient_id (header m) = node_id self ∧
     message_id (header m) ∈ seen_message_ids self) ∧
  (∀ m, m ∈ outgoing_queue self → sender_id (header m) = node_id self).

Definition node_ok (cfg : NodeConfig) (self : MeshNode) : Prop :=
  config self = cfg ∧ node_id self = config_node_id cfg ∧
  queue_ok self ∧ counters_ok self.

Lemma node_ok_init cfg : node_ok cfg (MeshNode_init cfg).
Proof.
  unfold node_ok, queue_ok, counters_ok. simpl.
  split_and!; try done; try lia; try apply NoDup_nil_2;
    intros m Hm; by apply elem_of_nil in Hm.
Qed.

Lemma node_ok_queue_step cfg self self' :
  queue_step self self' → node_ok cfg self → node_ok cfg self'.
Proof.
  unfold queue_step, node_ok, queue_ok, counters_ok.
  intros Hstep Hok. destruct_and!.
  repeat match goal with H : _ self' = _ |- _ => rewrite H end.
  split_and!; try done; try lia.
  - eapply sublist_NoDup; [done|]. by apply fmap_sublist.
  - assert (length (relay_queue self') ≤ length (relay_queue self))%nat
      by by apply sublist_length.
    lia.
  - intros m Hm. assert (m ∈ relay_queue self) as Hin.
    { eapply elem_of_submseteq; [exact Hm|]. by apply sublist_submseteq. }
    by auto.
Qed.

Lemma node_ok_send cfg self uuid t_create t_debit recipient content prio :
  node_ok cfg self →
  node_ok cfg (send_message iteration float_repr uuid t_create t_debit self
                 recipient content prio).2.
Proof.
  intros Hok. unfold send_message.
  destruct (negb (Energy.can_afford _ _)) eqn:Hafford; [done|].
  destruct (Routing.find_route _ _ _ _) as [[|hop route]|]; [done| |done].
  destruct Hok as (Hcfg & Hid & (Hids & Hlen & Hentries) & Hsent & Hrelayed
                   & Hreceived & Hacc & Hfull & Hmine & Hout).
  unfold node_ok, queue_ok, counters_ok. simpl.
  unfold Energy.debit. rewrite Hafford. simpl.
  split_and!; try done; try lia.
  intros m [Hm|Hm]%elem_of_app; [by apply Hout|].
  apply list_elem_of_singleton in Hm as ->. done.
Qed.

Lemma node_ok_receive cfg self uuid now msg :
  node_ok cfg self →
  node_ok cfg (receive_message float_repr uuid now self msg).1.2.
Proof.
  intros (Hcfg & Hid & (Hids & Hlen & Hentries) & Hsent & Hrelayed & Hreceived
          & Hacc & Hfull & Hmine & Hout).
  unfold receive_message.
  destruct (decide (message_id (header msg) ∈ seen_message_ids self)) as [Hseen|Hnew].
  { unfold node_ok, queue_ok, counters_ok. simpl. split_and!; try done; lia. }
  assert (∀ m, m ∈ relay_queue self →
            message_id (header m) ∈ {[message_id (header msg)]} ∪ seen_message_ids self ∧
            node_id self ∈ hops_taken m ∧
            recipient_id (header m) ≠ node_id self ∧ (0 ≤ ttl (header m))%Z)
    as Hentries'.
  { intros m Hm. destruct (Hentries m Hm) as (? & ? & ? & ?).
    split_and!; try done. set_solver. }
  assert (∀ m, m ∈ received_messages self →
            recipient_id (header m) = node_id self ∧
            message_id (header m) ∈ {[message_id (header msg)]} ∪ seen_message_ids self)
    as Hmine'.
  { intros m Hm. destruct (Hmine m Hm). split; [done|set_solver]. }
  cbn [mark_seen node_id config relay_queue].
  destruct (decide (recipient_id (header msg) = node_id self)) as [Hself|Hother].
  { unfold node_ok, queue_ok, counters_ok. simpl.
    split_and!; try done; try lia.
    - rewrite Hreceived, length_app. simpl. lia.
    - intros m [Hm|Hm]%elem_of_app; [by apply Hmine'|].
      apply list_elem_of_singleton in Hm as ->. split; [done|set_solver].
    - intros m [Hm|Hm]%elem_of_app; [by apply Hout|].
      by apply list_elem_of_singleton in Hm as ->. }
  destruct (negb (enable_relay (config self))).
  { unfold node_ok, queue_ok, counters_ok. simpl. split_and!; try done; lia. }
  destruct (negb (should_relay msg (node_id self))) eqn:Hrelay.
  { unfold node_ok, queue_ok, counters_ok. simpl. split_and!; try done; lia. }
  destruct (bool_decide (max_relay_queue (config self)
                         ≤ Z.of_nat (length (relay_queue self)))%Z) eqn:Hfullq.
  { unfold node_ok, queue_ok, counters_ok. simpl. split_and!; try done; lia. }
  apply bool_decide_eq_false in Hfullq. apply negb_false_iff in Hrelay.
  unfold should_relay, is_expired in Hrelay.
  destruct (bool_decide (ttl (header msg) ≤ 0)%Z) eqn:Httl; [done|].
  apply bool_decide_eq_false in Httl.
  unfold node_ok, queue_ok, counters_ok. simpl.
  split_and!; try done; try lia.
  - unfold queue_ids. rewrite fmap_app. simpl. apply NoDup_app. split_and!.
    + done.
    + intros id Hid' Hin. apply list_elem_of_singleton in Hin as ->.
      apply list_elem_of_fmap in Hid' as (m & Hm & Hin).
      destruct (Hentries m Hin) as (? & _). congruence.
    + apply NoDup_singleton.
  - rewrite length_app. simpl. lia.
  - intros m [Hm|Hm]%elem_of_app; [by apply Hentries'|].
    apply list_elem_of_singleton in Hm as ->. simpl.
    split_and!; [set_solver|set_solver|done|lia].
Qed.

Lemma node_ok_op cfg self op self' :
  node_ok cfg self →
  apply_node_op iteration float_repr message_eq self op = Some self' →
  node_ok cfg self'.
Proof.
  intros Hok. destruct op; simpl.
  - intros [= <-]. done.
  - intros [= <-]. done.
  - intros [= <-]. by apply node_ok_send.
  - intros [= <-]. by apply node_ok_receive.
  - unfold process_relay_queue.
    destruct (relay_loop _ _ _ _ _) as [[out self'']|] eqn:Hloop; simpl; [|done].
    intros [= <-]. apply relay_loop_step in Hloop.
    by eapply node_ok_queue_step.
Qed.

Lemma node_ok_run cfg ops : ∀ self self',
  node_ok cfg self →
  run_node iteration float_repr message_eq ops self = Some self' →
  node_ok cfg self'.
Proof.
  induction ops as [|op ops IH]; intros self self' Hok; simpl.
  { by intros [= <-]. }
  destruct (apply_node_op _ _ _ self op) as [self1|] eqn:Hop; simpl; [|done].
  apply IH. by eapply node_ok_op.
Qed.

End History.

Lemma process_relay_queue_returns (iteration : gset string → list string)
    (message_eq : Message → Message → bool) (self : MeshNode) :
  (∀ m, message_eq m m = true) →
  (∀ a b, message_eq a b = true → message_id (header a) = message_id (header b)) →
  NoDup (queue_ids (relay_queue self)) →
  is_Some (process_relay_queue iteration message_eq self).
Proof.
  intros Hrefl Hid Hids. unfold process_relay_queue.
  pose proof (relay_loop_spec iteration message_eq Hrefl Hid self
                (relay_queue self) [] [] 0 Hids) as Hloop.
  cbn [app] in Hloop. rewrite relay_outcome_id in Hloop. by rewrite Hloop.
Qed.

(** No history of calls on a new node raises, and after it: the messages of
    the relay queue have pairwise different ids, all of them seen; the queue
    holds at most [max_relay_queue] messages (none when that is negative);
    every queued message has this node among its hops, another node as
    recipient and a TTL that is not negative. *)
Theorem node_history_keeps_queue_sound (iteration : gset string → list string)
    (float_repr : Qc → string) (message_eq : Message → Message → bool)
    (cfg : NodeConfig) (ops : list node_op) :
  (∀ m, message_eq m m = true) →
  (∀ a b, message_eq a b = true → message_id (header a) = message_id (header b)) →
  ∃ self',
    run_node iteration float_repr message_eq ops (MeshNode_init cfg) = Some self' ∧
    config self' = cfg ∧ node_id self' = config_node_id cfg ∧
    NoDup (queue_ids (relay_queue self')) ∧
    (Z.of_nat (length (relay_queue self')) ≤ Z.max 0 (max_relay_queue cfg))%Z ∧
    ∀ m, m ∈ relay_queue self' →
      message_id (header m) ∈ seen_message_ids self' ∧
      node_id self' ∈ hops_taken m ∧
      recipient_id (header m) ≠ node_id self' ∧
      (0 ≤ ttl (header m))%Z.
Proof.
  intros Hrefl Hid.
  assert (∀ self, node_ok cfg self →
            ∃ self', run_node iteration float_repr message_eq ops self = Some self'
                     ∧ node_ok cfg self') as Hrun.
  { induction ops as [|op ops IH]; intros self Hok; simpl; [by exists self|].
    assert (is_Some (apply_node_op iteration float_repr message_eq self op))
      as [self1 Hop].
    { destruct op; simpl; try done.
      destruct (process_relay_queue_returns iteration message_eq self Hrefl Hid)
        as [r Hr]; [apply Hok|].
      by rewrite Hr. }
    rewrite Hop. simpl. apply IH. by eapply node_ok_op. }
  destruct (Hrun _ (node_ok_init cfg))
    as (self' & Hself' & Hcfg & Hnode & (Hids & Hlen & Hentries) & _).
  exists self'. rewrite Hcfg in Hlen. by split_and!.
Qed.

(** After any history of calls on a new node that has not raised: the
    node's sent and relayed counters are those of its energy account, its
    received counter is the length of [received_messages], while the
    account's own received counter is still 0; the queue-full counter is at
    most the drop counter; every received message is addressed to this node
    and seen; every message of the outgoing queue has this node as sender. *)
Theorem node_counters_agree (iteration : gset string → list string)
    (float_repr : Qc → string) (message_eq : Message → Message → bool)
    (cfg : NodeConfig) (ops : list node_op) (self' : MeshNode) :
  run_node iteration float_repr message_eq ops (MeshNode_init cfg) = Some self' →
  messages_sent (stats self') = Energy.messages_sent (energy_account self') ∧
  messages_relayed (stats self') = Energy.messages_relayed (energy_account self') ∧
  messages_received (stats self') = Z.of_nat (length (received_messages self')) ∧
  Energy.messages_received (energy_account self') = 0%Z ∧
  (0 ≤ relay_queue_full (stats self') ≤ messages_dropped (stats self'))%Z ∧
  (∀ m, m ∈ received_messages self' →
     recipient_id (header m) = node_id self' ∧
     message_id (header m) ∈ seen_message_ids self') ∧
  (∀ m, m ∈ outgoing_queue self' → sender_id (header m) = node_id self').
Proof.
  intros Hrun.
  by destruct (node_ok_run iteration float_repr message_eq cfg ops _ _
                 (node_ok_init cfg) Hrun) as (_ & _ & _ & Hcounters).
Qed.


(** ** A relay at work *)

(** A comparison that has the two properties used: that of the message
    ids. *)
Definition same_id (a b : Message) : bool :=
  String.eqb (message_id (header a)) (message_id (header b)).

Lemma same_id_refl (m : Message) : same_id m m = true.
Proof. apply String.eqb_refl. Qed.

Lemma same_id_id (a b : Message) :
  same_id a b = true → message_id (header a) = message_id (header b).
Proof. apply String.eqb_eq. Qed.

(** B on the line after A's message for D has arrived. *)
Definition bob_relaying : MeshNode :=
  (receive_message no_float_repr "ack-1" 1 (bob false) secret_message).1.2.

Lemma bob_relaying_ids : NoDup (queue_ids (relay_queue bob_relaying)).
Proof. vm_compute. apply NoDup_singleton. Qed.

Lemma process_relay_queue_sorts_queue_witness :
  process_relay_queue elements same_id bob_relaying
  = Some
      (filter (λ m, forwardable elements bob_relaying m = true)
         (relay_queue bob_relaying),
       relay_outcome bob_relaying
         (filter (λ m, forwardable elements bob_relaying m = false
                       ∧ is_expired m = false)
            (relay_queue bob_relaying))
         (Z.of_nat (length
            (filter (λ m, forwardable elements bob_relaying m = false
                          ∧ is_expired m = true)
               (relay_queue bob_relaying))))).
Proof.
  exact (process_relay_queue_sorts_queue elements same_id same_id_refl same_id_id
           bob_relaying bob_relaying_ids).
Defined.

(** The message is handed on and the queue is empty again. *)
Example bob_forwards_the_message :
  (λ r : list Message * MeshNode, (queue_ids (r.1), length (relay_queue (r.2))))
    <$> process_relay_queue elements same_id bob_relaying
  = Some (["msg-1"], 0%nat).
Proof. vm_compute. reflexivity. Qed.

(** The life of B: it learns the line, relays A's message, hands it on and
    sends a message of its own. *)
Definition bob_history : list node_op :=
  [ UpdateNeighbors {[ "A"; "C" ]};
    UpdateNetworkGraph Routing.line_view;
    ReceiveMessage "ack-1" 1 secret_message;
    ProcessRelayQueue;
    SendMessage "msg-2" 2 2 "A" "hello" NORMAL ].

Definition bob_after : MeshNode :=
  default (MeshNode_init (NodeConfig_default "B" false))
    (run_node elements no_float_repr same_id bob_history
       (MeshNode_init (NodeConfig_default "B" false))).

Lemma bob_after_run :
  run_node elements no_float_repr same_id bob_history
    (MeshNode_init (NodeConfig_default "B" false)) = Some bob_after.
Proof. vm_compute. reflexivity. Qed.

Lemma node_history_keeps_queue_sound_witness :
  ∃ self',
    run_node elements no_float_repr same_id bob_history
      (MeshNode_init (NodeConfig_default "B" false)) = Some self' ∧
    config self' = NodeConfig_default "B" false ∧
    node_id self' = config_node_id (NodeConfig_default "B" false) ∧
    NoDup (queue_ids (relay_queue self')) ∧
    (Z.of_nat (length (relay_queue self'))
     ≤ Z.max 0 (max_relay_queue (NodeConfig_default "B" false)))%Z ∧
    ∀ m, m ∈ relay_queue self' →
      message_id (header m) ∈ seen_message_ids self' ∧
      node_id self' ∈ hops_taken m ∧
      recipient_id (header m) ≠ node_id self' ∧
      (0 ≤ ttl (header m))%Z.
Proof.
  exact (node_history_keeps_queue_sound elements no_float_repr same_id
           (NodeConfig_default "B" false) bob_history same_id_refl same_id_id).
Defined.

Lemma node_counters_agree_witness :
  messages_sent (stats bob_after) = Energy.messages_sent (energy_account bob_after) ∧
  messages_relayed (stats bob_after)
  = Energy.messages_relayed (energy_account bob_after).
Proof.
  pose proof (node_counters_agree elements no_float_repr same_id
                (NodeConfig_default "B" false) bob_history bob_after bob_after_run)
    as (Hsent & Hrelayed & _).
  exact (conj Hsent Hrelayed).
Defined.

(** B has sent one message and relayed one. *)
Example bob_after_counters :
  messages_sent (stats bob_after) = 1%Z ∧ messages_relayed (stats bob_after) = 1%Z ∧
  length (outgoing_queue bob_after) = 1%nat ∧ relay_queue bob_after = [].
Proof. vm_compute. by split_and!. Qed.

End Relay.

(* ===================================================================== *)
(** * message.py: a message on its way *)
(* ===================================================================== *)

Module Delivery.

Import Message.

Lemma should_relay_true (m : Message) (node : string) :
  should_relay m node = true
  ↔ (0 < ttl (header m))%Z ∧ recipient_id (header m) ≠ node ∧ node ∉ hops_taken m.
Proof.
  unfold should_relay, is_expired. case_bool_decide.
  { split; [done|]. lia. }
  repeat case_decide; split; try done; try tauto.
  intros _. split_and!; [lia|done..].
Qed.

Lemma observed_fields (m m' : Message) :
  observed m m' →
  (ttl (header m') ≤ ttl (header m))%Z ∧
  (∃ more, hops_taken m' = hops_taken m ++ more) ∧
  message_id (header m') = message_id (header m) ∧
  sender_id (header m') = sender_id (header m) ∧
  recipient_id (header m') = recipient_id (header m) ∧
  payload m' = payload m.
Proof.
  induction 1 as [|m' node _ (Httl & [more Hhops] & Hid & Hsender & Hrecipient & Hpayload)].
  - split_and!; try done. exists []. by rewrite app_nil_r.
  - simpl. split_and!; try done; [lia|].
    exists (more ++ [node]). by rewrite Hhops, <- app_assoc.
Qed.

(** Along a delivery path a refusal is final: once [should_relay] is false
    for a node it stays false for that node however many hops follow, an
    expired message stays expired, and a node that has added its hop is
    refused from then on.  No hop changes the id, the sender, the recipient
    or the payload. *)
Theorem relay_refusal_is_final (m m' : Message) (node : string) :
  observed m m' →
  (should_relay m node = false → should_relay m' node = false) ∧
  (is_expired m = true → is_expired m' = true) ∧
  (∀ m'', observed (add_hop node m') m'' → should_relay m'' node = false) ∧
  message_id (header m') = message_id (header m) ∧
  sender_id (header m') = sender_id (header m) ∧
  recipient_id (header m') = recipient_id (header m) ∧
  payload m' = payload m.
Proof.
  intros Hobs.
  destruct (observed_fields m m' Hobs)
    as (Httl & [more Hhops] & Hid & Hsender & Hrecipient & Hpayload).
  assert (∀ a b, observed a b → should_relay a node = false →
            should_relay b node = false) as Hfinal.
  { intros a b Hab.
    destruct (observed_fields a b Hab) as (Hle & [extra Hh] & _ & _ & Hr & _).
    rewrite <- !not_true_iff_false, !should_relay_true, Hr, Hh.
    intros Hno (Hlive & Hnot_recipient & Hnew). apply Hno.
    split_and!; [lia|done|]. intros Hin. apply Hnew.
    apply elem_of_app. by left. }
  split_and!; try done.
  - by apply Hfinal.
  - unfold is_expired. rewrite !bool_decide_eq_true. lia.
  - intros m'' Hlater. apply (Hfinal _ _ Hlater).
    rewrite <- not_true_iff_false, should_relay_true. simpl.
    intros (_ & _ & Hnew). apply Hnew. apply elem_of_app. right. by left.
Qed.

Lemma relay_refusal_is_final_witness :
  should_relay
    (add_hop "C" (add_hop "B" (add_hop "A"
       (create_text_message "msg-1" 0 "A" "D" "secret" NORMAL)))) "A" = false.
Proof.
  assert (observed
            (add_hop "A" (create_text_message "msg-1" 0 "A" "D" "secret" NORMAL))
            (add_hop "C" (add_hop "B" (add_hop "A"
               (create_text_message "msg-1" 0 "A" "D" "secret" NORMAL)))))
    as Hpath by repeat constructor.
  exact (proj1 (relay_refusal_is_final _ _ "A" Hpath) eq_refl).
Defined.

End Delivery.

(* ===================================================================== *)
(** * onion.py: packets on the wire, and building an onion *)
(* ===================================================================== *)

Module OnionWire.

Import Json Onion.

(** ** Hexadecimal text *)

(** [bytes.hex()]: two lower-case digits per byte. *)
Definition hex_byte (b : Byte.byte) : string :=
  String (hex_digit (Byte.to_nat b / 16))
    (String (hex_digit (Byte.to_nat b mod 16)) "").

Fixpoint hex (data : list Byte.byte) : string :=
  match data with
  | [] => ""
  | b :: rest => hex_byte b +:+ hex rest
  end.

(** The value of a hexadecimal digit, of either case. *)
Definition hex_value (c : ascii) : option nat :=
  let n := nat_of_ascii c in
  if decide (48 ≤ n ≤ 57)%nat then Some (n - 48)%nat
  else if decide (97 ≤ n ≤ 102)%nat then Some (n - 87)%nat
  else if decide (65 ≤ n ≤ 70)%nat then Some (n - 55)%nat
  else None.

(** ASCII whitespace, which [bytes.fromhex] skips between bytes. *)
Definition is_space (c : ascii) : bool :=
  let n := nat_of_ascii c in
  bool_decide (n = 32 ∨ 9 ≤ n ≤ 13)%nat.

(** [bytes.fromhex(s)]; [None] is the [ValueError]. *)
Fixpoint fromhex (s : string) : option (list Byte.byte) :=
  match s with
  | EmptyString => Some []
  | String c s' =>
      if is_space c then fromhex s'
      else
        match s' with
        | EmptyString => None
        | String d s'' =>
            top ← hex_value c;
            bot ← hex_value d;
            rest ← fromhex s'';
            Some (byte_of (16 * top + bot) :: rest)
        end
  end.

(** ** Packets as dicts *)

(** [OnionLayer.to_dict] and [from_dict] (onion.py, lines 27-41). *)
Definition OnionLayer_to_dict (layer : OnionLayer) : json :=
  JObj [ ("encrypted_data", JStr (hex (encrypted_data layer)));
         ("iv", JStr (hex (iv layer)));
         ("mac", JStr (hex (mac layer))) ].

Definition OnionLayer_from_dict (data : json) : option OnionLayer :=
  e ← ((get "encrypted_data" data ≫= as_str) ≫= fromhex);
  i ← ((get "iv" data ≫= as_str) ≫= fromhex);
  m ← ((get "mac" data ≫= as_str) ≫= fromhex);
  Some (mkLayer e i m).

(** What [for l in v] visits: the members of a list, the keys of a dict, the
    characters of a string; [None] for a value that cannot be iterated. *)
Definition iterate (v : json) : option (list json) :=
  match v with
  | JArr l => Some l
  | JObj fields => Some (JStr <$> fields.*1)
  | JStr s => Some ((λ c, JStr (String c "")) <$> String.list_ascii_of_string s)
  | _ => None
  end.

(** [OnionPacket.to_dict] and [from_dict] (onion.py, lines 52-63). *)
Definition OnionPacket_to_dict (packet : OnionPacket) : json :=
  JObj [ ("layers", JArr (OnionLayer_to_dict <$> layers packet));
         ("final_payload", JStr (hex (final_payload packet))) ].

Definition OnionPacket_from_dict (data : json) : option OnionPacket :=
  ls ← ((get "layers" data ≫= iterate) ≫= mapM OnionLayer_from_dict);
  p ← ((get "final_payload" data ≫= as_str) ≫= fromhex);
  Some (mkPacket ls p).

Section Wire.

Variable float_repr : Qc → string.
Variable json_loads : string → option json.

(** [OnionPacket.to_wire_format] and [from_wire_format] (onion.py,
    lines 65-72). *)
Definition to_wire_format (packet : OnionPacket) : list Byte.byte :=
  encode (dumps float_repr (OnionPacket_to_dict packet)).

Definition from_wire_format (data : list Byte.byte) : option OnionPacket :=
  json_loads (decode data) ≫= OnionPacket_from_dict.

End Wire.

(** ** Hexadecimal round trip *)

Lemma fromhex_hex_byte (b : Byte.byte) (rest : string) :
  fromhex (hex_byte b +:+ rest) = fromhex rest ≫= λ r, Some (b :: r).
Proof. destruct b; reflexivity. Qed.

Lemma fromhex_hex (data : list Byte.byte) : fromhex (hex data) = Some data.
Proof.
  induction data as [|b data IH]; [done|].
  cbn [hex]. by rewrite fromhex_hex_byte, IH.
Qed.

Lemma hex_length (data : list Byte.byte) :
  String.length (hex data) = (2 * length data)%nat.
Proof.
  induction data as [|b data IH]; [done|].
  change (String.length (hex (b :: data)))
    with (S (S (String.length (hex data)))).
  rewrite IH. simpl. lia.
Qed.

Lemma OnionLayer_dict_inv (layer : OnionLayer) :
  OnionLayer_from_dict (OnionLayer_to_dict layer) = Some layer.
Proof.
  unfold OnionLayer_from_dict, OnionLayer_to_dict. simpl.
  rewrite !fromhex_hex. simpl. by destruct layer.
Qed.

Lemma mapM_OnionLayer_from_dict (ls : list OnionLayer) :
  mapM OnionLayer_from_dict (OnionLayer_to_dict <$> ls) = Some ls.
Proof.
  induction ls as [|layer ls IH]; [done|].
  rewrite fmap_cons. cbn [mapM]. rewrite OnionLayer_dict_inv. cbn.
  by rewrite IH.
Qed.

(** Hexadecimal text decodes back to the bytes it was made from, and so
    does a packet: [from_dict] of [to_dict] of a packet is the packet, and
    [from_wire_format] of its [to_wire_format] is the packet whenever
    [json.loads] parses what [json.dumps] printed for it back into the same
    dict.  The hexadecimal text of [n] bytes has [2 n] characters. *)
Theorem onion_packet_wire_roundtrip (float_repr : Qc → string)
    (json_loads : string → option json) (packet : OnionPacket) :
  (∀ data, fromhex (hex data) = Some data ∧
           String.length (hex data) = (2 * length data)%nat) ∧
  OnionPacket_from_dict (OnionPacket_to_dict packet) = Some packet ∧
  (json_loads (dumps float_repr (OnionPacket_to_dict packet))
     = Some (OnionPacket_to_dict packet) →
   from_wire_format json_loads (to_wire_format float_repr packet) = Some packet).
Proof.
  assert (OnionPacket_from_dict (OnionPacket_to_dict packet) = Some packet) as Hdict.
  { unfold OnionPacket_from_dict, OnionPacket_to_dict. simpl.
    rewrite mapM_OnionLayer_from_dict, fromhex_hex. simpl. by destruct packet. }
  split_and!; [|done|].
  - intros data. split; [apply fromhex_hex|apply hex_length].
  - intros Hloads. unfold from_wire_format, to_wire_format, decode, encode.
    rewrite String.string_of_list_byte_of_string, Hloads. simpl. exact Hdict.
Qed.

(** Upper case and whitespace between bytes are read too; half a byte, a
    character that is no digit, or whitespace inside a byte are not. *)
Example fromhex_examples :
  fromhex "0aFF 10" = Some [Byte.x0a; Byte.xff; Byte.x10] ∧
  fromhex "0a1" = None ∧ fromhex "0g" = None ∧ fromhex "0 a" = None.
Proof. by vm_compute. Qed.

(** ** Building an onion *)

Section Build.

Variable x25519 : list Byte.byte → list Byte.byte → list Byte.byte.
Variable hkdf_sha256 :
  list Byte.byte → list Byte.byte → list Byte.byte → list Byte.byte.
Variable aes_cbc_encrypt :
  list Byte.byte → list Byte.byte → list Byte.byte → list Byte.byte.
Variable hmac_sha256 : list Byte.byte → list Byte.byte → list Byte.byte.
Variable urandom : nat → list Byte.byte.
Variable float_repr : Qc → string.

Variable km : KeyManager.
Variable route : list string.
Variable route_keys : gmap string (list Byte.byte).






End Build.

End OnionWire.

(* ===================================================================== *)
(** * mesh_app.py: the view the application gives its node *)
(* ===================================================================== *)

Module App.

Import Routing.

Section Topology.

Variable iteration : gset string → list string.
Hypothesis iteration_spec : ∀ (s : gset string) (x : string), x ∈ iteration s ↔ x ∈ s.

(** The body of the loop of [_update_neighbors] (mesh_app.py,
    lines 299-303).  In the [else] branch the set stored under the key is
    extended in place; the only key present before the loop is the node's
    own, whose set is the neighbour set itself, and the branch is taken for
    it only when that set holds the node already. *)
Definition add_back_link (self : string) (network_graph : gmap string (gset string))
    (neighbor_id : string) : gmap string (gset string) :=
  match network_graph !! neighbor_id with
  | None => <[neighbor_id := {[self]}]> network_graph
  | Some links => <[neighbor_id := {[self]} ∪ links]> network_graph
  end.

(** The [network_graph] of [_update_neighbors] (mesh_app.py, lines 296-303),
    from the neighbours collected from the radios. *)
Definition build_view (self : string) (nbrs : gset string)
    : gmap string (gset string) :=
  foldl (add_back_link self) {[ self := nbrs ]} (iteration nbrs).

(** [MeshPhoneApp._update_neighbors] (mesh_app.py, lines 278-305), as it
    changes the node. *)
Definition _update_neighbors (node : Node.MeshNode) (nbrs : gset string)
    : Node.MeshNode :=
  Node.update_network_graph (Node.update_neighbors node nbrs)
    (build_view (Node.node_id node) nbrs).

(** The view while the loop runs: the node's own entry is the neighbour
    set, a neighbour already visited has the node as its only link, nobody
    else has an entry. *)
Definition view_inv (self : string) (nbrs : gset string) (visited : list string)
    (g : gmap string (gset string)) : Prop :=
  g !! self = Some nbrs ∧
  ∀ k, k ≠ self →
    g !! k = if decide (k ∈ visited) then Some {[self]} else None.

Lemma view_inv_step self nbrs visited g n :
  n ∈ nbrs → view_inv self nbrs visited g →
  view_inv self nbrs (visited ++ [n]) (add_back_link self g n).
Proof.
  intros Hn [Hself Hothers]. unfold add_back_link.
  destruct (decide (n = self)) as [->|Hne].
  - rewrite Hself. split.
    + rewrite lookup_insert_eq. f_equal. set_solver.
    + intros k Hk. rewrite lookup_insert_ne by done. rewrite (Hothers k Hk).
      destruct (decide (k ∈ visited)) as [Hin|Hout].
      * rewrite decide_True; [done|]. apply elem_of_app. by left.
      * rewrite decide_False; [done|]. rewrite elem_of_app, list_elem_of_singleton.
        intros [?|?]; done.
  - assert (<[n:={[self]}]> g !! self = Some nbrs) as Hself'
      by by rewrite lookup_insert_ne.
    assert (∀ links, <[n:=links]> g !! self = Some nbrs) as Hkeep
      by (intros links; by rewrite lookup_insert_ne).
    rewrite (Hothers n Hne).
    destruct (decide (n ∈ visited)) as [Hseen|Hnew]; (split; [apply Hkeep|]).
    + intros k Hk. destruct (decide (k = n)) as [->|Hkn].
      * rewrite lookup_insert_eq. rewrite decide_True; [|apply elem_of_app; by left].
        f_equal. set_solver.
      * rewrite lookup_insert_ne by done. rewrite (Hothers k Hk).
        destruct (decide (k ∈ visited)) as [Hin|Hout].
        -- rewrite decide_True; [done|]. apply elem_of_app. by left.
        -- rewrite decide_False; [done|].
           rewrite elem_of_app, list_elem_of_singleton. intros [?|?]; done.
    + intros k Hk. destruct (decide (k = n)) as [->|Hkn].
      * rewrite lookup_insert_eq. rewrite decide_True; [done|].
        apply elem_of_app. right. by apply list_elem_of_singleton.
      * rewrite lookup_insert_ne by done. rewrite (Hothers k Hk).
        destruct (decide (k ∈ visited)) as [Hin|Hout].
        -- rewrite decide_True; [done|]. apply elem_of_app. by left.
        -- rewrite decide_False; [done|].
           rewrite elem_of_app, list_elem_of_singleton. intros [?|?]; done.
Qed.

Lemma view_inv_fold self nbrs (todo : list string) : ∀ visited g,
  (∀ n, n ∈ todo → n ∈ nbrs) → view_inv self nbrs visited g →
  view_inv self nbrs (visited ++ todo) (foldl (add_back_link self) g todo).
Proof.
  induction todo as [|n todo IH]; intros visited g Hin Hinv; simpl.
  { by rewrite app_nil_r. }
  replace (visited ++ n :: todo) with ((visited ++ [n]) ++ todo)
    by (by rewrite <- app_assoc).
  apply IH.
  - intros k Hk. apply Hin. by right.
  - apply view_inv_step; [|done]. apply Hin. by left.
Qed.

Lemma build_view_lookup self nbrs k :
  build_view self nbrs !! k
  = if decide (k = self) then Some nbrs
    else if decide (k ∈ nbrs) then Some {[self]} else None.
Proof.
  assert (view_inv self nbrs ([] ++ iteration nbrs) (build_view self nbrs))
    as [Hself Hothers].
  { apply view_inv_fold.
    - intros n. apply iteration_spec.
    - split; [by rewrite lookup_singleton_eq|].
      intros k' Hk'. by rewrite lookup_singleton_ne. }
  destruct (decide (k = self)) as [->|Hne]; [done|].
  rewrite (Hothers k Hne). simpl.
  destruct (decide (k ∈ nbrs)) as [Hin|Hout].
  - rewrite decide_True; [done|]. by apply iteration_spec.
  - rewrite decide_False; [done|]. by rewrite iteration_spec.
Qed.

Lemma find_route_build_view (r : Router) (nbrs : gset string) (recipient : string) :
  find_route iteration r recipient (build_view (node_id r) nbrs)
  = if decide (recipient = node_id r) then Some [node_id r]
    else if decide (recipient ∈ nbrs) then Some [node_id r; recipient]
    else None.
Proof.
  set (self := node_id r).
  destruct (decide (recipient = self)) as [->|Hne].
  { unfold find_route. by rewrite decide_True. }
  destruct (decide (recipient ∈ nbrs)) as [Hin|Hout].
  - assert (valid_route (build_view self nbrs) (node_id r) recipient [self; recipient])
      as Hdirect.
    { split_and!; [done..|].
      intros [|[|i]] a b Ha Hb; simplify_eq/=.
      unfold neighbours. rewrite build_view_lookup. by rewrite decide_True. }
    destruct (find_route_complete iteration iteration_spec r recipient
                (build_view self nbrs) [self; recipient]) as [p Hp]; [done| |done|].
    { apply elem_of_dom. rewrite build_view_lookup.
      rewrite decide_False by done. by rewrite decide_True. }
    rewrite Hp. f_equal.
    destruct (find_route_sound iteration iteration_spec r recipient _ p Hp)
      as [(Hhead & Hlast & _) Hmin].
    specialize (Hmin _ Hdirect). simpl in Hmin. fold self in Hhead.
    destruct p as [|a [|b [|c p]]]; simplify_eq/=; first [done|lia].
  - unfold find_route. rewrite decide_False by done.
    rewrite decide_True; [done|].
    rewrite not_elem_of_dom, build_view_lookup.
    rewrite decide_False by done. by rewrite decide_False.
Qed.

(** The node of the application only ever finds one-hop routes: after
    [_update_neighbors], [find_route] on the node's view returns the node
    alone for itself, the direct route for a neighbour, and no route for
    anybody else, whatever the rest of the mesh looks like. *)
Theorem app_view_reaches_neighbours_only (node : Node.MeshNode)
    (nbrs : gset string) (recipient : string) :
  node_id (Node.router node) = Node.node_id node →
  find_route iteration (Node.router (_update_neighbors node nbrs)) recipient
    (Node.network_graph (_update_neighbors node nbrs))
  = if decide (recipient = Node.node_id node) then Some [Node.node_id node]
    else if decide (recipient ∈ nbrs) then Some [Node.node_id node; recipient]
    else None.
Proof.
  intros Hid. simpl. rewrite <- Hid.
  apply (find_route_build_view
           (Node.Router_update_neighbors (Node.router node) nbrs)).
Qed.

(** ** The relay queue under the application's view *)

Variable message_eq : Message.Message → Message.Message → bool.
Hypothesis message_eq_refl : ∀ m, message_eq m m = true.
Hypothesis message_eq_id : ∀ a b,
  message_eq a b = true →
  Message.message_id (Message.header a) = Message.message_id (Message.header b).

Lemma forwardable_neighbour (node : Node.MeshNode) (nbrs : gset string)
    (m : Message.Message) :
  node_id (Node.router node) = Node.node_id node →
  Relay.forwardable iteration (_update_neighbors node nbrs) m = true
  ↔ Message.recipient_id (Message.header m) ∈ nbrs ∧
    Message.recipient_id (Message.header m) ≠ Node.node_id node.
Proof.
  intros Hid. unfold Relay.forwardable. simpl. rewrite <- Hid.
  rewrite (find_route_build_view
             (Node.Router_update_neighbors (Node.router node) nbrs)).
  simpl. repeat case_decide; simpl; rewrite ?bool_decide_eq_true; simpl;
    split; try done; try lia; try tauto.
Qed.

(** After [_update_neighbors], [process_relay_queue] hands on exactly the
    queued messages whose recipient is a direct neighbour; a message for
    anybody further away stays queued until its TTL is used up and is then
    dropped, never forwarded. *)
Theorem app_relays_to_neighbours_only (node : Node.MeshNode) (nbrs : gset string) :
  node_id (Node.router node) = Node.node_id node →
  NoDup (Relay.queue_ids (Node.relay_queue node)) →
  ∃ node',
    Relay.process_relay_queue iteration message_eq (_update_neighbors node nbrs)
    = Some
        (filter (λ m, Message.recipient_id (Message.header m) ∈ nbrs ∧
                      Message.recipient_id (Message.header m) ≠ Node.node_id node)
           (Node.relay_queue node),
         node') ∧
    Node.relay_queue node'
    = filter (λ m, ¬ (Message.recipient_id (Message.header m) ∈ nbrs ∧
                      Message.recipient_id (Message.header m) ≠ Node.node_id node)
                   ∧ Message.is_expired m = false)
        (Node.relay_queue node) ∧
    Node.messages_dropped (Node.stats node')
    = (Node.messages_dropped (Node.stats node)
       + Z.of_nat (length
           (filter (λ m, ¬ (Message.recipient_id (Message.header m) ∈ nbrs ∧
                            Message.recipient_id (Message.header m) ≠ Node.node_id node)
                         ∧ Message.is_expired m = true)
              (Node.relay_queue node))))%Z.
Proof.
  intros Hid Hids.
  pose proof (Relay.relay_loop_spec iteration message_eq message_eq_refl
                message_eq_id (_update_neighbors node nbrs)
                (Node.relay_queue node) [] [] 0 Hids) as Hloop.
  cbn [app] in Hloop.
  change (Relay.relay_outcome (_update_neighbors node nbrs) (Node.relay_queue node) 0)
    with (Relay.relay_outcome (_update_neighbors node nbrs)
            (Node.relay_queue (_update_neighbors node nbrs)) 0) in Hloop.
  rewrite Relay.relay_outcome_id, Z.add_0_l in Hloop.
  eexists. split_and!.
  - unfold Relay.process_relay_queue.
    change (Node.relay_queue (_update_neighbors node nbrs))
      with (Node.relay_queue node).
    rewrite Hloop. do 2 f_equal. apply list_filter_iff.
    intros m. by apply forwardable_neighbour.
  - simpl. apply list_filter_iff. intros m.
    rewrite <- (forwardable_neighbour node nbrs m Hid).
    by rewrite not_true_iff_false.
  - simpl. do 3 f_equal. apply list_filter_iff. intros m.
    rewrite <- (forwardable_neighbour node nbrs m Hid).
    by rewrite not_true_iff_false.
Qed.

End Topology.

(** The node of an application that hears B, on a mesh where D is two
    further hops away: no route to D. *)
Lemma app_view_reaches_neighbours_only_witness :
  find_route elements
    (Node.router (_update_neighbors elements
       (Node.MeshNode_init (Node.NodeConfig_default "A" false)) {[ "B" ]})) "D"
    (Node.network_graph (_update_neighbors elements
       (Node.MeshNode_init (Node.NodeConfig_default "A" false)) {[ "B" ]}))
  = if decide ("D" = Node.node_id (Node.MeshNode_init (Node.NodeConfig_default "A" false)))
    then Some [Node.node_id (Node.MeshNode_init (Node.NodeConfig_default "A" false))]
    else if decide ("D" ∈ ({[ "B" ]} : gset string))
    then Some [Node.node_id (Node.MeshNode_init (Node.NodeConfig_default "A" false)); "D"]
    else None.
Proof.
  exact (app_view_reaches_neighbours_only elements elements_enumerates
           (Node.MeshNode_init (Node.NodeConfig_default "A" false)) {[ "B" ]} "D"
           eq_refl).
Defined.

(** B, as the node of an application that hears A and C, holding A's message
    for D: the message is not handed on. *)
Definition app_bob : Node.MeshNode :=
  (Node.receive_message Node.no_float_repr "ack-1" 1
     (Node.update_neighbors (Node.MeshNode_init (Node.NodeConfig_default "B" false))
        {[ "A"; "C" ]})
     Node.secret_message).1.2.

Lemma app_bob_queue : NoDup (Relay.queue_ids (Node.relay_queue app_bob)).
Proof. vm_compute. apply NoDup_singleton. Qed.

Lemma app_relays_to_neighbours_only_witness :
  ∃ node',
    Relay.process_relay_queue elements Relay.same_id
      (_update_neighbors elements app_bob {[ "A"; "C" ]})
    = Some
        (filter (λ m, Message.recipient_id (Message.header m) ∈ ({[ "A"; "C" ]} : gset string) ∧
                      Message.recipient_id (Message.header m) ≠ Node.node_id app_bob)
           (Node.relay_queue app_bob),
         node') ∧
    Node.relay_queue node'
    = filter (λ m, ¬ (Message.recipient_id (Message.header m) ∈ ({[ "A"; "C" ]} : gset string) ∧
                      Message.recipient_id (Message.header m) ≠ Node.node_id app_bob)
                   ∧ Message.is_expired m = false)
        (Node.relay_queue app_bob) ∧
    Node.messages_dropped (Node.stats node')
    = (Node.messages_dropped (Node.stats app_bob)
       + Z.of_nat (length
           (filter (λ m, ¬ (Message.recipient_id (Message.header m) ∈ ({[ "A"; "C" ]} : gset string) ∧
                            Message.recipient_id (Message.header m) ≠ Node.node_id app_bob)
                         ∧ Message.is_expired m = true)
              (Node.relay_queue app_bob))))%Z.
Proof.
  exact (app_relays_to_neighbours_only elements elements_enumerates Relay.same_id
           Relay.same_id_refl Relay.same_id_id app_bob {[ "A"; "C" ]}
           eq_refl app_bob_queue).
Defined.

(** The message for D stays in B's queue and nothing is handed on. *)
Example app_bob_keeps_the_message :
  (λ r : list Message.Message * Node.MeshNode,
     (Relay.queue_ids (r.1), Relay.queue_ids (Node.relay_queue (r.2))))
    <$> Relay.process_relay_queue elements Relay.same_id
          (_update_neighbors elements app_bob {[ "A"; "C" ]})
  = Some ([], ["msg-1"]).
Proof. vm_compute. reflexivity. Qed.

End App.
